(** * py2droid: a shallow embedding of [scripts/build.py]

    The build script downloads, patches and cross-compiles CPython, then
    turns every install prefix into a tarball of a Magisk module.  This file
    embeds the parts of the script that decide its file-transformation and
    error-handling behaviour and proves properties of them:

    - [update_env_path], [CPythonBuilder._create_env]
    - [CPythonBuilder._apply_patches], [CPythonBuilder._find_ndk_toolchain]
    - [run], [CPythonBuilder._build_hosts]
    - [ModuleBuilder._debloat], [ModuleBuilder._fix_shebangs],
      [ModuleBuilder._strip], [ModuleBuilder._compress], the host loop of
      [ModuleBuilder.build] and the archive of [ModuleBuilder._package_module]
    - [is_binary], [parse_module_prop], [format_module_prop]
    - [init] with its two helpers, and the [--clean] loop of [main]

    Conventions.  A Python [str] is a Coq [string]; each character stands for
    one code point below 256.  A [bytes] value is a [list byte].  A
    [pathlib.Path] is the list of its [parts]; an absolute path starts with
    the part ["/"].  Mutable state (the filesystem, the heap of dict objects,
    the outside world of external tools) is threaded explicitly through a
    state-and-exception monad.  The glob of wcmatch and the external
    commands are not part of the script: they are parameters, and what is
    assumed of them is stated where it is used. *)

From stdpp Require Import gmap strings list fin_maps.
From Stdlib Require Import Strings.Ascii Strings.Byte.


(** ** Exceptions and the state-and-exception monad *)

Abbreviation Path := (list string).

Inductive exn :=
| KeyError (key : string)
| BuilderError (msg : string)
| OSError (p : Path)
| ValueError (p : Path)
| CalledProcessError (returncode : Z) (cmd : list string) (output stderr : string).

Inductive result (A : Type) :=
| Ok (a : A)
| Raise (e : exn).
Arguments Ok {A} a.
Arguments Raise {A} e.

Definition is_error {A} (r : result A) : bool :=
  match r with Ok _ => false | Raise _ => true end.

(** A computation over a state [S]: it returns a value or raises, and in both
    cases leaves a state behind (an exception does not undo side effects). *)
Definition M (S A : Type) : Type := S → result A * S.

Definition ret {S A} (a : A) : M S A := λ s, (Ok a, s).
Definition raise {S A} (e : exn) : M S A := λ s, (Raise e, s).
Definition bind {S A B} (k : A → M S B) (m : M S A) : M S B :=
  λ s, match m s with
       | (Ok a, s') => k a s'
       | (Raise e, s') => (Raise e, s')
       end.
Definition get {S} : M S S := λ s, (Ok s, s).
Definition put {S} (s : S) : M S unit := λ _, (Ok tt, s).
Definition modify {S} (f : S → S) : M S unit := λ s, (Ok tt, f s).

#[global] Instance M_ret {S} : MRet (M S) := @ret S.
#[global] Instance M_bind {S} : MBind (M S) := @bind S.

(** [for x in xs: body x] over a list that is fixed when the loop starts. *)
Fixpoint for_each {S A} (xs : list A) (body : A → M S unit) : M S unit :=
  match xs with
  | [] => ret tt
  | x :: xs' => body x;; for_each xs' body
  end.

(** ** Strings *)

Definition nl : ascii := "010"%char.
Definition cr : ascii := "013"%char.

(** [s.split(c)] for a one-character separator: never the empty list. *)
Fixpoint split_on (c : ascii) (s : string) : list string :=
  match s with
  | "" => [""]
  | String a s' =>
      if Ascii.eqb a c then "" :: split_on c s'
      else match split_on c s' with
           | [] => [String a ""]
           | w :: ws => String a w :: ws
           end
  end.

(** [s.removeprefix(p)] when [s] starts with [p] *)
Fixpoint drop_prefix (p s : string) : option string :=
  match p, s with
  | "", _ => Some s
  | String a p', String b s' => if Ascii.eqb a b then drop_prefix p' s' else None
  | String _ _, "" => None
  end.

(** [s.startswith(p)] *)
Definition startswith (p s : string) : bool :=
  match drop_prefix p s with Some _ => true | None => false end.

(** [needle in hay] *)
Fixpoint contains (needle hay : string) : bool :=
  startswith needle hay ||
  match hay with
  | "" => false
  | String _ hay' => contains needle hay'
  end.

(** [str.lower] on the code points below 256: the letters A to Z and the
    capital letters of Latin-1 (192 to 222 but the multiplication sign). *)
Definition lower_char (a : ascii) : ascii :=
  let n := nat_of_ascii a in
  if ((65 <=? n)%nat && (n <=? 90)%nat)
     || ((192 <=? n)%nat && (n <=? 222)%nat && negb (n =? 215)%nat)
  then ascii_of_nat (n + 32) else a.

Fixpoint str_lower (s : string) : string :=
  match s with
  | "" => ""
  | String a s' => String (lower_char a) (str_lower s')
  end.

(** ** Paths (pathlib) *)

(** [Path(s)]: split on ["/"], drop empty and ["."] parts, keep the root
    (one leading slash or several give the same root here). *)
Definition Path_of (s : string) : Path :=
  let comps := filter (λ x, x ≠ "" ∧ x ≠ ".") (split_on "/" s) in
  if startswith "/" s then "/" :: comps else comps.

(** [p / q] for two paths: an absolute right operand replaces the left. *)
Definition path_join (p q : Path) : Path :=
  match q with
  | "/" :: _ => q
  | _ => p ++ q
  end.

(** [p / s] for a path and a string *)
Definition path_div (p : Path) (s : string) : Path := path_join p (Path_of s).
Infix "//" := path_div (at level 40, left associativity) : stdpp_scope.

(** [str(p)] *)
Definition path_str (p : Path) : string :=
  match p with
  | [] => "."
  | "/" :: rest => "/" +:+ String.concat "/" rest
  | _ => String.concat "/" p
  end.

(** [p.name] *)
Definition path_name (p : Path) : string :=
  match last p with
  | Some "/" | None => ""
  | Some n => n
  end.

(** [p.relative_to(base)] *)
Fixpoint relative_to (base p : Path) : option Path :=
  match base, p with
  | [], _ => Some p
  | b :: base', x :: p' => if decide (b = x) then relative_to base' p' else None
  | _ :: _, [] => None
  end.

Definition BUILD_DIR : Path := Path_of "build".
Definition PATCHES_DIR : Path := Path_of "patches".

(** ** [ModuleBuilder._compress] and the host loop of [ModuleBuilder.build] *)

(** For converting the build triplet to Magisk's $ARCH variable. *)
Definition arch_mapping : gmap string string :=
  list_to_map [
    ("aarch64-linux-android", "arm64");
    ("arm-linux-androideabi", "arm");
    ("armv7a-linux-androideabi", "arm");
    ("i686-linux-android", "x86");
    ("x86_64-linux-android", "x64")
  ].

(** ["cpython-{}.tar.xz".format(arch)] *)
Definition compressed_name (arch : string) : string :=
  "cpython-" +:+ arch +:+ ".tar.xz".

(** What [tar.add(prefix, prefix.name)] stores: the member name of the root
    and the subtree found under the prefix; [Tree] is whatever describes that
    subtree. *)
Record tarball (Tree : Type) := Tarball { arcname : string; members : Tree }.
Arguments Tarball {Tree} arcname members.
Arguments arcname {Tree} t.
Arguments members {Tree} t.

Section Compress.
Context {Tree : Type}.

(** The tarballs on disk, by path. *)
Abbreviation disk := (gmap Path (tarball Tree)).

(** [tarfile.open(p, "w:xz")] creates the file or truncates an existing one. *)
Definition tarfile_write (p : Path) (t : tarball Tree) : M disk unit :=
  modify (λ d : disk, <[p := t]> d).

Definition _compress (prefix : Path) (tree : Tree) (host : string) : M disk Path :=
  match arch_mapping !! host with
  | None => raise (KeyError host)
  | Some magisk_arch =>
      let tarball_path := BUILD_DIR // compressed_name magisk_arch in
      tarfile_write tarball_path (Tarball (path_name prefix) tree);;
      mret tarball_path
  end.

(** The loop of [ModuleBuilder.build] over the hosts; [staged host] is the
    prefix subtree of [host] as the earlier stages of the iteration left it. *)
Fixpoint build_hosts_loop (source_code : Path) (staged : string → Tree)
    (hosts : list string) (tarballs : list Path) : M disk (list Path) :=
  match hosts with
  | [] => mret tarballs
  | host :: hosts' =>
      let prefix := source_code // "cross-build" // host // "prefix" in
      tarball ← _compress prefix (staged host) host;
      build_hosts_loop source_code staged hosts' (tarballs ++ [tarball])
  end.

End Compress.

(** ** [update_env_path] and [CPythonBuilder._create_env]

    Environments are dict objects on a heap, so that a mutation through one
    reference is seen through every alias of it. *)

Abbreviation dict := (gmap string string).
Abbreviation heap := (gmap positive dict).

(** The object [os.environ]. *)
Definition os_environ : positive := 1%positive.

(** [d.copy()]: a fresh object with the same items *)
Definition dict_copy (l : positive) : M heap positive :=
  λ h, let l' := fresh (dom h) in (Ok l', <[l' := default ∅ (h !! l)]> h).

(** [d.update(other)] *)
Definition dict_update (l : positive) (other : dict) : M heap unit :=
  modify (λ h : heap, alter (λ d, other ∪ d) l h).

(** [d.get(key)] *)
Definition dict_get (l : positive) (key : string) : M heap (option string) :=
  λ h, (Ok (h !! l ≫= (λ d : dict, d !! key)), h).

(** [d[key] = v] *)
Definition dict_setitem (l : positive) (key v : string) : M heap unit :=
  modify (λ h : heap, alter (λ d : dict, <[key := v]> d) l h).

Section Env.
(** [os.pathsep] *)
Variable pathsep : ascii.

Definition update_env_path (env : positive) (key : string) (values : list Path)
  : M heap unit :=
  let str_values := map path_str values in
  path ← dict_get env key;
  match path with
  | None => dict_setitem env key (String.concat (String pathsep "") str_values)
  | Some path =>
      dict_setitem env key (String.concat (String pathsep "") (str_values ++ [path]))
  end.

Definition _create_env (configure_env : dict) (toolchain : Path) : M heap positive :=
  env ← dict_copy os_environ;
  dict_update env configure_env;;
  update_env_path env "PATH" [toolchain // "bin"];;
  update_env_path env "LIBRARY_PATH" [toolchain // "lib"];;
  mret env.

End Env.

(** ** [CPythonBuilder._apply_patches] *)

Record CompletedProcess := {
  args : list string;
  returncode : Z;
  stdout : string;
  stderr : string
}.

Definition patch_marker : string :=
  "Reversed (or previously applied) patch detected!".

(** The command line of one patch; ["../../" / patch] *)
Definition patch_command (patch : Path) : list string :=
  ["patch"; "-Np1"; "-sr"; "-"; "-i"; path_str (path_join (Path_of "../../") patch)].

Section Patches.
(** The world outside the script: the source tree the patch tool edits, the
    patches directory, the terminal. *)
Context {World : Type}.
(** Running a command in a working directory: exit code, captured stdout and
    stderr, and the world it leaves. *)
Variable exec : list string → Path → World → (Z * string * string) * World.
Variable is_file : World → Path → bool.
(** [PATCHES_DIR.glob("*.patch")] *)
Variable glob_patches : World → list Path.
(** [sys.stdout.write] *)
Variable stdout_write : string → World → World.

(** [run] with [capture_output=True, check=False, text=True] and a working
    directory: the exit code is handed back, never raised. *)
Definition run_unchecked (command : list string) (cwd : Path)
  : M World CompletedProcess :=
  λ w, let '((rc, out, err), w') := exec command cwd w in
       (Ok {| args := command; returncode := rc; stdout := out; stderr := err |}, w').

(** The body of the loop of [_apply_patches]. *)
Definition apply_patch (source_dir patch : Path) : M World unit :=
  w ← get;
  if is_file w patch then
    result ← run_unchecked (patch_command patch) source_dir;
    modify (stdout_write (stdout result));;
    if (returncode result =? 0)%Z then mret tt
    else if contains patch_marker (stdout result) then mret tt
    else raise (CalledProcessError (returncode result) (args result)
                  (stdout result) (stderr result))
  else mret tt.

Definition _apply_patches (source_dir : Path) : M World unit :=
  w ← get;
  for_each (glob_patches w) (apply_patch source_dir).

End Patches.

(** ** [CPythonBuilder._find_ndk_toolchain] *)

(** What the function can observe: the decoded characters of a file,
    directory listings (in the order the operating system gives them) and
    the process environment. *)
Record world := {
  file_text : Path → option string;
  listdir : Path → option (list string);
  environ : dict
}.

(** Text mode with the default [newline=None]: ["\r\n"] and ["\r"] are read
    as ["\n"]. *)
Fixpoint universal_newlines (s : string) : string :=
  match s with
  | "" => ""
  | String a s' =>
      if Ascii.eqb a cr then
        match s' with
        | String b s'' =>
            if Ascii.eqb b nl then String nl (universal_newlines s'')
            else String nl (universal_newlines s')
        | "" => String nl ""
        end
      else String a (universal_newlines s')
  end.

(** One line against [^ndk_version=(.+)$]: group 1 when the line matches.
    [.] takes every character but the newline, of which a line has none, and
    [.+] needs one character at least. *)
Definition match_ndk_line (line : string) : option string :=
  match drop_prefix "ndk_version=" line with
  | Some (String a rest) => Some (String a rest)
  | _ => None
  end.

(** [re.search("(?m)^ndk_version=(.+)$", content)]: with [(?m)] the anchors
    [^] and [$] sit at the ends of every line, and the search returns the
    leftmost match, that is the first line that matches. *)
Definition search_ndk_version (content : string) : option string :=
  list_find (λ l, is_Some (match_ndk_line l)) (split_on nl content)
    ≫= (λ il, match_ndk_line il.2).

Definition open_text (p : Path) : M world string :=
  w ← get;
  match file_text w p with
  | None => raise (OSError p)
  | Some raw => mret (universal_newlines raw)
  end.

Definition getenv_item (key : string) : M world string :=
  w ← get;
  match environ w !! key with
  | None => raise (KeyError key)
  | Some v => mret v
  end.

(** [next(p.iterdir(), None)] *)
Definition first_entry (p : Path) : M world (option Path) :=
  w ← get;
  match listdir w p with
  | None => raise (OSError p)
  | Some [] => mret None
  | Some (name :: _) => mret (Some (p ++ [name]))
  end.

Definition _find_ndk_toolchain (source_dir : Path) : M world Path :=
  let android_env := source_dir // "Android" // "android-env.sh" in
  content ← open_text android_env;
  match search_ndk_version content with
  | None =>
      raise (BuilderError
               ("Failed to parse NDK version from file: " +:+ path_str android_env))
  | Some ndk_version =>
      home ← getenv_item "ANDROID_HOME";
      let android_home := Path_of home in
      let prebuilt := android_home // "ndk" // ndk_version // "toolchains/llvm/prebuilt" in
      toolchain ← first_entry prebuilt;
      match toolchain with
      | None => raise (BuilderError ("NDK toolchain not found in " +:+ path_str prebuilt))
      | Some toolchain => mret toolchain
      end
  end.

(** ** [parse_module_prop] and [format_module_prop] *)

(** [str.isspace] on the code points below 256. *)
Definition is_space (a : ascii) : bool :=
  let n := nat_of_ascii a in
  ((9 <=? n)%nat && (n <=? 13)%nat) || ((28 <=? n)%nat && (n <=? 32)%nat)
  || (n =? 133)%nat || (n =? 160)%nat.

Fixpoint lstrip (s : string) : string :=
  match s with
  | "" => ""
  | String a s' => if is_space a then lstrip s' else s
  end.

Fixpoint rstrip (s : string) : string :=
  match s with
  | "" => ""
  | String a s' =>
      match rstrip s' with
      | "" => if is_space a then "" else String a ""
      | r => String a r
      end
  end.

(** [s.strip()] *)
Definition strip (s : string) : string := rstrip (lstrip s).

(** [s.partition(sep)] for a one-character separator *)
Fixpoint str_partition (sep : ascii) (s : string) : string * string * string :=
  match s with
  | "" => ("", "", "")
  | String a s' =>
      if Ascii.eqb a sep then ("", String sep "", s')
      else let '(h, m, t) := str_partition sep s' in (String a h, m, t)
  end.

(** Iterating over a text file: the lines, each with its newline but
    possibly the last. *)
Fixpoint readlines (s : string) : list string :=
  match s with
  | "" => []
  | String a s' =>
      if Ascii.eqb a nl then String nl "" :: readlines s'
      else match readlines s' with
           | [] => [String a ""]
           | l :: ls => String a l :: ls
           end
  end.

(** A Python dict keeps its keys in insertion order; assigning to a key that
    is present keeps the key where it is. *)
Abbreviation odict := (list (string * string)).

Fixpoint odict_set (k v : string) (d : odict) : odict :=
  match d with
  | [] => [(k, v)]
  | (k', v') :: d' =>
      if decide (k = k') then (k, v) :: d' else (k', v') :: odict_set k v d'
  end.

(** The argument is the text of [module/module.prop]. *)
Definition parse_module_prop (module_prop : string) : odict :=
  foldl (λ props line,
           let new_line := strip line in
           if startswith "#" new_line then props
           else let '(key, _, value) := str_partition "=" new_line in
                odict_set key value props)
        [] (readlines (universal_newlines module_prop)).

Definition format_module_prop (props : odict) : string :=
  foldl (λ buf '(k, v), buf +:+ (k +:+ "=" +:+ v +:+ String nl "")) "" props.

(** ["CPython {} for Android".format(cpython_version)], the description
    that [ModuleBuilder.__init__] computes. *)
Definition description (cpython_version : string) : string :=
  "CPython " +:+ cpython_version +:+ " for Android".

(** The dict of [_package_module]: [props = parse_module_prop()] and
    [props["description"] = self.description]. *)
Definition package_props (module_prop cpython_version : string) : odict :=
  odict_set "description" (description cpython_version) (parse_module_prop module_prop).

(** What [_package_module] writes as the member [module.prop] of the
    archive. *)
Definition packaged_module_prop (module_prop cpython_version : string) : string :=
  format_module_prop (package_props module_prop cpython_version).

(** ** Bytes, [is_binary] and the shebang patterns *)

Abbreviation bytes := (list byte).

#[global] Instance byte_eq_decision : EqDecision byte := Byte.byte_eq_dec.

(** A bytes literal [b"..."] without escapes. *)
Definition bytes_of (s : string) : bytes := String.list_byte_of_string s.

(** [bytearray({7, 8, 9, 10, 12, 13, 27} | set(range(0x20, 0x100)) - {0x7F})];
    the difference binds tighter than the union. *)
Definition TEXT_CHARS : bytes :=
  omap Byte.of_nat
    (list_union [7; 8; 9; 10; 12; 13; 27]%nat
       (list_difference (seq 32 (256 - 32)) [127]%nat)).

(** [data.translate(None, delete)] *)
Definition translate_delete (delete data : bytes) : bytes :=
  filter (λ c, c ∉ delete) data.

Definition is_binary (data : bytes) : bool :=
  match translate_delete TEXT_CHARS data with
  | [] => false
  | _ :: _ => true
  end.

(** Regular expressions over bytes, as far as the two patterns need them. *)
Inductive regex :=
| Never
| Eps
| Lit (c : byte)
| Class (cs : bytes)
| Seq (r1 r2 : regex)
| Alt (r1 r2 : regex)
| Star (r : regex).

Definition Opt (r : regex) : regex := Alt r Eps.
Definition Plus (r : regex) : regex := Seq r (Star r).
Definition lit (s : string) : regex := foldr (λ c r, Seq (Lit c) r) Eps (bytes_of s).
Definition seqs (rs : list regex) : regex := foldr Seq Eps rs.
Definition alts (rs : list regex) : regex := foldr Alt Never rs.

Fixpoint nullable (r : regex) : bool :=
  match r with
  | Never | Lit _ | Class _ => false
  | Eps | Star _ => true
  | Seq r1 r2 => nullable r1 && nullable r2
  | Alt r1 r2 => nullable r1 || nullable r2
  end.

(** Brzozowski derivative: what is left of [r] after reading [c]. *)
Fixpoint deriv (c : byte) (r : regex) : regex :=
  match r with
  | Never | Eps => Never
  | Lit c' => if Byte.eqb c c' then Eps else Never
  | Class cs => if bool_decide (c ∈ cs) then Eps else Never
  | Seq r1 r2 =>
      if nullable r1 then Alt (Seq (deriv c r1) r2) (deriv c r2)
      else Seq (deriv c r1) r2
  | Alt r1 r2 => Alt (deriv c r1) (deriv c r2)
  | Star r' => Seq (deriv c r') (Star r')
  end.

(** [bool(pattern.match(data))]: some prefix of [data] is in the language. *)
Fixpoint re_match (r : regex) (data : bytes) : bool :=
  nullable r ||
  match data with
  | [] => false
  | c :: data' => re_match (deriv c r) data'
  end.

(** [\s] in a bytes pattern: space, tab, newline, carriage return, form feed,
    vertical tab. *)
Definition re_space : regex := Class [x20; x09; x0a; x0d; x0c; x0b].
(** [[0-9]] *)
Definition re_digit : regex := Class (bytes_of "0123456789").

(** [/(?:usr/(?:local/)?|)(?:bin|sbin)/(?:env\s+)?], shared by both patterns *)
Definition re_interpreter_dir : regex :=
  seqs [ lit "/";
         Alt (Seq (lit "usr/") (Opt (lit "local/"))) Eps;
         Alt (lit "bin") (lit "sbin");
         lit "/";
         Opt (Seq (lit "env") (Plus re_space)) ].

Definition python_shebang : bytes := bytes_of "#!/system/bin/python3" ++ [x0a].
(** [^#!\s*/(?:usr/(?:local/)?|)(?:bin|sbin)/(?:env\s+)?python[0-9]*(?:\.[0-9]+)*] *)
Definition python_shebang_re : regex :=
  seqs [ lit "#!"; Star re_space; re_interpreter_dir;
         lit "python"; Star re_digit; Star (Seq (lit ".") (Plus re_digit)) ].

Definition shell_shebang : bytes := bytes_of "#!/system/bin/sh" ++ [x0a].
(** [^#!\s*/(?:usr/(?:local/)?|)(?:bin|sbin)/(?:env\s+)?(?:sh|bash|dash)] *)
Definition shell_shebang_re : regex :=
  seqs [ lit "#!"; Star re_space; re_interpreter_dir;
         alts [lit "sh"; lit "bash"; lit "dash"] ].

(** ** The filesystem

    A finite map from paths to entries.  A symbolic link holds the path it
    points to, in the form under which that entry is a key of the map.  A
    path names an entry directly: there is no lookup through a directory that
    is a symbolic link. *)

Inductive node :=
| File (data : bytes)
| Dir
| Symlink (target : Path).

Abbreviation FS := (gmap Path node).

(** What is logged at level INFO by the stages below. *)
Inductive event :=
| Removed (p : Path)
| Patched (p : Path).

Record store := { files : FS; logged : list event }.

Definition modify_files (f : FS → FS) : M store unit :=
  modify (λ st, {| files := f (files st); logged := logged st |}).

Definition logger_info (e : event) : M store unit :=
  modify (λ st, {| files := files st; logged := logged st ++ [e] |}).

(** The number of links the kernel follows before it gives up. *)
Definition MAXSYMLINKS : nat := 40.

Fixpoint resolve (fuel : nat) (fs : FS) (p : Path) : option node :=
  match fs !! p with
  | Some (Symlink t) =>
      match fuel with
      | O => None
      | S fuel' => resolve fuel' fs t
      end
  | o => o
  end.

(** [os.stat]: follows links. *)
Definition stat (fs : FS) (p : Path) : option node := resolve MAXSYMLINKS fs p.

Definition is_dir (fs : FS) (p : Path) : bool :=
  match stat fs p with Some Dir => true | _ => false end.
Definition is_file (fs : FS) (p : Path) : bool :=
  match stat fs p with Some (File _) => true | _ => false end.
Definition is_symlink (fs : FS) (p : Path) : bool :=
  match fs !! p with Some (Symlink _) => true | _ => false end.

(** [shutil.rmtree(p)]: [p] must be a directory and not a link; the
    directory goes with everything below it. *)
Definition rmtree (p : Path) : M store unit :=
  st ← get;
  match files st !! p with
  | Some Dir => modify_files (filter (λ kv : Path * node, ¬ p `prefix_of` kv.1))
  | _ => raise (OSError p)
  end.

(** [p.unlink()]: a file or a link, which must exist. *)
Definition unlink (p : Path) : M store unit :=
  st ← get;
  match files st !! p with
  | Some (File _) | Some (Symlink _) => modify_files (delete p)
  | _ => raise (OSError p)
  end.

(** [p.open("rb")] and reading all of it *)
Definition open_rb (p : Path) : M store bytes :=
  st ← get;
  match stat (files st) p with
  | Some (File data) => mret data
  | _ => raise (OSError p)
  end.

(** [p.write_bytes(data)] on an existing regular file *)
Definition write_bytes (p : Path) (data : bytes) : M store unit :=
  modify_files (λ fs : FS, <[p := File data]> fs).

(** [d.iterdir()]: the direct children of a directory *)
Definition iterdir (d : Path) : M store (list Path) :=
  st ← get;
  match files st !! d with
  | Some Dir =>
      mret (filter (λ p, length p = S (length d) ∧ d `prefix_of` p)
              (map_to_list (files st)).*1)
  | _ => raise (OSError d)
  end.

(** [logger.info("  - ...: %s", p.relative_to(prefix))] *)
Definition log_relative (mk : Path → event) (prefix p : Path) : M store unit :=
  match relative_to prefix p with
  | None => raise (ValueError p)
  | Some rel => logger_info (mk rel)
  end.

(** ** [ModuleBuilder._fix_shebangs] *)

(** [fin.readline(size)] on a binary file, with what is left to read: the
    line ends after the first newline or after [size] bytes. *)
Fixpoint readline (size : nat) (data : bytes) : bytes * bytes :=
  match size, data with
  | O, _ => ([], data)
  | _, [] => ([], [])
  | S size', c :: data' =>
      if Byte.eqb c x0a then ([c], data')
      else let '(line, rest) := readline size' data' in (c :: line, rest)
  end.

(** The body of the loop of [_fix_shebangs]. *)
Definition fix_shebang (prefix path : Path) : M store unit :=
  st ← get;
  if negb (is_file (files st) path) || is_symlink (files st) path then mret tt
  else
    data ← open_rb path;
    let '(content, rest) := readline 1024 data in
    if is_binary content then mret tt
    else
      let new_shebang :=
        if re_match shell_shebang_re content then Some shell_shebang
        else if re_match python_shebang_re content then Some python_shebang
        else None in
      match new_shebang with
      | None => mret tt
      | Some new_shebang =>
          let content := new_shebang ++ rest in
          write_bytes path content;;
          log_relative Patched prefix path
      end.

Definition _fix_shebangs (prefix : Path) : M store unit :=
  let prefix_bin := prefix // "bin" in
  paths ← iterdir prefix_bin;
  for_each paths (fix_shebang prefix).

(** ** [ModuleBuilder._debloat] *)

Inductive glob_flag := GLOBSTARLONG | NEGATE | EXTGLOB | BRACE.

Definition debloat_flags : list glob_flag := [GLOBSTARLONG; NEGATE; EXTGLOB; BRACE].

(** [Path.glob] of wcmatch is a generator: it walks the filesystem while the
    loop that consumes it deletes entries.  A globber is an implementation of
    it as a state machine: [glob_start] makes the generator for a root
    directory, patterns and flags (the loop resumes it at once, so it may
    already look at the filesystem of that moment), [glob_next] resumes it on
    the filesystem as it is now, and [glob_left] bounds the number of paths
    it can still yield. *)
Record Globber := {
  gen : Type;
  glob_start : Path → list string → list glob_flag → FS → gen;
  glob_next : gen → FS → option (Path * gen);
  glob_left : gen → nat;
  glob_next_lt : ∀ g fs p g', glob_next g fs = Some (p, g') → glob_left g' < glob_left g
}.

(** An entry of [debloat_patterns]: a pattern, or a table with the keys
    [pattern] (one pattern or several) and [rm_if]. *)
Inductive debloat_pattern :=
| Pattern (pattern : string)
| Conditional (raw_pattern : list string) (rm_if : list string).

Section Debloat.
Variable G : Globber.

(** The loop [for path in g: body path], with fuel for the resumptions;
    [for_glob] gives it more than the generator can use up. *)
Fixpoint drain (fuel : nat) (g : gen G) (body : Path → M store unit) : M store unit :=
  λ st,
    match fuel with
    | O => (Ok tt, st)
    | S fuel' =>
        match glob_next G g (files st) with
        | None => (Ok tt, st)
        | Some (path, g') =>
            match body path st with
            | (Ok _, st') => drain fuel' g' body st'
            | (Raise e, st') => (Raise e, st')
            end
        end
    end.

(** [for path in prefix.glob(patterns, flags=flags): body path] *)
Definition for_glob (prefix : Path) (patterns : list string) (flags : list glob_flag)
    (body : Path → M store unit) : M store unit :=
  λ st, let g := glob_start G prefix patterns flags (files st) in
        drain (S (glob_left G g)) g body st.

(** The body of the first loop of [_debloat]. *)
Definition remove_path (prefix path : Path) : M store unit :=
  st ← get;
  (if is_dir (files st) path && negb (is_symlink (files st) path)
   then rmtree path
   else unlink path);;
  log_relative Removed prefix path.

(** The body of the loop over the matches of one conditional pattern. *)
Definition remove_path_if (rm_file rm_dir rm_symlink : bool) (prefix path : Path)
  : M store unit :=
  st ← get;
  if (is_dir (files st) path && negb (is_symlink (files st) path)) && rm_dir then
    rmtree path;;
    log_relative Removed prefix path
  else if (is_symlink (files st) path && rm_symlink)
          || (is_file (files st) path && rm_file) then
    unlink path;;
    log_relative Removed prefix path
  else mret tt.

(** The body of the loop over [conditional_patterns]. *)
Definition debloat_conditional (prefix : Path) (raw_pattern rm_if : list string)
  : M store unit :=
  let rm_if := str_lower <$> rm_if in
  let rm_file := bool_decide ("file" ∈ rm_if) in
  let rm_dir := bool_decide ("dir" ∈ rm_if) in
  let rm_symlink := bool_decide ("symlink" ∈ rm_if) in
  for_glob prefix raw_pattern debloat_flags
    (remove_path_if rm_file rm_dir rm_symlink prefix).

Definition _debloat (debloat_patterns : list debloat_pattern) (prefix : Path)
  : M store unit :=
  let patterns :=
    omap (λ p, match p with Pattern s => Some s | _ => None end) debloat_patterns in
  let conditional_patterns :=
    omap (λ p, match p with Conditional r k => Some (r, k) | _ => None end)
      debloat_patterns in
  for_glob prefix patterns debloat_flags (remove_path prefix);;
  for_each conditional_patterns
    (λ pattern, debloat_conditional prefix pattern.1 pattern.2).

End Debloat.

(** ** [ModuleBuilder._strip] *)


Section Strip.
Variable G : Globber.
(** [os.pathsep], [sys.platform] and the items of [os.environ] *)
Variable pathsep : ascii.
Variable platform : string.
Variable environ : dict.
(** The strip tool: the command line, the working directory and the
    environment give the exit code and the tree that the tool leaves. *)
Variable exec : list string → Path → dict → FS → Z * FS.





End Strip.

(** ** The [--clean] loop of [main] *)

Definition DIST_DIR : Path := Path_of "dist".

(** The body of the loop. *)
Definition clean_path (path : Path) : M store unit :=
  st ← get;
  if is_dir (files st) path && negb (is_symlink (files st) path)
  then rmtree path
  else unlink path.

(** [for path in chain(BUILD_DIR.iterdir(), DIST_DIR.iterdir()): ...].
    When a directory is listed depends on the version of Python: up to 3.12
    [iterdir] is a generator, which lists its directory when the loop first
    asks it for a path, that is, for [DIST_DIR], after the entries of
    [BUILD_DIR] have been removed; from 3.13 on [iterdir] lists the directory
    when it is called, so both listings are taken before the loop starts.
    [eager] tells which of the two it is. *)
Definition clean_loop (eager : bool) : M store unit :=
  if eager then
    build_entries ← iterdir BUILD_DIR;
    dist_entries ← iterdir DIST_DIR;
    for_each (build_entries ++ dist_entries) clean_path
  else
    build_entries ← iterdir BUILD_DIR;
    for_each build_entries clean_path;;
    dist_entries ← iterdir DIST_DIR;
    for_each dist_entries clean_path.

(** ** [init]: the checks before the build *)

Definition BUILD_CONFIG : Path := Path_of "build.toml".
Definition MODULE_DIR : Path := Path_of "module".
Definition REQUIRED_TOOLS : list string := ["curl"; "patch"].

(** The process as [init] sees it: its environment, what [shutil.which]
    returns for a tool, the working directory, and the filesystem, whose keys
    are absolute paths here. *)
Record process := {
  proc_environ : dict;
  proc_which : string → option string;
  proc_cwd : Path;
  proc_files : FS
}.

(** [os.chdir(d)] *)
Definition chdir (d : Path) : M process unit :=
  modify (λ s, {| proc_environ := proc_environ s; proc_which := proc_which s;
                  proc_cwd := d; proc_files := proc_files s |}).

(** [p.exists()]: a relative path is taken from the working directory, links
    are followed, and a link that leads nowhere does not exist. *)
Definition proc_exists (p : Path) : M process bool :=
  s ← get;
  mret (bool_decide (is_Some (stat (proc_files s) (path_join (proc_cwd s) p)))).

(** [p.mkdir(parents=True)] for a name in the working directory: it fails
    when the name is taken, also when a link that leads nowhere has it. *)
Definition mkdir (p : Path) : M process unit :=
  s ← get;
  let q := path_join (proc_cwd s) p in
  match proc_files s !! q with
  | Some _ => raise (OSError p)
  | None =>
      put {| proc_environ := proc_environ s; proc_which := proc_which s;
             proc_cwd := proc_cwd s; proc_files := <[q := Dir]> (proc_files s) |}
  end.

Section Init.
(** [Path(__file__).resolve().parents[1]] *)
Variable PROJECT_DIR : Path.

Definition _prepare_environment : M process unit :=
  s ← get;
  if bool_decide ("ANDROID_HOME" ∈ dom (proc_environ s)) then
    for_each REQUIRED_TOOLS
      (λ tool,
         s ← get;
         match proc_which s tool with
         | Some (String _ _) => mret tt
         | _ => raise (BuilderError ("Required tool not found in PATH: " +:+ tool))
         end);;
    s ← get;
    if bool_decide (proc_cwd s ≠ PROJECT_DIR) then chdir PROJECT_DIR else mret tt
  else raise (BuilderError "ANDROID_HOME environment variable is not set").

Definition _prepare_project_directory : M process unit :=
  module_found ← proc_exists MODULE_DIR;
  if negb module_found then
    raise (BuilderError ("Module directory not found: " +:+ path_str MODULE_DIR))
  else
    config_found ← proc_exists BUILD_CONFIG;
    if negb config_found then
      raise (BuilderError
               ("Build configuration file not found: " +:+ path_str BUILD_CONFIG))
    else
      for_each [BUILD_DIR; DIST_DIR]
        (λ path,
           found ← proc_exists path;
           if negb found then mkdir path else mret tt).

Definition init : M process unit :=
  _prepare_environment;;
  _prepare_project_directory.

End Init.

(** ** [run] and [CPythonBuilder._build_hosts] *)

Section BuildHosts.
Context {World : Type}.
(** An external command: the command line, the working directory and the
    environment (none: that of the script) give the exit code and the world
    that the command leaves. *)
Variable exec : list string → option Path → option dict → World → Z * World.
(** [p.exists()] *)
Variable exists_in : World → Path → bool.

(** [run] as the build steps call it, with a working directory and, for one
    step, an environment: [check] is left at [True], so that an exit code
    other than zero raises.  Nothing is
    captured: the output and the error stream of the result and of the
    exception are [None], for which the empty string stands here. *)
Definition run (command : list string) (cwd : option Path) (env : option dict)
  : M World CompletedProcess :=
  λ w, let '(rc, w') := exec command cwd env w in
       if (rc =? 0)%Z
       then (Ok {| args := command; returncode := rc; stdout := ""; stderr := "" |}, w')
       else (Raise (CalledProcessError rc command "" ""), w').

Definition _build_hosts (build_hosts configure_args : list string)
    (source_dir : Path) (env : dict) : M World unit :=
  let android := source_dir // "Android" in
  let cross_build := source_dir // "cross-build" in
  w ← get;
  (if negb (exists_in w (cross_build // "build")) then
     run ["./android.py"; "configure-build"] (Some android) None;;
     run ["./android.py"; "make-build"] (Some android) None;;
     mret tt
   else mret tt);;
  for_each build_hosts
    (λ host,
       w ← get;
       if exists_in w (source_dir // "cross-build" // host // "prefix") then mret tt
       else
         run (["./android.py"; "configure-host"; host; "--"] ++ configure_args)
           (Some android) (Some env);;
         run ["./android.py"; "make-host"; host] (Some android) None;;
         mret tt).

End BuildHosts.

(** ** The archive of [ModuleBuilder._package_module] *)

(** A member of the archive is written from a text ([zout.writestr]) or from
    a path of the filesystem ([zout.write]). *)
Inductive member_source :=
| Text (content : string)
| Disk (p : Path).

Record member := { member_name : Path; written_from : member_source }.

Abbreviation archive := (list member).

Definition zip_writestr (name text : string) : M archive unit :=
  modify (λ z : archive, z ++ [{| member_name := [name]; written_from := Text text |}]).

(** [zout.write(p, arcname)] looks the file up through links; a path that
    leads nowhere is an error. *)
Definition zip_write (fs : FS) (p arcname : Path) : M archive unit :=
  match stat fs p with
  | None => raise (OSError p)
  | Some _ =>
      modify (λ z : archive, z ++ [{| member_name := arcname; written_from := Disk p |}])
  end.

(** [entry.is_dir(follow_symlinks=False)] *)
Definition is_dir_nofollow (fs : FS) (p : Path) : bool :=
  match fs !! p with Some Dir => true | _ => false end.

(** One directory as [Path.walk] lists it with [follow_symlinks=False]: the
    names of the directories in it and the names of all other entries, links
    among them.  Nothing when the path is no directory: [walk] passes over
    what it cannot list. *)
Definition scan (fs : FS) (d : Path) : option (list string * list string) :=
  match fs !! d with
  | Some Dir =>
      let names :=
        omap last (filter (λ p, length p = S (length d) ∧ d `prefix_of` p)
                     (map_to_list fs).*1) in
      Some (filter (λ n, is_dir_nofollow fs (d ++ [n]) = true) names,
            filter (λ n, is_dir_nofollow fs (d ++ [n]) = false) names)
  | _ => None
  end.

(** [d.walk()], top down: a directory comes before the directories in it,
    which follow in the order of their names in the listing.  [depth] bounds
    the nesting. *)
Fixpoint walk (depth : nat) (fs : FS) (d : Path)
  : list (Path * list string * list string) :=
  match depth with
  | O => []
  | S depth' =>
      match scan fs d with
      | None => []
      | Some (dirnames, filenames) =>
          (d, dirnames, filenames) :: (dirnames ≫= λ n, walk depth' fs (d ++ [n]))
      end
  end.

(** No path of the filesystem is longer than this. *)
Definition max_depth (fs : FS) : nat := max_list (length <$> (map_to_list fs).*1).

Definition path_walk (fs : FS) (d : Path) : list (Path * list string * list string) :=
  walk (S (max_depth fs - length d)) fs d.

(** The body of the loop over the entries that go into the archive.  The
    filesystem is the one the archive is made from; the archive itself is
    not among the entries. *)
Definition add_entry (fs : FS) (entry : Path) : M archive unit :=
  if is_file fs entry then zip_write fs entry [path_name entry]
  else
    for_each (path_walk fs entry)
      (λ '(dirpath, _, filenames),
         for_each filenames
           (λ filename,
              let filepath := dirpath ++ [filename] in
              if decide (path_name filepath ≠ "module.prop") then
                match relative_to entry filepath with
                | Some arcname => zip_write fs filepath arcname
                | None => raise (ValueError filepath)
                end
              else mret tt)).

(** The [with] block of [_package_module]; [module_prop] is the text of
    [module/module.prop]. *)
Definition write_archive (fs : FS) (module_prop cpython_version : string)
    (tarballs include : list Path) : M archive unit :=
  zip_writestr "module.prop" (packaged_module_prop module_prop cpython_version);;
  for_each (MODULE_DIR :: tarballs ++ include) (add_entry fs).

(** * Properties *)

(** ** The monad *)

(** Runs the monadic plumbing of a goal. *)
Ltac monad_run :=
  repeat (progress (unfold mbind, M_bind, bind, mret, M_ret, ret, raise, get, put, modify;
                    simpl)).

Lemma bind_ok {S A B} (m : M S A) (k : A → M S B) s a s' :
  m s = (Ok a, s') → (m ≫= k) s = k a s'.
Proof. unfold mbind, M_bind, bind. by intros ->. Qed.

Lemma bind_raise {S A B} (m : M S A) (k : A → M S B) s e s' :
  m s = (Raise e, s') → (m ≫= k) s = (Raise e, s').
Proof. unfold mbind, M_bind, bind. by intros ->. Qed.

Lemma for_each_app {S A} (xs ys : list A) (body : A → M S unit) s :
  for_each (xs ++ ys) body s =
  match for_each xs body s with
  | (Ok _, s') => for_each ys body s'
  | (Raise e, s') => (Raise e, s')
  end.
Proof.
  revert s. induction xs as [|x xs IH]; intros s; simpl; [done|].
  unfold mbind, M_bind, bind. destruct (body x s) as [[[]|e] s']; [apply IH|done].
Qed.

(** ** Compression *)

Lemma arch_mapping_dom host :
  arch_mapping !! host = None ↔
  host ∉ ["aarch64-linux-android"; "arm-linux-androideabi";
          "armv7a-linux-androideabi"; "i686-linux-android"; "x86_64-linux-android"].
Proof.
  unfold arch_mapping; simpl. rewrite !lookup_insert_None, !not_elem_of_cons.
  split.
  - intros (((((_ & ?) & ?) & ?) & ?) & ?).
    repeat split; try congruence; try apply not_elem_of_nil.
  - intros (? & ? & ? & ? & ? & _).
    repeat split; try congruence; try apply lookup_empty.
Qed.

Lemma arch_mapping_values host arch :
  arch_mapping !! host = Some arch → arch ∈ ["arm64"; "arm"; "x86"; "x64"].
Proof.
  unfold arch_mapping. intros H%elem_of_list_to_map_2.
  rewrite !elem_of_cons, elem_of_nil in H.
  destruct H as [H|[H|[H|[H|[H|[]]]]]]; injection H as _ ->;
    rewrite !elem_of_cons; auto 6.
Qed.

Lemma tarball_path_parts arch :
  arch ∈ ["arm64"; "arm"; "x86"; "x64"] →
  BUILD_DIR // compressed_name arch = ["build"; "cpython-" +:+ arch +:+ ".tar.xz"].
Proof.
  rewrite !elem_of_cons, elem_of_nil.
  intros [->|[->|[->|[->|[]]]]]; reflexivity.
Qed.

(** C6: an unmapped host triplet makes [_compress] raise (the [KeyError] of
    the failed table lookup) before anything is written, so the tarballs on
    disk are what they were; a mapped one returns normally and writes exactly
    one tarball, [build/cpython-<arch>.tar.xz] for the mapped architecture.
    The mapped triplets are exactly the five of the table. *)
Theorem compress_by_arch_mapping {Tree} (prefix : Path) (tree : Tree) (host : string)
    (d : gmap Path (tarball Tree)) :
  (arch_mapping !! host = None ↔
   host ∉ ["aarch64-linux-android"; "arm-linux-androideabi";
           "armv7a-linux-androideabi"; "i686-linux-android"; "x86_64-linux-android"])
  ∧ match arch_mapping !! host with
    | None => _compress prefix tree host d = (Raise (KeyError host), d)
    | Some arch =>
        let p := ["build"; "cpython-" +:+ arch +:+ ".tar.xz"] in
        ∃ d', _compress prefix tree host d = (Ok p, d')
              ∧ d' !! p = Some (Tarball (path_name prefix) tree)
              ∧ ∀ q, q ≠ p → d' !! q = d !! q
    end.
Proof.
  split; [apply arch_mapping_dom|].
  unfold _compress. destruct (arch_mapping !! host) as [arch|] eqn:E; [|done].
  simpl. rewrite (tarball_path_parts arch) by eauto using arch_mapping_values.
  eexists. split; [reflexivity|]. split.
  - apply lookup_insert_eq.
  - intros q Hq. by apply lookup_insert_ne.
Qed.

Lemma prefix_name (source_code : Path) (host : string) :
  path_name (source_code // "cross-build" // host // "prefix") = "prefix".
Proof.
  unfold path_div at 1. change (Path_of "prefix") with ["prefix"].
  unfold path_join, path_name. by rewrite last_snoc.
Qed.

(** C10: the table sends the two distinct triplets arm-linux-androideabi and
    armv7a-linux-androideabi to the same architecture [arm], [_compress]
    computes the same tarball path for both, and a build configured with
    both hosts ends with one tarball at that path, holding the prefix of the
    second host: the tarball of the first has been overwritten. *)
Theorem arm_hosts_share_tarball {Tree} (source_code : Path) (staged : string → Tree)
    (d : gmap Path (tarball Tree)) :
  let h1 := "arm-linux-androideabi" in
  let h2 := "armv7a-linux-androideabi" in
  let p := ["build"; "cpython-arm.tar.xz"] in
  h1 ≠ h2
  ∧ arch_mapping !! h1 = Some "arm" ∧ arch_mapping !! h2 = Some "arm"
  ∧ (∀ prefix1 prefix2 t1 t2 (d1 d2 : gmap Path (tarball Tree)),
       (_compress prefix1 t1 h1 d1).1 = Ok p ∧ (_compress prefix2 t2 h2 d2).1 = Ok p)
  ∧ build_hosts_loop source_code staged [h1; h2] [] d
    = (Ok [p; p], <[p := Tarball "prefix" (staged h2)]> d).
Proof.
  intros h1 h2 p. repeat split; [done|].
  unfold build_hosts_loop, _compress.
  change (arch_mapping !! h1) with (Some "arm").
  change (arch_mapping !! h2) with (Some "arm").
  change (BUILD_DIR // compressed_name "arm") with p.
  rewrite !prefix_name.
  unfold mbind, M_bind, bind, tarfile_write, modify, mret, M_ret, ret. simpl.
  by rewrite insert_insert_eq.
Qed.

(** ** The build environment *)

Lemma split_on_nonempty (c : ascii) (s : string) : split_on c s ≠ [].
Proof.
  destruct s as [|a s]; simpl; [done|].
  destruct (Ascii.eqb a c); [done|]. by destruct (split_on c s).
Qed.

(** The entries of a path list. *)
Lemma split_on_app (c : ascii) (s1 s2 : string) :
  split_on c (s1 +:+ String c s2) = split_on c s1 ++ split_on c s2.
Proof.
  induction s1 as [|a s1 IH]; simpl.
  - by rewrite Ascii.eqb_refl.
  - destruct (Ascii.eqb a c); rewrite IH; [reflexivity|].
    pose proof (split_on_nonempty c s1). by destruct (split_on c s1).
Qed.

(** [v] put in front of the old value of a path-list variable. *)
Definition prepend_entry (pathsep : ascii) (v : string) (old : option string) : string :=
  match old with
  | None => v
  | Some old => v +:+ String pathsep old
  end.

Lemma update_env_path_spec pathsep (h : heap) (env : positive) (d : dict)
    (key : string) (value : Path) :
  h !! env = Some d →
  update_env_path pathsep env key [value] h
  = (Ok tt, <[env := <[key := prepend_entry pathsep (path_str value) (d !! key)]> d]> h).
Proof.
  intros Hd. unfold update_env_path, dict_get, dict_setitem, modify.
  unfold mbind, M_bind, bind. rewrite Hd. simpl.
  assert (∀ v : string, alter (λ d0 : dict, <[key:=v]> d0) env h = <[env := <[key:=v]> d]> h)
    as Halter.
  { intros v. apply map_eq. intros l. rewrite lookup_alter, lookup_insert.
    destruct (decide (env = l)) as [<-|]; [by rewrite Hd|done]. }
  destruct (d !! key) as [old|]; simpl; rewrite Halter; [|done].
  by replace (path_str value +:+ String pathsep old)
    with (path_str value +:+ String pathsep "" +:+ old).
Qed.

(** C9: [_create_env] returns a fresh dict whose items are those of the
    process environment overlaid with the configured overrides, except that
    PATH and LIBRARY_PATH hold the toolchain's [bin] and [lib] directory put
    in front of the value they had in that overlay (alone when the variable
    was absent); the entries of the old value follow in their order; and no
    dict that existed before, [os.environ] among them, is changed. *)
Theorem create_env_overlay (pathsep : ascii) (h : heap) (base configure_env : dict)
    (toolchain : Path) :
  h !! os_environ = Some base →
  let overlay := configure_env ∪ base in
  let bin := path_str (toolchain // "bin") in
  let lib := path_str (toolchain // "lib") in
  let new_env :=
    <["LIBRARY_PATH" := prepend_entry pathsep lib (overlay !! "LIBRARY_PATH")]>
      (<["PATH" := prepend_entry pathsep bin (overlay !! "PATH")]> overlay) in
  ∃ env h',
    _create_env pathsep configure_env toolchain h = (Ok env, h')
    ∧ h !! env = None
    ∧ h' !! env = Some new_env
    ∧ (∀ l d, h !! l = Some d → h' !! l = Some d)
    ∧ h' !! os_environ = Some base
    ∧ (∀ old, overlay !! "PATH" = Some old →
         split_on pathsep (new_env !!! "PATH")
         = split_on pathsep bin ++ split_on pathsep old)
    ∧ (∀ old, overlay !! "LIBRARY_PATH" = Some old →
         split_on pathsep (new_env !!! "LIBRARY_PATH")
         = split_on pathsep lib ++ split_on pathsep old).
Proof.
  intros Hbase overlay bin lib new_env.
  set (env := fresh (dom h)).
  assert (h !! env = None) as Hfresh by apply not_elem_of_dom, is_fresh.
  exists env, (<[env := new_env]> h).
  assert (_create_env pathsep configure_env toolchain h = (Ok env, <[env := new_env]> h))
    as Hrun.
  { unfold _create_env.
    erewrite bind_ok; [|reflexivity]. fold env. rewrite Hbase. simpl.
    erewrite bind_ok; [|reflexivity].
    rewrite alter_insert_eq. fold overlay.
    erewrite bind_ok; [|by apply update_env_path_spec, lookup_insert_eq].
    rewrite insert_insert_eq.
    erewrite bind_ok; [|by apply update_env_path_spec, lookup_insert_eq].
    rewrite insert_insert_eq.
    rewrite lookup_insert_ne by done. reflexivity. }
  assert (∀ l d, h !! l = Some d → <[env := new_env]> h !! l = Some d) as Hold.
  { intros l d Hl. rewrite lookup_insert_ne; [done|]. intros <-. congruence. }
  repeat split; [done|done|apply lookup_insert_eq|done|by apply Hold|..].
  - intros old Hold'. unfold new_env.
    rewrite lookup_total_insert_ne by done. rewrite lookup_total_insert_eq.
    rewrite Hold'. apply split_on_app.
  - intros old Hold'. unfold new_env. rewrite lookup_total_insert_eq.
    rewrite Hold'. apply split_on_app.
Qed.

(** An environment with a PATH and an override of CC, and a toolchain. *)
Lemma create_env_overlay_witness :
  let base : dict := {[ "PATH" := "/usr/bin:/bin" ]} in
  let h : heap := {[ os_environ := base ]} in
  ∃ env h',
    _create_env ":" {[ "CC" := "clang" ]} ["/"; "ndk"] h = (Ok env, h')
    ∧ h' !! env
      = Some (<["LIBRARY_PATH" := "/ndk/lib"]>
                (<["PATH" := "/ndk/bin:/usr/bin:/bin"]>
                   ({[ "CC" := "clang" ]} ∪ base)))
    ∧ h' !! os_environ = Some base.
Proof.
  intros base h.
  destruct (create_env_overlay ":" h base {[ "CC" := "clang" ]} ["/"; "ndk"])
    as (env & h' & Hrun & _ & Henv & _ & Hbase & _).
  { apply lookup_singleton_eq. }
  exists env, h'. repeat split; [exact Hrun| |exact Hbase].
  rewrite Henv. reflexivity.
Defined.

(** ** Patches *)

Section PatchesFacts.
Context {World : Type}.
Variable exec : list string → Path → World → (Z * string * string) * World.
Variable is_file : World → Path → bool.
Variable glob_patches : World → list Path.
Variable stdout_write : string → World → World.

Lemma apply_patch_not_a_file source_dir patch w :
  is_file w patch = false →
  apply_patch exec is_file stdout_write source_dir patch w = (Ok tt, w).
Proof. intros H. unfold apply_patch, mbind, M_bind, bind. simpl. by rewrite H. Qed.

Lemma apply_patch_run source_dir patch w rc out err w' :
  is_file w patch = true →
  exec (patch_command patch) source_dir w = ((rc, out, err), w') →
  apply_patch exec is_file stdout_write source_dir patch w
  = (if (rc =? 0)%Z then Ok tt
     else if contains patch_marker out then Ok tt
     else Raise (CalledProcessError rc (patch_command patch) out err),
     stdout_write out w').
Proof.
  intros Hf He. unfold apply_patch, run_unchecked, mbind, M_bind, bind. simpl.
  rewrite Hf, He. simpl.
  destruct (rc =? 0)%Z; [done|]. by destruct (contains patch_marker out).
Qed.

(** C7: let the patches before [patch] have gone through.  If the tool
    exits 0 on [patch], or exits non-zero with the "Reversed (or previously
    applied) patch detected!" line in its output, [_apply_patches] goes on
    with the patches after it; on any other exit it raises
    [CalledProcessError] with the exit code, the command and the captured
    output, and the world is the one the failed run left (its output
    written out): no later patch has been run. *)
Theorem apply_patches_until_failure (source_dir : Path) (earlier : list Path)
    (patch : Path) (later : list Path) (w w1 w2 : World) (rc : Z) (out err : string) :
  glob_patches w = earlier ++ patch :: later →
  for_each earlier (apply_patch exec is_file stdout_write source_dir) w = (Ok tt, w1) →
  is_file w1 patch = true →
  exec (patch_command patch) source_dir w1 = ((rc, out, err), w2) →
  let w3 := stdout_write out w2 in
  let outcome := _apply_patches exec is_file glob_patches stdout_write source_dir w in
  (rc = 0%Z ∨ contains patch_marker out = true →
     outcome = for_each later (apply_patch exec is_file stdout_write source_dir) w3)
  ∧ (rc ≠ 0%Z → contains patch_marker out = false →
     outcome = (Raise (CalledProcessError rc (patch_command patch) out err), w3)).
Proof.
  intros Hglob Hearlier Hfile Hexec w3 outcome.
  assert (outcome =
          match apply_patch exec is_file stdout_write source_dir patch w1 with
          | (Ok _, s') => for_each later (apply_patch exec is_file stdout_write source_dir) s'
          | (Raise e, s') => (Raise e, s')
          end) as ->.
  { unfold outcome, _apply_patches, mbind, M_bind, bind. simpl.
    rewrite Hglob, for_each_app, Hearlier. simpl.
    unfold mbind, M_bind, bind.
    by destruct (apply_patch _ _ _ _ _ _) as [[[]|?] ?]. }
  rewrite (apply_patch_run _ _ _ _ _ _ _ Hfile Hexec). fold w3. split.
  - intros [->|Hm]; [done|]. rewrite Hm. by destruct (rc =? 0)%Z.
  - intros Hrc Hm. rewrite Hm. by destruct (Z.eqb_spec rc 0).
Qed.

End PatchesFacts.

(** A toy world: the journal of the patch files handed to the tool.  The
    first patch is reported as already applied, the second fails, and every
    other one applies. *)
Definition toy_exec (cmd : list string) (_ : Path) (journal : list string)
  : (Z * string * string) * list string :=
  let file := default "" (last cmd) in
  (if decide (file = "../../patches/1.patch")
   then (1%Z, "Reversed (or previously applied) patch detected!  Skipping patch.", "")
   else if decide (file = "../../patches/2.patch")
   then (1%Z, "1 out of 1 hunk FAILED", "")
   else (0%Z, "", ""),
   journal ++ [file]).

Definition toy_patches : list Path :=
  [PATCHES_DIR // "1.patch"; PATCHES_DIR // "2.patch"; PATCHES_DIR // "3.patch"].

Lemma apply_patches_until_failure_witness :
  _apply_patches toy_exec (λ _ _, true) (λ _, toy_patches) (λ _ w, w) ["build"; "cpython"] []
  = (Raise (CalledProcessError 1 (patch_command (PATCHES_DIR // "2.patch"))
              "1 out of 1 hunk FAILED" ""),
     ["../../patches/1.patch"; "../../patches/2.patch"]).
Proof.
  refine (proj2 (apply_patches_until_failure toy_exec (λ _ _, true) (λ _, toy_patches)
                   (λ _ w, w) ["build"; "cpython"]
                   [PATCHES_DIR // "1.patch"] (PATCHES_DIR // "2.patch")
                   [PATCHES_DIR // "3.patch"]
                   [] ["../../patches/1.patch"]
                   ["../../patches/1.patch"; "../../patches/2.patch"]
                   1 "1 out of 1 hunk FAILED" "" _ _ _ _) _ _);
    solve [reflexivity | discriminate].
Defined.

(** ** Locating the toolchain *)

Lemma drop_prefix_Some (p s r : string) : drop_prefix p s = Some r ↔ s = p +:+ r.
Proof.
  revert s. induction p as [|a p IH]; intros s; simpl.
  - split; [by intros [= ->]|by intros ->].
  - destruct s as [|c s]; [split; discriminate|].
    destruct (Ascii.eqb_spec a c) as [->|Hne].
    + rewrite IH. split; [by intros ->|by intros [= ->]].
    + split; [discriminate|]. by intros [= ? ?].
Qed.

(** A line matches [^ndk_version=(.+)$] when it is [ndk_version=] followed by
    one character at least; group 1 is what follows. *)
Lemma match_ndk_line_Some (line v : string) :
  match_ndk_line line = Some v ↔ line = "ndk_version=" +:+ v ∧ v ≠ "".
Proof.
  unfold match_ndk_line.
  destruct (drop_prefix "ndk_version=" line) as [r|] eqn:E.
  - apply drop_prefix_Some in E. subst line. destruct r as [|a r].
    + split; [discriminate|]. intros [H%(inj _) ?]. congruence.
    + split.
      * by intros [= <-].
      * by intros [<-%(inj _) _].
  - split; [discriminate|]. intros [H _].
    apply drop_prefix_Some in H. congruence.
Qed.

(** The search fails exactly when no line of the script matches. *)
Lemma search_ndk_version_None (content : string) :
  search_ndk_version content = None ↔
  ∀ line, line ∈ split_on nl content → match_ndk_line line = None.
Proof.
  unfold search_ndk_version.
  destruct (list_find _ _) as [[i l]|] eqn:E; simpl.
  - apply list_find_Some in E as (Hi & [v Hv] & _).
    rewrite Hv. split; [discriminate|]. intros H.
    rewrite H in Hv; [done|]. by eapply list_elem_of_lookup_2.
  - split; [|done]. intros _ line Hin.
    eapply list_find_None, Forall_forall in E; [|exact Hin].
    destruct (match_ndk_line line); [|done]. by destruct E.
Qed.

(** The version read from the build-environment script of a source tree. *)
Definition ndk_version_of (w : world) (source_dir : Path) : option string :=
  file_text w (source_dir // "Android" // "android-env.sh")
    ≫= (λ raw, search_ndk_version (universal_newlines raw)).

Definition prebuilt_dir (home version : string) : Path :=
  Path_of home // "ndk" // version // "toolchains/llvm/prebuilt".

(** The function as one case analysis on what it observes. *)
Lemma find_ndk_toolchain_cases (w : world) (source_dir : Path) :
  let android_env := source_dir // "Android" // "android-env.sh" in
  _find_ndk_toolchain source_dir w =
  (match ndk_version_of w source_dir with
   | None =>
       match file_text w android_env with
       | None => Raise (OSError android_env)
       | Some _ =>
           Raise (BuilderError
                    ("Failed to parse NDK version from file: " +:+ path_str android_env))
       end
   | Some v =>
       match environ w !! "ANDROID_HOME" with
       | None => Raise (KeyError "ANDROID_HOME")
       | Some home =>
           match listdir w (prebuilt_dir home v) with
           | None => Raise (OSError (prebuilt_dir home v))
           | Some [] =>
               Raise (BuilderError
                        ("NDK toolchain not found in " +:+ path_str (prebuilt_dir home v)))
           | Some (name :: _) => Ok (prebuilt_dir home v ++ [name])
           end
       end
   end, w).
Proof.
  intros android_env.
  unfold ndk_version_of, _find_ndk_toolchain, prebuilt_dir. fold android_env.
  unfold open_text, getenv_item, first_entry. monad_run.
  destruct (file_text w android_env) as [raw|]; monad_run; [|done].
  destruct (search_ndk_version (universal_newlines raw)) as [v|]; monad_run; [|done].
  destruct (environ w !! "ANDROID_HOME") as [home|]; monad_run; [|done].
  by destruct (listdir w _) as [[|name names]|].
Qed.

(** C8: with ANDROID_HOME set, [_find_ndk_toolchain] raises if and only if
    the script yields no toolchain version (no line matches
    [ndk_version=...]) or the toolchain directory derived from the version
    has no entry to offer; otherwise it returns the first entry of that
    directory.  When the version is missing the outcome is the same in every
    world with the same script, whatever its environment and directories:
    the failure comes before any lookup.  The function changes nothing. *)
Theorem find_ndk_toolchain_outcome (w : world) (source_dir : Path) (home : string) :
  environ w !! "ANDROID_HOME" = Some home →
  let outcome := (_find_ndk_toolchain source_dir w).1 in
  (is_error outcome = true ↔
     ndk_version_of w source_dir = None
     ∨ ∃ v, ndk_version_of w source_dir = Some v
            ∧ default [] (listdir w (prebuilt_dir home v)) = [])
  ∧ (∀ v name names,
       ndk_version_of w source_dir = Some v →
       listdir w (prebuilt_dir home v) = Some (name :: names) →
       outcome = Ok (prebuilt_dir home v ++ [name]))
  ∧ (ndk_version_of w source_dir = None →
     ∀ w', file_text w' (source_dir // "Android" // "android-env.sh")
           = file_text w (source_dir // "Android" // "android-env.sh") →
           (_find_ndk_toolchain source_dir w').1 = outcome)
  ∧ (_find_ndk_toolchain source_dir w).2 = w.
Proof.
  intros Hhome outcome. unfold outcome. rewrite find_ndk_toolchain_cases, Hhome. simpl.
  split; [|split; [|split; [|done]]].
  - destruct (ndk_version_of w source_dir) as [v|] eqn:Hv.
    + destruct (listdir w (prebuilt_dir home v)) as [[|name names]|] eqn:Hls; simpl.
      * split; [|done]. intros _. right. exists v. by rewrite Hls.
      * split; [done|]. intros [|(v' & [= <-] & H)]; [done|]. by rewrite Hls in H.
      * split; [|done]. intros _. right. exists v. by rewrite Hls.
    + split; [by left|]. intros _. by destruct (file_text w _).
  - intros v name names -> ->. done.
  - intros Hv w' Hread. rewrite find_ndk_toolchain_cases.
    assert (ndk_version_of w' source_dir = None) as ->.
    { unfold ndk_version_of in *. by rewrite Hread. }
    by rewrite Hv, Hread.
Qed.

(** A source tree whose script names version 27.1.12297006, with one
    toolchain installed under /sdk. *)
Definition toy_world : world := {|
  file_text p :=
    if decide (p = ["cpython"; "Android"; "android-env.sh"])
    then Some ("# tools" +:+ String nl ("ndk_version=27.1.12297006" +:+ String nl ""))
    else None;
  listdir p :=
    if decide (p = ["/"; "sdk"; "ndk"; "27.1.12297006"; "toolchains"; "llvm"; "prebuilt"])
    then Some ["linux-x86_64"]
    else None;
  environ := {[ "ANDROID_HOME" := "/sdk" ]}
|}.

Lemma find_ndk_toolchain_outcome_witness :
  (_find_ndk_toolchain ["cpython"] toy_world).1
  = Ok ["/"; "sdk"; "ndk"; "27.1.12297006"; "toolchains"; "llvm"; "prebuilt"; "linux-x86_64"].
Proof.
  refine (proj1 (proj2 (find_ndk_toolchain_outcome toy_world ["cpython"] "/sdk" _))
            "27.1.12297006" "linux-x86_64" [] _ _); reflexivity.
Defined.

(** ** The properties file *)

Lemma str_app_cons a s t : String a s +:+ t = String a (s +:+ t).
Proof. reflexivity. Qed.

Lemma str_app_assoc (s t u : string) : (s +:+ t) +:+ u = s +:+ (t +:+ u).
Proof. induction s as [|a s IH]; [done|]. by rewrite !str_app_cons, IH. Qed.

Lemma str_app_nil_r (s : string) : s +:+ "" = s.
Proof. induction s as [|a s IH]; [done|]. by rewrite str_app_cons, IH. Qed.

(** [c in s] for a character *)
Fixpoint has_char (c : ascii) (s : string) : bool :=
  match s with
  | "" => false
  | String a s' => Ascii.eqb a c || has_char c s'
  end.

Lemma has_char_app c s t : has_char c (s +:+ t) = has_char c s || has_char c t.
Proof.
  induction s as [|a s IH]; [done|].
  rewrite str_app_cons. simpl. by rewrite IH, orb_assoc.
Qed.

Lemma universal_newlines_id (s : string) :
  has_char cr s = false → universal_newlines s = s.
Proof.
  induction s as [|a s IH]; [done|]. simpl.
  intros [Ha Hs]%orb_false_iff. rewrite Ha. by rewrite IH.
Qed.

Lemma readlines_line (l rest : string) :
  has_char nl l = false →
  readlines (l +:+ String nl rest) = (l +:+ String nl "") :: readlines rest.
Proof.
  induction l as [|a l IH]; [done|].
  rewrite !str_app_cons. simpl. intros [Ha Hl]%orb_false_iff.
  rewrite Ha. by rewrite IH.
Qed.

Lemma lstrip_length (s : string) :
  (String.length (lstrip s) <= String.length s)%nat.
Proof.
  induction s as [|a s IH]; simpl; [done|].
  destruct (is_space a); simpl; lia.
Qed.

Lemma lstrip_fixed_app (s t : string) :
  lstrip s = s → s ≠ "" → lstrip (s +:+ t) = s +:+ t.
Proof.
  destruct s as [|a s]; [done|]. rewrite str_app_cons. simpl.
  destruct (is_space a); [|done].
  intros H _. pose proof (lstrip_length s) as Hlen.
  rewrite H in Hlen. simpl in Hlen. lia.
Qed.

Lemma str_app_empty (s t : string) : s +:+ t = "" → t = "".
Proof. destruct s; [done|]. by rewrite str_app_cons. Qed.

Lemma rstrip_fixed_app (s t : string) :
  rstrip t = t → t ≠ "" → rstrip (s +:+ t) = s +:+ t.
Proof.
  intros Ht Hne. induction s as [|a s IH]; [done|].
  rewrite str_app_cons. simpl. rewrite IH.
  destruct (s +:+ t) eqn:E; [|done]. by apply str_app_empty in E.
Qed.

Lemma rstrip_space_end (s : string) (a : ascii) :
  is_space a = true → rstrip (s +:+ String a "") = rstrip s.
Proof.
  intros Ha. induction s as [|c s IH]; simpl.
  - change ("" +:+ String a "") with (String a ""). simpl. by rewrite Ha.
  - by rewrite IH.
Qed.

Lemma str_partition_at (sep : ascii) (k v : string) :
  has_char sep k = false →
  str_partition sep (k +:+ String sep v) = (k, String sep "", v).
Proof.
  induction k as [|a k IH].
  - intros _. change ("" +:+ String sep v) with (String sep v).
    simpl. by rewrite Ascii.eqb_refl.
  - rewrite str_app_cons. simpl. intros [Ha Hk]%orb_false_iff.
    rewrite Ha. by rewrite IH.
Qed.

Lemma odict_set_fresh (k v : string) (d : list (string * string)) :
  k ∉ d.*1 → odict_set k v d = d ++ [(k, v)].
Proof.
  induction d as [|[k' v'] d IH]; [done|]. simpl.
  rewrite not_elem_of_cons. intros [Hne Hd].
  destruct (decide (k = k')); [done|]. by rewrite IH.
Qed.

Lemma startswith_char (c a : ascii) (s : string) :
  startswith (String c "") (String a s) = Ascii.eqb c a.
Proof. unfold startswith. cbn [drop_prefix]. by destruct (Ascii.eqb c a). Qed.

(** One line of a properties file. *)
Definition prop_line (kv : string * string) : string :=
  kv.1 +:+ "=" +:+ kv.2 +:+ String nl "".

Lemma format_module_prop_lines (props : list (string * string)) :
  format_module_prop props = foldr (λ kv s, prop_line kv +:+ s) "" props.
Proof.
  unfold format_module_prop.
  assert (∀ buf, foldl (λ buf '(k, v), buf +:+ (k +:+ "=" +:+ v +:+ String nl "")) buf props
                 = buf +:+ foldr (λ kv s, prop_line kv +:+ s) "" props) as H.
  { induction props as [|[k v] props IH]; intros buf; simpl.
    - by rewrite str_app_nil_r.
    - by rewrite IH, str_app_assoc. }
  apply (H "").
Qed.

(** An item that a properties file can hold as the line [key=value]: no
    newline in it, no [=] in the key, no comment mark in front, and no
    whitespace around the line. *)
Definition plain_item (kv : string * string) : bool :=
  negb (has_char "=" kv.1)
  && negb (has_char nl kv.1) && negb (has_char cr kv.1)
  && negb (has_char nl kv.2) && negb (has_char cr kv.2)
  && negb (startswith "#" kv.1)
  && String.eqb (lstrip kv.1) kv.1
  && String.eqb (rstrip kv.2) kv.2.

Lemma plain_item_line (k v : string) :
  plain_item (k, v) = true →
  has_char nl (k +:+ "=" +:+ v) = false
  ∧ has_char cr (prop_line (k, v)) = false
  ∧ strip (k +:+ "=" +:+ v +:+ String nl "") = k +:+ "=" +:+ v
  ∧ startswith "#" (k +:+ "=" +:+ v) = false
  ∧ str_partition "=" (k +:+ "=" +:+ v) = (k, "=", v).
Proof.
  unfold plain_item. simpl.
  rewrite !andb_true_iff, !negb_true_iff, !String.eqb_eq.
  intros (((((((Heq & Hnk) & Hck) & Hnv) & Hcv) & Hhash) & Hl) & Hr).
  assert (rstrip ("=" +:+ v) = "=" +:+ v) as Hr'.
  { change ("=" +:+ v) with (String "=" v). simpl. rewrite Hr. by destruct v. }
  repeat split.
  - rewrite !has_char_app, Hnk, Hnv. done.
  - unfold prop_line. simpl. rewrite !has_char_app, Hck, Hcv. done.
  - unfold strip.
    assert (lstrip (k +:+ "=" +:+ v +:+ String nl "") = k +:+ "=" +:+ v +:+ String nl "")
      as ->.
    { destruct k as [|a k]; [done|]. by apply lstrip_fixed_app. }
    rewrite <- !str_app_assoc. rewrite rstrip_space_end by done.
    rewrite str_app_assoc. by apply rstrip_fixed_app.
  - destruct k as [|a k]; [done|]. rewrite str_app_cons.
    by rewrite startswith_char in *.
  - by apply str_partition_at.
Qed.

Lemma parse_lines_plain (props acc : list (string * string)) :
  Forall (λ kv, plain_item kv = true) props →
  NoDup (acc.*1 ++ props.*1) →
  foldl (λ props line,
           let new_line := strip line in
           if startswith "#" new_line then props
           else let '(key, _, value) := str_partition "=" new_line in
                odict_set key value props)
        acc (prop_line <$> props)
  = acc ++ props.
Proof.
  revert acc. induction props as [|[k v] props IH]; intros acc Hplain Hnd; simpl.
  - by rewrite app_nil_r.
  - apply Forall_cons in Hplain as [Hkv Hplain].
    destruct (plain_item_line k v Hkv) as (_ & _ & Hstrip & Hhash & Hpart).
    unfold prop_line at 1 2 3. simpl. rewrite Hstrip, Hhash, Hpart.
    rewrite odict_set_fresh.
    2:{ apply NoDup_app in Hnd as (_ & Hnd & _). intros Hin.
        apply (Hnd k Hin). simpl. left. }
    rewrite IH; [by rewrite <- app_assoc| done |].
    rewrite fmap_app. simpl. by rewrite <- app_assoc.
Qed.

Lemma readlines_format (props : list (string * string)) :
  Forall (λ kv, plain_item kv = true) props →
  has_char cr (format_module_prop props) = false
  ∧ readlines (format_module_prop props) = prop_line <$> props.
Proof.
  rewrite format_module_prop_lines.
  induction 1 as [|[k v] props Hkv _ [IHc IHl]]; simpl; [done|].
  destruct (plain_item_line k v Hkv) as (Hnl & Hcr & _).
  split.
  - by rewrite has_char_app, Hcr, IHc.
  - unfold prop_line at 1. simpl.
    replace ((k +:+ "=" +:+ v +:+ String nl "") +:+ foldr (λ kv s, prop_line kv +:+ s) "" props)
      with ((k +:+ "=" +:+ v) +:+ String nl (foldr (λ kv s, prop_line kv +:+ s) "" props)).
    2:{ by rewrite !str_app_assoc. }
    rewrite readlines_line by done. rewrite IHl. f_equal.
    unfold prop_line. simpl. by rewrite !str_app_assoc.
Qed.

(** The claim of C3 fails on a file with a comment line: the comment is
    dropped on the way. *)
Lemma module_prop_roundtrip_counterexample :
  let content := "# metadata" +:+ String nl ("id=py2droid" +:+ String nl "") in
  format_module_prop (parse_module_prop content) = "id=py2droid" +:+ String nl ""
  ∧ format_module_prop (parse_module_prop content) ≠ content.
Proof. split; [reflexivity|discriminate]. Qed.

(** C3, amended: a properties file made of [key=value] lines only, each
    ended by a newline, with distinct keys and nothing to strip, is parsed
    into its items in the order of the lines, whatever the keys are, and
    written back byte for byte. *)
Theorem module_prop_roundtrip_plain (props : list (string * string)) :
  Forall (λ kv, plain_item kv = true) props →
  NoDup props.*1 →
  let content := format_module_prop props in
  parse_module_prop content = props
  ∧ format_module_prop (parse_module_prop content) = content.
Proof.
  intros Hplain Hnd content.
  assert (parse_module_prop content = props) as Hparse.
  { unfold parse_module_prop, content.
    destruct (readlines_format props Hplain) as [Hcr Hlines].
    rewrite universal_newlines_id by done. rewrite Hlines.
    by rewrite parse_lines_plain. }
  by rewrite Hparse.
Qed.

Lemma module_prop_roundtrip_plain_witness :
  let props := [("id", "py2droid"); ("name", "Py2Droid"); ("updateJson", "https://x/y?a=b")] in
  parse_module_prop (format_module_prop props) = props
  ∧ format_module_prop (parse_module_prop (format_module_prop props))
    = format_module_prop props.
Proof.
  intros props. apply (module_prop_roundtrip_plain props).
  - repeat constructor.
  - apply (bool_decide_unpack (NoDup props.*1)). vm_compute. exact I.
Defined.

(** ** The filesystem *)

(** Like [monad_run], without unfolding anything else. *)
Ltac monad_step :=
  unfold mbind, M_bind, bind, mret, M_ret, ret, raise, get, put, modify;
  cbv beta iota zeta.

Lemma resolve_direct (fuel : nat) (fs : gmap Path node) (p : Path) :
  (∀ t, fs !! p ≠ Some (Symlink t)) → resolve fuel fs p = fs !! p.
Proof.
  intros H. destruct fuel; simpl; destruct (fs !! p) as [[]|] eqn:E; try done;
    by destruct (H target).
Qed.

Lemma is_file_File (fs : gmap Path node) p data :
  fs !! p = Some (File data) → is_file fs p = true ∧ is_symlink fs p = false.
Proof.
  intros H. unfold is_file, is_symlink, stat.
  rewrite resolve_direct; rewrite H; done.
Qed.

Lemma is_file_Dir (fs : gmap Path node) p :
  fs !! p = Some Dir → is_file fs p = false ∧ is_symlink fs p = false.
Proof.
  intros H. unfold is_file, is_symlink, stat.
  rewrite resolve_direct; rewrite H; done.
Qed.

Lemma is_file_None (fs : gmap Path node) p :
  fs !! p = None → is_file fs p = false ∧ is_symlink fs p = false.
Proof.
  intros H. unfold is_file, is_symlink, stat.
  rewrite resolve_direct; rewrite H; done.
Qed.

Lemma is_symlink_Symlink (fs : gmap Path node) p t :
  fs !! p = Some (Symlink t) → is_symlink fs p = true.
Proof. intros H. unfold is_symlink. by rewrite H. Qed.

Lemma open_rb_File (st : store) (p : Path) (data : list byte) :
  files st !! p = Some (File data) → open_rb p st = (Ok data, st).
Proof.
  intros H. unfold open_rb, stat. monad_step.
  rewrite resolve_direct by (rewrite H; done). by rewrite H.
Qed.

Lemma log_relative_files mk prefix p st :
  files (log_relative mk prefix p st).2 = files st.
Proof. unfold log_relative. by destruct (relative_to prefix p). Qed.

(** ** Shebangs *)

Lemma is_binary_true (data : list byte) :
  is_binary data = true ↔ ∃ c, c ∈ data ∧ c ∉ TEXT_CHARS.
Proof.
  unfold is_binary, translate_delete.
  destruct (filter _ data) as [|c l] eqn:E.
  - split; [done|]. intros (c & Hc & Hn).
    assert (c ∈ filter (λ c, c ∉ TEXT_CHARS) data) as Hin by by apply list_elem_of_filter.
    rewrite E in Hin. by apply elem_of_nil in Hin.
  - split; [|done]. intros _. exists c.
    assert (c ∈ filter (λ c, c ∉ TEXT_CHARS) data) as Hin by (rewrite E; left).
    apply list_elem_of_filter in Hin. tauto.
Qed.

(** The bytes of [TEXT_CHARS] by their codes. *)
Lemma TEXT_CHARS_codes (c : byte) :
  c ∈ TEXT_CHARS ↔
  Byte.to_nat c ∈ [7; 8; 9; 10; 12; 13; 27]
  ∨ (32 ≤ Byte.to_nat c ∧ Byte.to_nat c ≠ 127).
Proof.
  assert (bool_decide (c ∈ TEXT_CHARS)
          = bool_decide (Byte.to_nat c ∈ [7; 8; 9; 10; 12; 13; 27]
                         ∨ (32 ≤ Byte.to_nat c ∧ Byte.to_nat c ≠ 127))) as H
    by (destruct c; vm_compute; reflexivity).
  split; intros Hc.
  - eapply bool_decide_eq_true_1. rewrite <- H. by apply bool_decide_eq_true_2.
  - eapply bool_decide_eq_true_1. rewrite H. by apply bool_decide_eq_true_2.
Qed.

(** What [_fix_shebangs] writes to a regular file, if it writes. *)
Definition new_content (data : list byte) : option (list byte) :=
  let '(content, rest) := readline 1024 data in
  if is_binary content then None
  else if re_match shell_shebang_re content then Some (shell_shebang ++ rest)
  else if re_match python_shebang_re content then Some (python_shebang ++ rest)
  else None.

(** One iteration touches the file it is given and nothing else, and only
    regular files that are not links. *)
Lemma fix_shebang_files (prefix q : Path) (st : store) :
  files (fix_shebang prefix q st).2 =
  match files st !! q with
  | Some (File data) =>
      match new_content data with
      | Some data' => <[q := File data']> (files st)
      | None => files st
      end
  | _ => files st
  end.
Proof.
  unfold fix_shebang. monad_step.
  destruct (files st !! q) as [[data| |t]|] eqn:E.
  - destruct (is_file_File _ _ _ E) as [-> ->]. cbv beta iota zeta delta [negb orb].
    rewrite (open_rb_File _ _ _ E). unfold new_content.
    destruct (readline 1024 data) as [content rest].
    destruct (is_binary content); [done|].
    destruct (re_match shell_shebang_re content).
    { unfold write_bytes, modify_files. monad_step. by rewrite log_relative_files. }
    destruct (re_match python_shebang_re content); [|done].
    unfold write_bytes, modify_files. monad_step. by rewrite log_relative_files.
  - by destruct (is_file_Dir _ _ E) as [-> ->].
  - rewrite (is_symlink_Symlink _ _ _ E). by rewrite orb_true_r.
  - by destruct (is_file_None _ _ E) as [-> ->].
Qed.

Lemma fix_shebang_keeps (prefix q p : Path) (st : store) (data : list byte) :
  files st !! p = Some (File data) →
  new_content data = None →
  files (fix_shebang prefix q st).2 !! p = Some (File data).
Proof.
  intros Hp Hnone. rewrite fix_shebang_files.
  destruct (files st !! q) as [[data'| |]|] eqn:E; try done.
  destruct (new_content data') as [d|] eqn:En; [|done].
  rewrite lookup_insert_ne; [done|]. intros ->. congruence.
Qed.

Lemma fix_shebangs_keeps (prefix p : Path) (st : store) (data : list byte) :
  files st !! p = Some (File data) →
  new_content data = None →
  files (_fix_shebangs prefix st).2 !! p = Some (File data).
Proof.
  intros Hp Hnone. unfold _fix_shebangs, iterdir. monad_run.
  destruct (files st !! (prefix // "bin")) as [[]|]; try done. monad_run.
  generalize (filter (λ p0, length p0 = S (length (prefix // "bin"))
                            ∧ prefix // "bin" `prefix_of` p0) (map_to_list (files st)).*1).
  intros paths. revert st Hp. induction paths as [|q paths IH]; intros st Hp; [done|].
  simpl. monad_run.
  pose proof (fix_shebang_keeps prefix q p st data Hp Hnone) as Hq.
  destruct (fix_shebang prefix q st) as [[[]|e] st']; [by apply IH|done].
Qed.

(** The claim of C2 fails on a shell script with a zero byte after its first
    line: the zero is among the first 1024 bytes, and the file is rewritten
    all the same. *)
Lemma fix_shebangs_binary_counterexample :
  let data := bytes_of "#!/bin/sh" ++ [x0a; x00] in
  let st := {| files := list_to_map [(["p"], Dir); (["p"; "bin"], Dir);
                                     (["p"; "bin"; "run"], File data)];
               logged := [] |} in
  (x00 ∈ take 1024 data ∧ x00 ∉ TEXT_CHARS)
  ∧ is_file (files st) ["p"; "bin"; "run"] = true
  ∧ is_symlink (files st) ["p"; "bin"; "run"] = false
  ∧ files (_fix_shebangs ["p"] st).2 !! ["p"; "bin"; "run"]
    = Some (File (bytes_of "#!/system/bin/sh" ++ [x0a; x00]))
  ∧ files (_fix_shebangs ["p"] st).2 !! ["p"; "bin"; "run"] ≠ Some (File data).
Proof.
  intros data st.
  assert (files (_fix_shebangs ["p"] st).2 !! ["p"; "bin"; "run"]
          = Some (File (bytes_of "#!/system/bin/sh" ++ [x0a; x00]))) as H
    by (vm_compute; reflexivity).
  split.
  { split.
    - apply (bool_decide_unpack (x00 ∈ take 1024 data)). vm_compute. exact I.
    - apply (bool_decide_unpack (x00 ∉ TEXT_CHARS)). vm_compute. exact I. }
  split; [vm_compute; reflexivity|].
  split; [vm_compute; reflexivity|].
  split; [exact H|].
  rewrite H. discriminate.
Qed.

(** C2, amended: a regular file whose first line, as [readline(1024)]
    returns it (up to the first newline, 1024 bytes at most), holds a byte
    outside [TEXT_CHARS] is not rewritten by [_fix_shebangs]: it is in the
    filesystem afterwards with the content it had. *)
Theorem fix_shebangs_skips_binary (prefix path : Path) (st : store) (data : list byte) :
  files st !! path = Some (File data) →
  (∃ c, c ∈ (readline 1024 data).1 ∧ c ∉ TEXT_CHARS) →
  files (_fix_shebangs prefix st).2 !! path = Some (File data).
Proof.
  intros Hp Hbin. apply fix_shebangs_keeps; [done|].
  unfold new_content. destruct (readline 1024 data) as [content rest].
  apply is_binary_true in Hbin. simpl in Hbin. by rewrite Hbin.
Qed.

(** An ELF executable next to a shell script. *)
Lemma fix_shebangs_skips_binary_witness :
  let elf := [x7f] ++ bytes_of "ELF" ++ [x02; x01; x01; x00; x0a] ++ bytes_of "#!/bin/sh" in
  let st := {| files := list_to_map [(["p"], Dir); (["p"; "bin"], Dir);
                                     (["p"; "bin"; "python3"], File elf);
                                     (["p"; "bin"; "run"], File (bytes_of "#!/bin/sh"))];
               logged := [] |} in
  files (_fix_shebangs ["p"] st).2 !! ["p"; "bin"; "python3"] = Some (File elf).
Proof.
  intros elf st. apply (fix_shebangs_skips_binary ["p"] ["p"; "bin"; "python3"] st elf).
  - reflexivity.
  - exists x7f. split.
    + apply (bool_decide_unpack (x7f ∈ (readline 1024 elf).1)). vm_compute. exact I.
    + apply (bool_decide_unpack (x7f ∉ TEXT_CHARS)). vm_compute. exact I.
Defined.

(** ** The matcher against the languages of the patterns *)












(** The bytes after the first line, and the length of the first line with
    its newline, without any bound. *)
Fixpoint rest_after_line (data : list byte) : list byte :=
  match data with
  | [] => []
  | c :: data' => if Byte.eqb c x0a then data' else rest_after_line data'
  end.

Fixpoint line_length (data : list byte) : nat :=
  match data with
  | [] => 0
  | c :: data' => if Byte.eqb c x0a then 1 else S (line_length data')
  end.

Lemma readline_short (size : nat) (data : list byte) :
  line_length data ≤ size → (readline size data).2 = rest_after_line data.
Proof.
  revert data. induction size as [|size IH]; intros [|c data]; simpl; try done.
  - destruct (Byte.eqb c x0a); lia.
  - destruct (Byte.eqb c x0a); [done|]. intros Hlen.
    specialize (IH data ltac:(lia)). by destruct (readline size data).
Qed.

(** A file that starts with a target shebang line is not rewritten. *)
Lemma new_content_shell_target (rest : list byte) :
  new_content (shell_shebang ++ rest) = None.
Proof.
  unfold new_content.
  change (readline 1024 (shell_shebang ++ rest)) with (shell_shebang, rest).
  by vm_compute.
Qed.

Lemma new_content_python_target (rest : list byte) :
  new_content (python_shebang ++ rest) = None.
Proof.
  unfold new_content.
  change (readline 1024 (python_shebang ++ rest)) with (python_shebang, rest).
  by vm_compute.
Qed.

Lemma new_content_Some (data data' : list byte) :
  new_content data = Some data' →
  (data' = shell_shebang ++ (readline 1024 data).2
   ∨ data' = python_shebang ++ (readline 1024 data).2)
  ∧ new_content data' = None.
Proof.
  unfold new_content at 1. destruct (readline 1024 data) as [content rest]. simpl.
  destruct (is_binary content); [done|].
  destruct (re_match shell_shebang_re content).
  { intros [= <-]. split; [by left|exact (new_content_shell_target rest)]. }
  destruct (re_match python_shebang_re content); [|done].
  intros [= <-]. split; [by right|exact (new_content_python_target rest)].
Qed.

(** After the stage a regular file holds what it held, or its new content. *)
Lemma fix_shebangs_file_outcome (prefix p : Path) (st : store) (data : list byte) :
  files st !! p = Some (File data) →
  files (_fix_shebangs prefix st).2 !! p = Some (File data)
  ∨ ∃ data', new_content data = Some data'
             ∧ files (_fix_shebangs prefix st).2 !! p = Some (File data').
Proof.
  intros Hp. destruct (new_content data) as [data'|] eqn:Hnew.
  2:{ left. by apply fix_shebangs_keeps. }
  destruct (new_content_Some _ _ Hnew) as [_ Hfix].
  assert (files (_fix_shebangs prefix st).2 !! p = Some (File data)
          ∨ files (_fix_shebangs prefix st).2 !! p = Some (File data')) as [H|H];
    [|by left|right; by exists data'].
  unfold _fix_shebangs, iterdir. monad_run.
  destruct (files st !! (prefix // "bin")) as [[]|]; try by left. monad_run.
  generalize (filter (λ p0, length p0 = S (length (prefix // "bin"))
                            ∧ prefix // "bin" `prefix_of` p0) (map_to_list (files st)).*1).
  intros paths.
  assert (files st !! p = Some (File data) ∨ files st !! p = Some (File data')) as Hinv
    by by left.
  clear Hp. revert st Hinv. induction paths as [|q paths IH]; intros st Hinv; [done|].
  simpl. monad_run.
  assert (files (fix_shebang prefix q st).2 !! p = Some (File data)
          ∨ files (fix_shebang prefix q st).2 !! p = Some (File data')) as Hq.
  { destruct Hinv as [Hp|Hp].
    - rewrite fix_shebang_files.
      destruct (decide (q = p)) as [->|Hne].
      + rewrite Hp, Hnew. right. apply lookup_insert_eq.
      + left. destruct (files st !! q) as [[d| |]|]; try done.
        destruct (new_content d); [|done]. by rewrite lookup_insert_ne.
    - right. by apply fix_shebang_keeps. }
  destruct (fix_shebang prefix q st) as [[[]|e] st']; [by apply IH|done].
Qed.

(** When the first line with its newline fits into 1024 bytes, a rewritten
    file is a target shebang line followed by every byte after the first
    line of the original. *)
Lemma fix_shebangs_rewrite_short_line (prefix p : Path) (st : store)
    (data data' : list byte) :
  line_length data ≤ 1024 →
  files st !! p = Some (File data) →
  files (_fix_shebangs prefix st).2 !! p = Some (File data') →
  data' = data
  ∨ data' = shell_shebang ++ rest_after_line data
  ∨ data' = python_shebang ++ rest_after_line data.
Proof.
  intros Hlen Hp Hafter.
  destruct (fix_shebangs_file_outcome prefix p st data Hp) as [H|(d & Hnew & H)].
  - left. congruence.
  - right. rewrite H in Hafter. injection Hafter as <-.
    apply new_content_Some in Hnew as [Hd _]. by rewrite readline_short in Hd.
Qed.

(** A file whose first line is a target shebang is left as it is. *)
Lemma fix_shebangs_target_noop (prefix p : Path) (st : store) (rest : list byte) :
  (files st !! p = Some (File (shell_shebang ++ rest)) →
   files (_fix_shebangs prefix st).2 !! p = Some (File (shell_shebang ++ rest)))
  ∧ (files st !! p = Some (File (python_shebang ++ rest)) →
     files (_fix_shebangs prefix st).2 !! p = Some (File (python_shebang ++ rest))).
Proof.
  split; intros Hp; (apply fix_shebangs_keeps; [done|]).
  - exact (new_content_shell_target rest).
  - exact (new_content_python_target rest).
Qed.

(** C4 on a script whose first line is longer than 1024 bytes:
    [readline(1024)] stops inside the line, and what it did not read of the
    line is kept after the new shebang.  The file written is the target line
    followed by the tail of the old first line and then the bytes after it,
    not the target line followed by the bytes after the first line. *)
Theorem fix_shebangs_long_first_line :
  let body := bytes_of "echo hi" ++ [x0a] in
  let data := bytes_of "#!/bin/sh" ++ replicate 1015 x20 ++ bytes_of "-e" ++ [x0a] ++ body in
  let st := {| files := list_to_map [(["p"], Dir); (["p"; "bin"], Dir);
                                     (["p"; "bin"; "run"], File data)];
               logged := [] |} in
  rest_after_line data = body
  ∧ files (_fix_shebangs ["p"] st).2 !! ["p"; "bin"; "run"]
    = Some (File (shell_shebang ++ bytes_of "-e" ++ [x0a] ++ body))
  ∧ files (_fix_shebangs ["p"] st).2 !! ["p"; "bin"; "run"]
    ≠ Some (File (shell_shebang ++ rest_after_line data)).
Proof.
  intros body data st.
  assert (files (_fix_shebangs ["p"] st).2 !! ["p"; "bin"; "run"]
          = Some (File (shell_shebang ++ bytes_of "-e" ++ [x0a] ++ body))) as H
    by (vm_compute; reflexivity).
  assert (rest_after_line data = body) as Hrest by (vm_compute; reflexivity).
  split; [exact Hrest|]. split; [exact H|].
  rewrite H, Hrest. vm_compute. discriminate.
Qed.

(** ** Debloating *)

(** wcmatch on patterns that are plain relative paths, without wildcard,
    brace, extended-glob or negation syntax: every pattern in turn yields
    its path below the root if that path exists at that moment. *)
Fixpoint literal_next (g : list Path) (fs : gmap Path node) : option (Path * list Path) :=
  match g with
  | [] => None
  | p :: g' => if decide (is_Some (fs !! p)) then Some (p, g') else literal_next g' fs
  end.

Lemma literal_next_lt g fs p g' :
  literal_next g fs = Some (p, g') → length g' < length g.
Proof.
  induction g as [|q g IH]; simpl; [done|].
  destruct (decide (is_Some (fs !! q))).
  - intros [= _ <-]. lia.
  - intros H%IH. lia.
Qed.

Definition literal_glob : Globber := {|
  gen := list Path;
  glob_start prefix patterns _ _ := (λ s, prefix ++ Path_of s) <$> patterns;
  glob_next := literal_next;
  glob_left := length;
  glob_next_lt := literal_next_lt
|}.

Lemma stat_direct (fs : gmap Path node) (p : Path) :
  (∀ t, fs !! p ≠ Some (Symlink t)) → stat fs p = fs !! p.
Proof. apply resolve_direct. Qed.

Lemma is_dir_Dir (fs : gmap Path node) p :
  fs !! p = Some Dir → is_dir fs p = true.
Proof. intros H. unfold is_dir. rewrite stat_direct; rewrite H; done. Qed.

Lemma is_dir_File (fs : gmap Path node) p data :
  fs !! p = Some (File data) → is_dir fs p = false.
Proof. intros H. unfold is_dir. rewrite stat_direct; rewrite H; done. Qed.

Lemma is_dir_None (fs : gmap Path node) p :
  fs !! p = None → is_dir fs p = false.
Proof. intros H. unfold is_dir. rewrite stat_direct; rewrite H; done. Qed.

(** The store after [shutil.rmtree(p)] and after [p.unlink()]. *)
Definition without_tree (p : Path) (st : store) : store :=
  {| files := filter (λ kv : Path * node, ¬ p `prefix_of` kv.1) (files st);
     logged := logged st |}.

Definition without (p : Path) (st : store) : store :=
  {| files := delete p (files st); logged := logged st |}.

(** The body of the first loop, by the kind of entry it is given. *)
Lemma remove_path_cases (prefix p : Path) (st : store) :
  remove_path prefix p st =
  match files st !! p with
  | Some Dir => log_relative Removed prefix p (without_tree p st)
  | Some (File _) | Some (Symlink _) => log_relative Removed prefix p (without p st)
  | None => (Raise (OSError p), st)
  end.
Proof.
  unfold remove_path. monad_step.
  destruct (files st !! p) as [[data| |t]|] eqn:E.
  - rewrite (is_dir_File _ _ _ E). cbv beta iota zeta delta [andb].
    unfold unlink. monad_step. by rewrite E.
  - rewrite (is_dir_Dir _ _ E). destruct (is_file_Dir _ _ E) as [_ ->].
    cbv beta iota zeta delta [andb negb].
    unfold rmtree. monad_step. by rewrite E.
  - rewrite (is_symlink_Symlink _ _ _ E). rewrite andb_false_r.
    unfold unlink. monad_step. by rewrite E.
  - rewrite (is_dir_None _ _ E). cbv beta iota zeta delta [andb].
    unfold unlink. monad_step. by rewrite E.
Qed.

(** The body of the loop of a conditional pattern, by the kind of entry. *)
Lemma remove_path_if_cases (rm_file rm_dir rm_symlink : bool) (prefix p : Path)
    (st : store) :
  remove_path_if rm_file rm_dir rm_symlink prefix p st =
  match files st !! p with
  | Some Dir =>
      if rm_dir then log_relative Removed prefix p (without_tree p st) else (Ok tt, st)
  | Some (File _) =>
      if rm_file then log_relative Removed prefix p (without p st) else (Ok tt, st)
  | Some (Symlink _) =>
      if rm_symlink || (is_file (files st) p && rm_file)
      then log_relative Removed prefix p (without p st)
      else (Ok tt, st)
  | None => (Ok tt, st)
  end.
Proof.
  unfold remove_path_if. monad_step.
  destruct (files st !! p) as [[data| |t]|] eqn:E.
  - rewrite (is_dir_File _ _ _ E). destruct (is_file_File _ _ _ E) as [-> ->].
    cbv beta iota zeta delta [andb orb].
    destruct rm_file; [|done]. unfold unlink. monad_step. by rewrite E.
  - rewrite (is_dir_Dir _ _ E). destruct (is_file_Dir _ _ E) as [-> ->].
    cbv beta iota zeta delta [andb orb negb].
    destruct rm_dir; [|done]. unfold rmtree. monad_step. by rewrite E.
  - rewrite (is_symlink_Symlink _ _ _ E). rewrite andb_false_r, andb_false_l, andb_true_l.
    destruct (rm_symlink || is_file (files st) p && rm_file); [|done].
    unfold unlink. monad_step. by rewrite E.
  - rewrite (is_dir_None _ _ E). destruct (is_file_None _ _ E) as [-> ->]. done.
Qed.

Lemma without_tree_lookup (p q : Path) (st : store) :
  files (without_tree p st) !! q
  = if decide (p `prefix_of` q) then None else files st !! q.
Proof.
  unfold without_tree. simpl. destruct (decide (p `prefix_of` q)) as [Hpre|Hpre].
  - apply map_lookup_filter_None. right. intros x _. simpl. tauto.
  - destruct (files st !! q) as [x|] eqn:E.
    + by apply map_lookup_filter_Some.
    + apply map_lookup_filter_None. by left.
Qed.

Lemma without_tree_subseteq p st : files (without_tree p st) ⊆ files st.
Proof. apply map_filter_subseteq. Qed.

Lemma without_subseteq p st : files (without p st) ⊆ files st.
Proof. apply delete_subseteq. Qed.

(** Whatever a loop body of [_debloat] does, it only removes entries. *)
Lemma remove_path_subseteq prefix p st :
  files (remove_path prefix p st).2 ⊆ files st.
Proof.
  rewrite remove_path_cases. destruct (files st !! p) as [[]|]; try done;
    rewrite log_relative_files; auto using without_tree_subseteq, without_subseteq.
Qed.

Lemma remove_path_if_subseteq rf rd rs prefix p st :
  files (remove_path_if rf rd rs prefix p st).2 ⊆ files st.
Proof.
  rewrite remove_path_if_cases. destruct (files st !! p) as [[]|]; try done.
  - destruct rf; [|done]. rewrite log_relative_files. apply without_subseteq.
  - destruct rd; [|done]. rewrite log_relative_files. apply without_tree_subseteq.
  - destruct (rs || _); [|done]. rewrite log_relative_files. apply without_subseteq.
Qed.

Section DrainFacts.
Variable G : Globber.

(** The fuel of [for_glob] is never used up: more fuel than the generator
    has paths left changes nothing, and the loop unfolds as a loop does. *)
Lemma drain_fuel (body : Path → M store unit) (fuel1 fuel2 : nat) (g : gen G)
    (st : store) :
  glob_left G g < fuel1 → glob_left G g < fuel2 →
  drain G fuel1 g body st = drain G fuel2 g body st.
Proof.
  revert fuel2 g st. induction fuel1 as [|fuel1 IH]; intros [|fuel2] g st H1 H2;
    try lia.
  simpl. destruct (glob_next G g (files st)) as [[p g']|] eqn:Hnext; [|done].
  pose proof (glob_next_lt G _ _ _ _ Hnext).
  destruct (body p st) as [[[]|e] st']; [apply IH; lia|done].
Qed.

Lemma drain_unfold (body : Path → M store unit) (g : gen G) (st : store) :
  drain G (S (glob_left G g)) g body st =
  match glob_next G g (files st) with
  | None => (Ok tt, st)
  | Some (path, g') =>
      match body path st with
      | (Ok _, st') => drain G (S (glob_left G g')) g' body st'
      | (Raise e, st') => (Raise e, st')
      end
  end.
Proof.
  destruct (glob_next G g (files st)) as [[p g']|] eqn:Hnext.
  - pose proof (glob_next_lt G _ _ _ _ Hnext).
    destruct (body p st) as [[[]|e] st'] eqn:Hbody.
    + rewrite (drain_fuel body (S (glob_left G g')) (glob_left G g)) by lia.
      cbn [drain]. by rewrite Hnext, Hbody.
    + cbn [drain]. by rewrite Hnext, Hbody.
  - cbn [drain]. by rewrite Hnext.
Qed.

(** A property of the store that every iteration keeps holds when the loop
    is left, whether normally or by an exception. *)
Lemma drain_invariant (I : store → Prop) (body : Path → M store unit) :
  (∀ p st, I st → I (body p st).2) →
  ∀ fuel g st, I st → I (drain G fuel g body st).2.
Proof.
  intros Hbody. induction fuel as [|fuel IH]; intros g st Hst; simpl; [done|].
  destruct (glob_next G g (files st)) as [[p g']|]; [|done].
  specialize (Hbody p st Hst).
  destruct (body p st) as [[[]|e] st']; [by apply IH|done].
Qed.

Lemma for_glob_invariant (I : store → Prop) (body : Path → M store unit)
    prefix patterns flags :
  (∀ p st, I st → I (body p st).2) →
  ∀ st, I st → I (for_glob G prefix patterns flags body st).2.
Proof. intros Hbody st Hst. unfold for_glob. by apply drain_invariant. Qed.

End DrainFacts.

(** Following links in a part of a filesystem gives what it gives in the
    whole. *)
Lemma resolve_weaken (fuel : nat) (fs fs' : gmap Path node) (p : Path) (x : node) :
  fs' ⊆ fs → resolve fuel fs' p = Some x → resolve fuel fs p = Some x.
Proof.
  intros Hsub. revert p. induction fuel as [|fuel IH]; intros p; simpl.
  - destruct (fs' !! p) as [y|] eqn:E; [|done].
    rewrite (lookup_weaken _ _ _ _ E Hsub). by destruct y.
  - destruct (fs' !! p) as [y|] eqn:E; [|done].
    rewrite (lookup_weaken _ _ _ _ E Hsub). destruct y; auto.
Qed.

Lemma is_file_weaken (fs fs' : gmap Path node) (p : Path) :
  fs' ⊆ fs → is_file fs' p = true → is_file fs p = true.
Proof.
  intros Hsub. unfold is_file, stat.
  destruct (resolve MAXSYMLINKS fs' p) as [[]|] eqn:E; try done.
  by rewrite (resolve_weaken _ _ _ _ _ Hsub E).
Qed.

(** What a conditional pattern with the delete-set [rm_if] is bound to
    spare: an entry of a kind that the set does not name.  For a link that
    leads to a regular file while the set names files, nothing is said. *)
Definition spared (rm_if : list string) (fs : gmap Path node) (p : Path) (n : node)
  : Prop :=
  match n with
  | File _ => "file" ∉ (str_lower <$> rm_if)
  | Dir => "dir" ∉ (str_lower <$> rm_if)
  | Symlink _ =>
      ("symlink" ∉ (str_lower <$> rm_if))
      ∧ ("file" ∉ (str_lower <$> rm_if) ∨ is_file fs p = false)
  end.

(** The claim of C1 fails when the pattern of a rule also matches a
    directory above the entry and the delete-set names directories: the
    file below is matched, is not of a kind in the set, and goes with the
    directory. *)
Lemma debloat_conditional_counterexample :
  let rule := Conditional ["lib/test/data.txt"; "lib/test"] ["dir"] in
  let path := ["p"; "lib"; "test"; "data.txt"] in
  let st := {| files := list_to_map [(["p"], Dir); (["p"; "lib"], Dir);
                                     (["p"; "lib"; "test"], Dir);
                                     (path, File (bytes_of "1 2 3"))];
               logged := [] |} in
  files st !! path = Some (File (bytes_of "1 2 3"))
  ∧ glob_next literal_glob
      (glob_start literal_glob ["p"] ["lib/test/data.txt"; "lib/test"] debloat_flags (files st))
      (files st) = Some (path, [["p"; "lib"; "test"]])
  ∧ ("file" ∉ (str_lower <$> ["dir"]))
  ∧ (_debloat literal_glob [rule] ["p"] st).1 = Ok tt
  ∧ files (_debloat literal_glob [rule] ["p"] st).2 !! path = None.
Proof.
  intros rule path st.
  split; [reflexivity|]. split; [vm_compute; reflexivity|].
  split; [apply (bool_decide_unpack ("file" ∉ (str_lower <$> ["dir"]))); vm_compute; exact I|].
  split; vm_compute; reflexivity.
Qed.

(** A link to a regular file goes under a delete-set that names files only:
    the test for a file follows the link. *)
Lemma debloat_conditional_link_to_file :
  let rule := Conditional ["bin/python3"] ["file"] in
  let link := ["p"; "bin"; "python3"] in
  let st := {| files := list_to_map [(["p"], Dir); (["p"; "bin"], Dir);
                                     (["p"; "bin"; "python3.13"], File [x7f]);
                                     (link, Symlink ["p"; "bin"; "python3.13"])];
               logged := [] |} in
  is_symlink (files st) link = true
  ∧ ("symlink" ∉ (str_lower <$> ["file"]))
  ∧ files (_debloat literal_glob [rule] ["p"] st).2 !! link = None.
Proof.
  intros rule link st. split; [reflexivity|].
  split; [apply (bool_decide_unpack ("symlink" ∉ (str_lower <$> ["file"]))); vm_compute; exact I|].
  vm_compute; reflexivity.
Qed.

(** C1, amended: while one conditional pattern is processed, an entry of a
    kind that its delete-set does not name is not removed by a deletion of
    that entry; for a link this is said when the set does not name links
    and either does not name files or the link does not lead to a regular
    file.  After the pattern the entry is there as it was, unless the set
    names directories and a directory above the entry was removed with all
    it held. *)
Theorem debloat_conditional_spares (G : Globber) (prefix : Path)
    (raw_pattern rm_if : list string) (st : store) (entry : Path) (n : node) :
  files st !! entry = Some n →
  spared rm_if (files st) entry n →
  let st' := (debloat_conditional G prefix raw_pattern rm_if st).2 in
  files st' !! entry = Some n
  ∨ ("dir" ∈ (str_lower <$> rm_if)
     ∧ ∃ d, d ≠ entry ∧ d `prefix_of` entry
            ∧ files st !! d = Some Dir ∧ files st' !! d = None).
Proof.
  intros Hentry Hspared st'. unfold st', debloat_conditional.
  set (kinds := str_lower <$> rm_if) in *.
  set (I := λ s : store,
         files s ⊆ files st
         ∧ (files s !! entry = Some n
            ∨ ("dir" ∈ kinds
               ∧ ∃ d, d ≠ entry ∧ d `prefix_of` entry
                      ∧ files st !! d = Some Dir ∧ files s !! d = None))).
  enough (I (for_glob G prefix raw_pattern debloat_flags
               (remove_path_if (bool_decide ("file" ∈ kinds)) (bool_decide ("dir" ∈ kinds))
                  (bool_decide ("symlink" ∈ kinds)) prefix) st).2) as [_ H] by exact H.
  apply for_glob_invariant; [|split; [done|by left]].
  intros p s [Hsub Hs].
  pose proof (remove_path_if_subseteq (bool_decide ("file" ∈ kinds))
                (bool_decide ("dir" ∈ kinds)) (bool_decide ("symlink" ∈ kinds))
                prefix p s) as Hstep.
  split; [by etrans|].
  destruct Hs as [Hs|(Hdir & d & Hne & Hpre & Hd & Hgone)].
  2:{ right. split; [done|]. exists d. repeat split; try done.
      match goal with |- files ?s2 !! d = None =>
        destruct (files s2 !! d) as [x|] eqn:E; [|done] end.
      eapply lookup_weaken in E; [|exact Hstep]. congruence. }
  clear Hstep. rewrite remove_path_if_cases.
  destruct (files s !! p) as [[data| |t]|] eqn:Hp; [| | |by left].
  - destruct (bool_decide_reflect ("file" ∈ kinds)) as [Hin|]; [|by left].
    rewrite log_relative_files. left. simpl.
    rewrite lookup_delete_ne; [done|]. intros ->.
    rewrite Hp in Hs. injection Hs as <-. by apply Hspared.
  - destruct (bool_decide_reflect ("dir" ∈ kinds)) as [Hin|]; [|by left].
    destruct (decide (p `prefix_of` entry)) as [Hpre|Hpre].
    2:{ left. by rewrite log_relative_files, without_tree_lookup, decide_False. }
    right. split; [done|]. exists p.
    rewrite log_relative_files, without_tree_lookup, decide_True by done.
    repeat split; try done.
    + intros ->. rewrite Hp in Hs. injection Hs as <-. by apply Hspared.
    + by eapply lookup_weaken.
  - destruct (bool_decide ("symlink" ∈ kinds) || _) eqn:Hrm; [|by left].
    rewrite log_relative_files. left. simpl.
    rewrite lookup_delete_ne; [done|]. intros ->.
    rewrite Hp in Hs. injection Hs as <-. destruct Hspared as [Hl Hf].
    apply orb_true_iff in Hrm as [Hrm|Hrm].
    + by apply bool_decide_eq_true_1 in Hrm.
    + apply andb_true_iff in Hrm as [Hfile Hrm]. destruct Hf as [Hf|Hf].
      * by apply bool_decide_eq_true_1 in Hrm.
      * apply (is_file_weaken _ _ _ Hsub) in Hfile. congruence.
Qed.

(** A shared library and a static archive under a rule for files: the
    directory that holds them is matched too and stays. *)
Lemma debloat_conditional_spares_witness :
  let st := {| files := list_to_map [(["p"], Dir); (["p"; "lib"], Dir);
                                     (["p"; "lib"; "libz.a"], File [x21])];
               logged := [] |} in
  let st' := (debloat_conditional literal_glob ["p"] ["lib"; "lib/libz.a"] ["File"] st).2 in
  files st' !! ["p"; "lib"] = Some Dir
  ∨ ("dir" ∈ (str_lower <$> ["File"])
     ∧ ∃ d, d ≠ ["p"; "lib"] ∧ d `prefix_of` ["p"; "lib"]
            ∧ files st !! d = Some Dir ∧ files st' !! d = None).
Proof.
  intros st.
  apply (debloat_conditional_spares literal_glob ["p"] ["lib"; "lib/libz.a"] ["File"] st
           ["p"; "lib"] Dir).
  - reflexivity.
  - apply (bool_decide_unpack ("dir" ∉ (str_lower <$> ["File"]))). vm_compute. exact I.
Defined.

(** A link to a directory under a rule for files and directories stays. *)
Example debloat_conditional_spares_link :
  let st := {| files := list_to_map [(["p"], Dir); (["p"; "lib"], Dir);
                                     (["p"; "lib64"], Symlink ["p"; "lib"])];
               logged := [] |} in
  spared ["file"; "dir"] (files st) ["p"; "lib64"] (Symlink ["p"; "lib"])
  ∧ files (debloat_conditional literal_glob ["p"] ["lib64"] ["file"; "dir"] st).2
    !! ["p"; "lib64"] = Some (Symlink ["p"; "lib"]).
Proof.
  intros st. split; [|by vm_compute]. split.
  - apply (bool_decide_unpack ("symlink" ∉ (str_lower <$> ["file"; "dir"]))).
    vm_compute. exact I.
  - right. reflexivity.
Qed.

(** *** Running [_debloat] twice *)

(** What is assumed of the glob.  [selects prefix patterns fs p] says that
    the patterns, read below the root [prefix], select the path [p] in the
    filesystem [fs]; [tracks prefix patterns g seen fs] says that the
    generator [g] of these patterns has yielded the paths [seen] so far and
    has only looked at filesystems of which [fs] is a part.

    - A path that is yielded exists at that moment, lies below the root and
      is selected in the filesystem of that moment.
    - When the generator ends, every entry that is there and that the
      patterns select has been yielded.
    - Removing entries does not make the patterns select an entry that
      stays. *)
Record glob_lawful (G : Globber)
    (selects : Path → list string → gmap Path node → Path → Prop)
    (tracks : Path → list string → gen G → list Path → gmap Path node → Prop)
  : Prop := {
  lawful_start : ∀ prefix pats fs,
    tracks prefix pats (glob_start G prefix pats debloat_flags fs) [] fs;
  lawful_next : ∀ prefix pats g seen fs p g',
    tracks prefix pats g seen fs →
    glob_next G g fs = Some (p, g') →
    is_Some (fs !! p) ∧ prefix `prefix_of` p ∧ selects prefix pats fs p
    ∧ ∀ fs', fs' ⊆ fs → tracks prefix pats g' (p :: seen) fs';
  lawful_end : ∀ prefix pats g seen fs,
    tracks prefix pats g seen fs →
    glob_next G g fs = None →
    ∀ p, is_Some (fs !! p) → selects prefix pats fs p → p ∈ seen;
  lawful_anti : ∀ prefix pats fs fs' p,
    fs' ⊆ fs → is_Some (fs' !! p) → selects prefix pats fs' p →
    selects prefix pats fs p
}.

Lemma relative_to_prefix (base p : Path) :
  base `prefix_of` p → is_Some (relative_to base p).
Proof.
  intros [k ->]. induction base as [|x base IH]; simpl; [done|].
  by rewrite decide_True.
Qed.

Lemma log_relative_ok mk prefix p st :
  prefix `prefix_of` p →
  ∃ st', log_relative mk prefix p st = (Ok tt, st') ∧ files st' = files st.
Proof.
  intros [rel Hrel]%relative_to_prefix. unfold log_relative. rewrite Hrel.
  by eexists.
Qed.

(** The body of a conditional loop leaves the entry at [p] alone. *)
Definition quiet (rm_file rm_dir rm_symlink : bool) (fs : gmap Path node) (p : Path)
  : Prop :=
  match fs !! p with
  | Some Dir => rm_dir = false
  | Some (File _) => rm_file = false
  | Some (Symlink _) => rm_symlink || (is_file fs p && rm_file) = false
  | None => True
  end.

Lemma quiet_weaken (rf rd rs : bool) (fs fs' : gmap Path node) (p : Path) :
  fs' ⊆ fs → is_Some (fs' !! p) → quiet rf rd rs fs p → quiet rf rd rs fs' p.
Proof.
  intros Hsub [x Hx]. unfold quiet.
  rewrite Hx, (lookup_weaken _ _ _ _ Hx Hsub). destruct x; try done.
  intros [Hs Hf]%orb_false_iff. rewrite Hs. simpl.
  destruct (is_file fs' p) eqn:E; [|done].
  by rewrite (is_file_weaken _ _ _ Hsub E) in Hf.
Qed.

Lemma remove_path_if_quiet rf rd rs prefix p st :
  quiet rf rd rs (files st) p →
  remove_path_if rf rd rs prefix p st = (Ok tt, st).
Proof.
  unfold quiet. rewrite remove_path_if_cases.
  destruct (files st !! p) as [[]|]; try done; by intros ->.
Qed.

(** On an entry below the root the body of the first loop returns, and the
    entry is gone. *)
Lemma remove_path_ok prefix p st :
  is_Some (files st !! p) → prefix `prefix_of` p →
  ∃ st', remove_path prefix p st = (Ok tt, st')
         ∧ files st' ⊆ files st ∧ files st' !! p = None.
Proof.
  intros [x Hx] Hpre. rewrite remove_path_cases, Hx.
  destruct x as [data| |t].
  - destruct (log_relative_ok Removed prefix p (without p st) Hpre) as (st' & -> & Hf).
    exists st'. rewrite Hf. split; [done|]. split; [apply delete_subseteq|].
    apply lookup_delete_eq.
  - destruct (log_relative_ok Removed prefix p (without_tree p st) Hpre) as (st' & -> & Hf).
    exists st'. rewrite Hf. split; [done|]. split; [apply map_filter_subseteq|].
    rewrite without_tree_lookup. by rewrite decide_True.
  - destruct (log_relative_ok Removed prefix p (without p st) Hpre) as (st' & -> & Hf).
    exists st'. rewrite Hf. split; [done|]. split; [apply delete_subseteq|].
    apply lookup_delete_eq.
Qed.

(** On an entry below the root the body of a conditional loop returns; the
    entry is gone, or it is left alone and nothing has changed. *)
Lemma remove_path_if_ok rf rd rs prefix p st :
  is_Some (files st !! p) → prefix `prefix_of` p →
  ∃ st', remove_path_if rf rd rs prefix p st = (Ok tt, st')
         ∧ files st' ⊆ files st
         ∧ (files st' !! p = None ∨ (st' = st ∧ quiet rf rd rs (files st) p)).
Proof.
  intros [x Hx] Hpre. rewrite remove_path_if_cases. unfold quiet. rewrite Hx.
  assert (∃ st', log_relative Removed prefix p (without p st) = (Ok tt, st')
                 ∧ files st' ⊆ files st ∧ files st' !! p = None) as Hunlink.
  { destruct (log_relative_ok Removed prefix p (without p st) Hpre) as (st' & -> & Hf).
    exists st'. rewrite Hf. split; [done|]. split; [apply delete_subseteq|].
    apply lookup_delete_eq. }
  destruct x as [data| |t].
  - destruct rf; [|by exists st; auto].
    destruct Hunlink as (st' & -> & ? & ?). exists st'. auto.
  - destruct rd; [|by exists st; auto].
    destruct (log_relative_ok Removed prefix p (without_tree p st) Hpre) as (st' & -> & Hf).
    exists st'. rewrite Hf. split; [done|]. split; [apply map_filter_subseteq|].
    left. rewrite without_tree_lookup. by rewrite decide_True.
  - destruct (rs || _); [|by exists st; auto].
    destruct Hunlink as (st' & -> & ? & ?). exists st'. auto.
Qed.

Section Idempotence.
Variable G : Globber.
Variable selects : Path → list string → gmap Path node → Path → Prop.
Variable tracks : Path → list string → gen G → list Path → gmap Path node → Prop.
Hypothesis lawful : glob_lawful G selects tracks.

(** A loop whose body returns on every yielded path and only removes
    entries runs to the end of the generator, and a property [J] of the
    yielded paths and the store that the body maintains holds there. *)
Lemma drain_tracked (prefix : Path) (pats : list string) (body : Path → M store unit)
    (J : list Path → store → Prop) :
  (∀ p seen st,
     J seen st → is_Some (files st !! p) → prefix `prefix_of` p →
     ∃ st', body p st = (Ok tt, st') ∧ files st' ⊆ files st ∧ J (p :: seen) st') →
  ∀ fuel g seen st,
    glob_left G g < fuel →
    tracks prefix pats g seen (files st) →
    J seen st →
    ∃ st' g' seen',
      drain G fuel g body st = (Ok tt, st')
      ∧ files st' ⊆ files st
      ∧ tracks prefix pats g' seen' (files st')
      ∧ glob_next G g' (files st') = None
      ∧ J seen' st'.
Proof.
  intros Hbody. induction fuel as [|fuel IH]; intros g seen st Hfuel Htr HJ; [lia|].
  simpl. destruct (glob_next G g (files st)) as [[p g']|] eqn:Hnext.
  - destruct (lawful_next _ _ _ lawful _ _ _ _ _ _ _ Htr Hnext) as (Hex & Hpre & _ & Htr').
    destruct (Hbody p seen st HJ Hex Hpre) as (st1 & -> & Hsub & HJ1).
    pose proof (glob_next_lt G _ _ _ _ Hnext) as Hlt.
    destruct (IH g' (p :: seen) st1 ltac:(lia) (Htr' _ Hsub) HJ1)
      as (st' & g'' & seen' & -> & Hsub' & ? & ? & ?).
    exists st', g'', seen'. repeat split; try done. by etrans.
  - exists st, g, seen. by repeat split.
Qed.

(** A loop whose body does nothing on the paths that are there and selected
    does nothing. *)
Lemma drain_settled (prefix : Path) (pats : list string) (body : Path → M store unit)
    (st : store) :
  (∀ p, is_Some (files st !! p) → selects prefix pats (files st) p →
        body p st = (Ok tt, st)) →
  ∀ fuel g seen,
    tracks prefix pats g seen (files st) →
    drain G fuel g body st = (Ok tt, st).
Proof.
  intros Hbody. induction fuel as [|fuel IH]; intros g seen Htr; [done|].
  simpl. destruct (glob_next G g (files st)) as [[p g']|] eqn:Hnext; [|done].
  destruct (lawful_next _ _ _ lawful _ _ _ _ _ _ _ Htr Hnext) as (Hex & _ & Hsel & Htr').
  rewrite (Hbody p Hex Hsel). by apply (IH g' (p :: seen)), Htr'.
Qed.

(** After the first loop no entry is selected by the patterns. *)
Definition clean (prefix : Path) (pats : list string) (fs : gmap Path node) : Prop :=
  ∀ p, is_Some (fs !! p) → ¬ selects prefix pats fs p.

(** After the loop of a conditional pattern every selected entry is one
    that the body leaves alone. *)
Definition settled (prefix : Path) (rule : list string * list string)
    (fs : gmap Path node) : Prop :=
  let kinds := str_lower <$> rule.2 in
  ∀ p, is_Some (fs !! p) → selects prefix rule.1 fs p →
       quiet (bool_decide ("file" ∈ kinds)) (bool_decide ("dir" ∈ kinds))
         (bool_decide ("symlink" ∈ kinds)) fs p.

Lemma clean_weaken (prefix : Path) (pats : list string) (fs fs' : gmap Path node) :
  fs' ⊆ fs → clean prefix pats fs → clean prefix pats fs'.
Proof.
  intros Hsub Hclean p [x Hx] Hsel. apply (Hclean p).
  - exists x. by eapply lookup_weaken.
  - eapply (lawful_anti _ _ _ lawful); eauto.
Qed.

Lemma settled_weaken (prefix : Path) (rule : list string * list string)
    (fs fs' : gmap Path node) :
  fs' ⊆ fs → settled prefix rule fs → settled prefix rule fs'.
Proof.
  intros Hsub Hset p [x Hx] Hsel. eapply quiet_weaken; [done|by exists x|].
  apply Hset.
  - exists x. by eapply lookup_weaken.
  - eapply (lawful_anti _ _ _ lawful); eauto.
Qed.

Lemma unconditional_first_run prefix pats st :
  ∃ st', for_glob G prefix pats debloat_flags (remove_path prefix) st = (Ok tt, st')
         ∧ files st' ⊆ files st ∧ clean prefix pats (files st').
Proof.
  unfold for_glob.
  destruct (drain_tracked prefix pats (remove_path prefix)
              (λ seen s, ∀ p, p ∈ seen → files s !! p = None))
    with (fuel := S (glob_left G (glob_start G prefix pats debloat_flags (files st))))
         (g := glob_start G prefix pats debloat_flags (files st))
         (seen := @nil Path) (st := st)
    as (st' & g' & seen' & Hrun & Hsub & Htr & Hend & HJ).
  - intros p seen s HJ Hex Hpre.
    destruct (remove_path_ok prefix p s Hex Hpre) as (s' & Hs' & Hsub & Hgone).
    exists s'. repeat split; try done.
    intros q [->|Hq]%elem_of_cons; [done|].
    destruct (files s' !! q) as [x|] eqn:E; [|done].
    eapply lookup_weaken in E; [|exact Hsub]. by rewrite HJ in E.
  - lia.
  - apply (lawful_start _ _ _ lawful).
  - intros p Hp. by apply elem_of_nil in Hp.
  - exists st'. repeat split; try done.
    intros p Hex Hsel.
    pose proof (lawful_end _ _ _ lawful _ _ _ _ _ Htr Hend p Hex Hsel) as Hseen.
    rewrite (HJ p Hseen) in Hex. by destruct Hex.
Qed.

Lemma unconditional_second_run prefix pats st :
  clean prefix pats (files st) →
  for_glob G prefix pats debloat_flags (remove_path prefix) st = (Ok tt, st).
Proof.
  intros Hclean. unfold for_glob. eapply drain_settled.
  - intros p Hex Hsel. by destruct (Hclean p Hex).
  - apply (lawful_start _ _ _ lawful).
Qed.

Lemma conditional_first_run prefix (rule : list string * list string) st :
  ∃ st', debloat_conditional G prefix rule.1 rule.2 st = (Ok tt, st')
         ∧ files st' ⊆ files st ∧ settled prefix rule (files st').
Proof.
  unfold debloat_conditional, for_glob, settled.
  set (kinds := str_lower <$> rule.2).
  set (rf := bool_decide ("file" ∈ kinds)).
  set (rd := bool_decide ("dir" ∈ kinds)).
  set (rs := bool_decide ("symlink" ∈ kinds)).
  destruct (drain_tracked prefix rule.1 (remove_path_if rf rd rs prefix)
              (λ seen s, ∀ p, p ∈ seen → is_Some (files s !! p) → quiet rf rd rs (files s) p))
    with (fuel := S (glob_left G (glob_start G prefix rule.1 debloat_flags (files st))))
         (g := glob_start G prefix rule.1 debloat_flags (files st))
         (seen := @nil Path) (st := st)
    as (st' & g' & seen' & Hrun & Hsub & Htr & Hend & HJ).
  - intros p seen s HJ Hex Hpre.
    destruct (remove_path_if_ok rf rd rs prefix p s Hex Hpre) as (s' & Hs' & Hsub & Hp).
    exists s'. repeat split; try done.
    intros q [->|Hq]%elem_of_cons Hex'.
    + destruct Hp as [Hgone|[-> Hquiet]]; [|done].
      rewrite Hgone in Hex'. by destruct Hex'.
    + eapply quiet_weaken; [done..|]. apply HJ; [done|].
      destruct Hex' as [x Hx]. exists x. by eapply lookup_weaken.
  - lia.
  - apply (lawful_start _ _ _ lawful).
  - intros p Hp. by apply elem_of_nil in Hp.
  - exists st'. repeat split; try done.
    intros p Hex Hsel. apply HJ; [|done].
    by apply (lawful_end _ _ _ lawful _ _ _ _ _ Htr Hend p Hex Hsel).
Qed.

Lemma conditional_second_run prefix (rule : list string * list string) st :
  settled prefix rule (files st) →
  debloat_conditional G prefix rule.1 rule.2 st = (Ok tt, st).
Proof.
  intros Hset. unfold debloat_conditional, for_glob. eapply drain_settled.
  - intros p Hex Hsel. apply remove_path_if_quiet. by apply Hset.
  - apply (lawful_start _ _ _ lawful).
Qed.

Lemma conditionals_first_run prefix (rules : list (list string * list string)) st :
  ∃ st', for_each rules (λ r, debloat_conditional G prefix r.1 r.2) st = (Ok tt, st')
         ∧ files st' ⊆ files st
         ∧ Forall (λ r, settled prefix r (files st')) rules.
Proof.
  revert st. induction rules as [|r rules IH]; intros st.
  - exists st. by repeat split.
  - destruct (conditional_first_run prefix r st) as (st1 & Hr & Hsub1 & Hset).
    destruct (IH st1) as (st' & Hrs & Hsub & Hall).
    exists st'. simpl. erewrite bind_ok by exact Hr.
    repeat split; [done|by etrans|].
    constructor; [|done]. by eapply settled_weaken.
Qed.

Lemma conditionals_second_run prefix (rules : list (list string * list string)) st :
  Forall (λ r, settled prefix r (files st)) rules →
  for_each rules (λ r, debloat_conditional G prefix r.1 r.2) st = (Ok tt, st).
Proof.
  induction 1 as [|r rules Hr _ IH]; [done|].
  simpl. erewrite bind_ok by by apply conditional_second_run. done.
Qed.

(** C5: under the contract of the glob, [_debloat] returns on every rule
    set and every tree, it only removes entries, and run again on the store
    it left it returns the same store: the second run removes nothing, logs
    nothing, and the tree is the tree after the first run. *)
Theorem debloat_idempotent (debloat_patterns : list debloat_pattern) (prefix : Path)
    (st : store) :
  ∃ st1,
    _debloat G debloat_patterns prefix st = (Ok tt, st1)
    ∧ files st1 ⊆ files st
    ∧ _debloat G debloat_patterns prefix st1 = (Ok tt, st1).
Proof.
  unfold _debloat.
  set (patterns := omap (λ p, match p with Pattern s => Some s | _ => None end)
                     debloat_patterns).
  set (rules := omap (λ p, match p with Conditional r k => Some (r, k) | _ => None end)
                  debloat_patterns).
  destruct (unconditional_first_run prefix patterns st) as (st0 & Hu & Hsub0 & Hclean).
  destruct (conditionals_first_run prefix rules st0) as (st1 & Hc & Hsub1 & Hset).
  exists st1. split; [|split].
  - erewrite bind_ok by exact Hu. exact Hc.
  - by etrans.
  - erewrite bind_ok.
    + by apply conditionals_second_run.
    + apply unconditional_second_run. by eapply clean_weaken.
Qed.

End Idempotence.

(** The literal glob keeps the contract. *)
Definition literal_selects (prefix : Path) (pats : list string) (fs : gmap Path node)
    (p : Path) : Prop :=
  p ∈ (λ s, prefix ++ Path_of s) <$> pats.

Definition literal_tracks (prefix : Path) (pats : list string) (g : list Path)
    (seen : list Path) (fs : gmap Path node) : Prop :=
  ∃ tried, (λ s, prefix ++ Path_of s) <$> pats = tried ++ g
           ∧ ∀ q, q ∈ tried → is_Some (fs !! q) → q ∈ seen.

Lemma literal_next_Some (g : list Path) (fs : gmap Path node) (p : Path) (g' : list Path) :
  literal_next g fs = Some (p, g') →
  ∃ skipped, g = skipped ++ p :: g'
             ∧ (∀ q, q ∈ skipped → ¬ is_Some (fs !! q))
             ∧ is_Some (fs !! p).
Proof.
  induction g as [|q g IH]; simpl; [done|].
  destruct (decide (is_Some (fs !! q))) as [Hq|Hq].
  - intros [= -> ->]. exists []. repeat split; [|done].
    intros q Hin. by apply elem_of_nil in Hin.
  - intros (skipped & -> & Hsk & Hp)%IH. exists (q :: skipped).
    repeat split; [|done]. by intros q' [->|?]%elem_of_cons; auto.
Qed.

Lemma literal_next_None (g : list Path) (fs : gmap Path node) :
  literal_next g fs = None → ∀ q, q ∈ g → ¬ is_Some (fs !! q).
Proof.
  induction g as [|q g IH]; simpl.
  - intros _ q Hin. by apply elem_of_nil in Hin.
  - destruct (decide (is_Some (fs !! q))) as [Hq|Hq]; [done|].
    intros H q' [->|?]%elem_of_cons; auto.
Qed.

Lemma literal_glob_lawful : glob_lawful literal_glob literal_selects literal_tracks.
Proof.
  split.
  - intros prefix pats fs. exists []. split; [done|].
    intros q Hin. by apply elem_of_nil in Hin.
  - intros prefix pats g seen fs p g' (tried & Heq & Htried) Hnext.
    simpl in Hnext. apply literal_next_Some in Hnext as (skipped & -> & Hsk & Hp).
    assert (p ∈ (λ s, prefix ++ Path_of s) <$> pats) as Hin.
    { rewrite Heq. rewrite !elem_of_app, elem_of_cons. auto. }
    repeat split; [done| |done|].
    + apply list_elem_of_fmap in Hin as (s & -> & _). by apply prefix_app_r.
    + intros fs' Hsub. exists (tried ++ skipped ++ [p]). split.
      * rewrite Heq. by rewrite <- !app_assoc.
      * intros q [Hq|[Hq|Hq%list_elem_of_singleton]%elem_of_app]%elem_of_app [x Hx].
        -- right. apply Htried; [done|]. exists x. by eapply lookup_weaken.
        -- destruct (Hsk q Hq). exists x. by eapply lookup_weaken.
        -- subst q. left.
  - intros prefix pats g seen fs (tried & Heq & Htried) Hnext p Hex Hsel.
    simpl in Hnext. unfold literal_selects in Hsel. rewrite Heq in Hsel.
    apply elem_of_app in Hsel as [Hin|Hin]; [by apply Htried|].
    by destruct (literal_next_None _ _ Hnext p Hin).
  - done.
Qed.

(** A prefix with documentation, a static archive next to a shared library,
    and the rules of the example configuration. *)
Lemma debloat_idempotent_witness :
  let rules := [Pattern "share"; Conditional ["lib/libz.a"; "lib/libz.so"] ["file"];
                Conditional ["lib"] ["symlink"]] in
  let st := {| files := list_to_map [(["p"], Dir); (["p"; "share"], Dir);
                                     (["p"; "share"; "man.1"], File [x2e]);
                                     (["p"; "lib"], Dir);
                                     (["p"; "lib"; "libz.a"], File [x21]);
                                     (["p"; "lib"; "libz.so"], Symlink ["p"; "lib"; "libz.so.1"]);
                                     (["p"; "lib"; "libz.so.1"], File [x7f])];
               logged := [] |} in
  ∃ st1,
    _debloat literal_glob rules ["p"] st = (Ok tt, st1)
    ∧ files st1 ⊆ files st
    ∧ _debloat literal_glob rules ["p"] st1 = (Ok tt, st1).
Proof.
  intros rules st.
  exact (debloat_idempotent literal_glob literal_selects literal_tracks
           literal_glob_lawful rules ["p"] st).
Defined.

(** What the two runs of the witness leave behind. *)
Example debloat_twice_example :
  let rules := [Pattern "share"; Conditional ["lib/libz.a"; "lib/libz.so"] ["file"];
                Conditional ["lib"] ["symlink"]] in
  let st := {| files := list_to_map [(["p"], Dir); (["p"; "share"], Dir);
                                     (["p"; "share"; "man.1"], File [x2e]);
                                     (["p"; "lib"], Dir);
                                     (["p"; "lib"; "libz.a"], File [x21]);
                                     (["p"; "lib"; "libz.so"], Symlink ["p"; "lib"; "libz.so.1"]);
                                     (["p"; "lib"; "libz.so.1"], File [x7f])];
               logged := [] |} in
  let st1 := (_debloat literal_glob rules ["p"] st).2 in
  files st1
  = list_to_map [(["p"], Dir); (["p"; "lib"], Dir); (["p"; "lib"; "libz.so.1"], File [x7f])]
  ∧ logged st1 = [Removed ["share"]; Removed ["lib"; "libz.a"]; Removed ["lib"; "libz.so"]]
  ∧ _debloat literal_glob rules ["p"] st1 = (Ok tt, st1).
Proof.
  intros rules st st1. by vm_compute.
Qed.

(** A glob for any way of matching that looks at the path only: [matcher]
    says which paths, taken relative to the root, a pattern list matches.
    The generator lists the matching entries when it starts and yields
    those that are still there when their turn comes.  It keeps the
    contract, whatever the matcher is. *)
Section PredicateGlob.
Variable matcher : list string → Path → bool.

Definition matched (prefix : Path) (pats : list string) (p : Path) : bool :=
  match relative_to prefix p with
  | Some rel => matcher pats rel
  | None => false
  end.

Definition predicate_glob : Globber := {|
  gen := list Path;
  glob_start prefix patterns _ fs :=
    filter (λ p, matched prefix patterns p = true) (map_to_list fs).*1;
  glob_next := literal_next;
  glob_left := length;
  glob_next_lt := literal_next_lt
|}.

Definition predicate_tracks (prefix : Path) (pats : list string) (g : list Path)
    (seen : list Path) (fs : gmap Path node) : Prop :=
  ∃ tried, Forall (λ p, matched prefix pats p = true) g
           ∧ (∀ p, is_Some (fs !! p) → matched prefix pats p = true → p ∈ tried ++ g)
           ∧ ∀ q, q ∈ tried → is_Some (fs !! q) → q ∈ seen.

Lemma relative_to_Some (base p rel : Path) :
  relative_to base p = Some rel → base `prefix_of` p.
Proof.
  revert p. induction base as [|x base IH]; intros p; simpl.
  - intros _. apply prefix_nil.
  - destruct p as [|y p]; [done|]. destruct (decide (x = y)) as [->|]; [|done].
    intros H. by apply prefix_cons, IH.
Qed.

Lemma predicate_glob_lawful :
  glob_lawful predicate_glob (λ prefix pats _ p, matched prefix pats p = true)
    predicate_tracks.
Proof.
  split.
  - intros prefix pats fs. exists []. split; [|split].
    + simpl. apply Forall_forall. by intros p [? _]%list_elem_of_filter.
    + intros p [x Hx] Hm. simpl. apply list_elem_of_filter. split; [done|].
      apply list_elem_of_fmap. exists (p, x). split; [done|].
      by apply elem_of_map_to_list.
    + intros q Hin. by apply elem_of_nil in Hin.
  - intros prefix pats g seen fs p g' (tried & Hmatch & Hall & Htried) Hnext.
    simpl in Hnext. apply literal_next_Some in Hnext as (skipped & -> & Hsk & Hp).
    apply Forall_app in Hmatch as [_ [Hm Hmatch]%Forall_cons].
    repeat split; [done| |done|].
    + unfold matched in Hm. destruct (relative_to prefix p) eqn:E; [|done].
      by eapply relative_to_Some.
    + intros fs' Hsub. exists (tried ++ skipped ++ [p]). split; [done|]. split.
      * intros q [x Hx] Hq. rewrite <- !app_assoc. simpl.
        apply (Hall q); [|done]. exists x. by eapply lookup_weaken.
      * intros q [Hq|[Hq|Hq%list_elem_of_singleton]%elem_of_app]%elem_of_app [x Hx].
        -- right. apply Htried; [done|]. exists x. by eapply lookup_weaken.
        -- destruct (Hsk q Hq). exists x. by eapply lookup_weaken.
        -- subst q. left.
  - intros prefix pats g seen fs (tried & _ & Hall & Htried) Hnext p Hex Hsel.
    simpl in Hnext. apply Hall in Hsel; [|done].
    apply elem_of_app in Hsel as [Hin|Hin]; [by apply Htried|].
    by destruct (literal_next_None _ _ Hnext p Hin).
  - done.
Qed.

End PredicateGlob.

(** * Further properties of the script *)

(** ** [is_binary] by byte codes *)

(** X1: [is_binary] answers yes exactly when the data holds a byte that is
    neither one of the control codes 7, 8, 9, 10, 12, 13, 27 nor a code from
    32 up other than 127; in particular the empty data is not binary. *)
Theorem is_binary_codes (data : list byte) :
  is_binary data = true ↔
  ∃ c, c ∈ data
       ∧ (Byte.to_nat c ∉ [7; 8; 9; 10; 12; 13; 27])
       ∧ (Byte.to_nat c < 32 ∨ Byte.to_nat c = 127).
Proof.
  rewrite is_binary_true. split.
  - intros (c & Hin & Hc). exists c. split; [done|].
    rewrite TEXT_CHARS_codes in Hc. split; [tauto|].
    destruct (decide (Byte.to_nat c = 127)); [by right|].
    left. destruct (decide (Byte.to_nat c < 32)); [done|]. exfalso. apply Hc. right. lia.
  - intros (c & Hin & Hctl & Hlow). exists c. split; [done|].
    rewrite TEXT_CHARS_codes. intros [?|[? ?]]; [done|lia].
Qed.

(** ** What [_fix_shebangs] leaves behind *)






(** What becomes of an entry that the loop of [_fix_shebangs] is given. *)
Definition fixed (o : option node) : option node :=
  match o with
  | Some (File data) => Some (File (default data (new_content data)))
  | _ => o
  end.

Lemma fixed_fixed (o : option node) : fixed (fixed o) = fixed o.
Proof.
  destruct o as [[data| |]|]; try done. simpl.
  destruct (new_content data) as [d|] eqn:E; simpl.
  - apply new_content_Some in E as [_ ->]. done.
  - by rewrite E.
Qed.

(** One iteration, in full. *)
Lemma fix_shebang_cases (prefix q : Path) (st : store) :
  fix_shebang prefix q st =
  match files st !! q with
  | Some (File data) =>
      match new_content data with
      | Some data' =>
          log_relative Patched prefix q
            {| files := <[q := File data']> (files st); logged := logged st |}
      | None => (Ok tt, st)
      end
  | _ => (Ok tt, st)
  end.
Proof.
  unfold fix_shebang. monad_step.
  destruct (files st !! q) as [[data| |t]|] eqn:E.
  - destruct (is_file_File _ _ _ E) as [-> ->]. cbv beta iota zeta delta [negb orb].
    rewrite (open_rb_File _ _ _ E). unfold new_content.
    destruct (readline 1024 data) as [content rest].
    destruct (is_binary content); [done|].
    destruct (re_match shell_shebang_re content).
    { unfold write_bytes, modify_files. by monad_step. }
    destruct (re_match python_shebang_re content); [|done].
    unfold write_bytes, modify_files. by monad_step.
  - by destruct (is_file_Dir _ _ E) as [-> ->].
  - rewrite (is_symlink_Symlink _ _ _ E). by rewrite orb_true_r.
  - by destruct (is_file_None _ _ E) as [-> ->].
Qed.


Lemma fix_shebang_ok (prefix q : Path) (st : store) :
  prefix `prefix_of` q →
  ∃ st', fix_shebang prefix q st = (Ok tt, st')
         ∧ ∀ p, files st' !! p = if decide (p = q) then fixed (files st !! q)
                                 else files st !! p.
Proof.
  intros Hpre. rewrite fix_shebang_cases.
  destruct (files st !! q) as [[data| |t]|] eqn:E.
  - simpl. destruct (new_content data) as [d|] eqn:En.
    + destruct (log_relative_ok Patched prefix q
                  {| files := <[q := File d]> (files st); logged := logged st |} Hpre)
        as (st' & -> & Hf).
      exists st'. split; [done|]. intros p. rewrite Hf. simpl.
      destruct (decide (p = q)) as [->|]; [apply lookup_insert_eq|by apply lookup_insert_ne].
    + exists st. split; [done|]. intros p. by destruct (decide (p = q)) as [->|].
  - exists st. split; [done|]. intros p. by destruct (decide (p = q)) as [->|].
  - exists st. split; [done|]. intros p. by destruct (decide (p = q)) as [->|].
  - exists st. split; [done|]. intros p. by destruct (decide (p = q)) as [->|].
Qed.

(** The loop over any list of paths below the prefix. *)
Lemma fix_shebang_loop (prefix : Path) (paths : list Path) (st : store) :
  Forall (λ q, prefix `prefix_of` q) paths →
  ∃ st', for_each paths (fix_shebang prefix) st = (Ok tt, st')
         ∧ ∀ p, files st' !! p = if decide (p ∈ paths) then fixed (files st !! p)
                                 else files st !! p.
Proof.
  revert st. induction paths as [|q paths IH]; intros st Hpre.
  - exists st. split; [done|]. intros p. rewrite decide_False; [done|]. apply not_elem_of_nil.
  - apply Forall_cons in Hpre as [Hq Hpre].
    destruct (fix_shebang_ok prefix q st Hq) as (st1 & Hrun1 & Hst1).
    destruct (IH st1 Hpre) as (st' & Hrun & Hst').
    exists st'. split.
    + simpl. by erewrite bind_ok by exact Hrun1.
    + intros p. rewrite Hst', Hst1.
      destruct (decide (p = q)) as [->|Hne].
      * rewrite (decide_True (P := q ∈ q :: paths)) by left.
        destruct (decide (q ∈ paths)); [apply fixed_fixed|done].
      * destruct (decide (p ∈ paths)) as [Hin|Hin].
        -- by rewrite decide_True by by right.
        -- rewrite decide_False; [done|]. by intros [?|?]%elem_of_cons.
Qed.

(** [p] lies directly in the directory [d]. *)
Definition child_of (d p : Path) : Prop := length p = S (length d) ∧ d `prefix_of` p.

#[global] Instance child_of_dec d p : Decision (child_of d p).
Proof. unfold child_of. apply _. Defined.

(** The stage as a whole: when [bin] is a directory it returns, and an entry
    is changed only if it lies directly in [bin]. *)
Lemma fix_shebangs_store (prefix : Path) (st : store) :
  files st !! (prefix ++ ["bin"]) = Some Dir →
  ∃ st', _fix_shebangs prefix st = (Ok tt, st')
         ∧ ∀ p, files st' !! p = if decide (child_of (prefix ++ ["bin"]) p)
                                 then fixed (files st !! p) else files st !! p.
Proof.
  intros Hbin. unfold _fix_shebangs, iterdir.
  change (prefix // "bin") with (prefix ++ ["bin"]).
  unfold mbind at 1, M_bind, bind at 1. unfold mbind at 1, M_bind, bind at 1, get.
  cbv beta iota zeta. rewrite Hbin. cbv beta iota zeta delta [mret M_ret ret].
  set (paths := filter _ _).
  destruct (fix_shebang_loop prefix paths st) as (st' & Hrun & Hst').
  { apply Forall_forall. intros q [[_ Hq] _]%list_elem_of_filter.
    etrans; [|exact Hq]. by apply prefix_app_r. }
  exists st'. split; [done|]. intros p. rewrite Hst'.
  destruct (decide (child_of (prefix ++ ["bin"]) p)) as [Hc|Hc].
  - destruct (decide (p ∈ paths)) as [|Hin]; [done|].
    destruct (files st !! p) as [x|] eqn:E; [|done].
    destruct Hin. apply list_elem_of_filter. split; [done|].
    apply list_elem_of_fmap. exists (p, x). split; [done|]. by apply elem_of_map_to_list.
  - rewrite decide_False; [done|]. by intros [? _]%list_elem_of_filter.
Qed.


(** X3: with [bin] a directory, [_fix_shebangs] returns normally and leaves
    the tree as it was except for the regular files directly in [bin] whose
    first line matched: no path appears or disappears, and links,
    directories, files elsewhere and files deeper in [bin] keep what they
    held. *)
Theorem fix_shebangs_frame (prefix p : Path) (st : store) :
  files st !! (prefix ++ ["bin"]) = Some Dir →
  (_fix_shebangs prefix st).1 = Ok tt
  ∧ (is_Some (files (_fix_shebangs prefix st).2 !! p) ↔ is_Some (files st !! p))
  ∧ (¬ (child_of (prefix ++ ["bin"]) p ∧ ∃ data, files st !! p = Some (File data)) →
     files (_fix_shebangs prefix st).2 !! p = files st !! p).
Proof.
  intros Hbin. destruct (fix_shebangs_store prefix st Hbin) as (st' & -> & Hst').
  simpl. rewrite Hst'. split; [done|]. split.
  - destruct (decide (child_of _ p)); [|done]. by destruct (files st !! p) as [[]|].
  - intros Hno. destruct (decide (child_of _ p)) as [Hc|]; [|done].
    destruct (files st !! p) as [[data| |]|] eqn:E; try done.
    destruct Hno. eauto.
Qed.

Lemma fix_shebangs_frame_witness :
  let st := {| files := list_to_map [(["p"], Dir); (["p"; "bin"], Dir);
                                     (["p"; "bin"; "sh"], Symlink ["p"; "bin"; "run"]);
                                     (["p"; "bin"; "run"], File (bytes_of "#!/bin/sh"))];
               logged := [] |} in
  files (_fix_shebangs ["p"] st).2 !! ["p"; "bin"; "sh"] = files st !! ["p"; "bin"; "sh"].
Proof.
  intros st.
  refine (proj2 (proj2 (fix_shebangs_frame ["p"] ["p"; "bin"; "sh"] st _)) _).
  - reflexivity.
  - intros [_ [data Hd]]. discriminate.
Defined.


Lemma readline_line_short (size : nat) (data : list byte) :
  line_length data ≤ size → (readline size data).1 = take (line_length data) data.
Proof.
  revert data. induction size as [|size IH]; intros [|c data]; simpl; try done.
  - destruct (Byte.eqb c x0a); lia.
  - destruct (Byte.eqb c x0a); [done|]. intros Hlen.
    specialize (IH data ltac:(lia)). destruct (readline size data). simpl in *.
    by rewrite IH.
Qed.

(** X5: a regular file directly in [bin] whose first line, newline
    included, is at most 1024 bytes long, holds no byte that [is_binary]
    rejects and matches the shell pattern, or else the Python pattern, is
    rewritten to the target shebang line followed by every byte after its
    first line.  The shell pattern is tried first. *)
Theorem fix_shebangs_replaces_first_line (prefix p : Path) (st : store)
    (data : list byte) :
  files st !! (prefix ++ ["bin"]) = Some Dir →
  child_of (prefix ++ ["bin"]) p →
  files st !! p = Some (File data) →
  line_length data ≤ 1024 →
  let line := take (line_length data) data in
  is_binary line = false →
  (re_match shell_shebang_re line = true →
   files (_fix_shebangs prefix st).2 !! p
   = Some (File (shell_shebang ++ rest_after_line data)))
  ∧ (re_match shell_shebang_re line = false →
     re_match python_shebang_re line = true →
     files (_fix_shebangs prefix st).2 !! p
     = Some (File (python_shebang ++ rest_after_line data))).
Proof.
  intros Hbin Hchild Hp Hlen line Htext.
  destruct (fix_shebangs_store prefix st Hbin) as (st' & -> & Hst').
  simpl. rewrite Hst', decide_True, Hp by done. simpl.
  unfold new_content.
  pose proof (readline_line_short 1024 data Hlen) as Hline.
  pose proof (readline_short 1024 data Hlen) as Hrest.
  destruct (readline 1024 data) as [content rest]. simpl in Hline, Hrest.
  subst content rest. fold line. rewrite Htext. split.
  - by intros ->.
  - by intros -> ->.
Qed.

Lemma fix_shebangs_replaces_first_line_witness :
  let data := bytes_of "#!/usr/bin/env python3.13" ++ [x0a] ++ bytes_of "print(1)" ++ [x0a] in
  let st := {| files := list_to_map [(["p"], Dir); (["p"; "bin"], Dir);
                                     (["p"; "bin"; "pip"], File data)];
               logged := [] |} in
  files (_fix_shebangs ["p"] st).2 !! ["p"; "bin"; "pip"]
  = Some (File (python_shebang ++ bytes_of "print(1)" ++ [x0a])).
Proof.
  intros data st.
  refine (proj2 (fix_shebangs_replaces_first_line ["p"] ["p"; "bin"; "pip"] st data
                   _ _ _ _ _) _ _).
  - reflexivity.
  - split; [reflexivity|]. by exists ["pip"].
  - reflexivity.
  - vm_compute. lia.
  - vm_compute. reflexivity.
  - vm_compute. reflexivity.
  - vm_compute. reflexivity.
Defined.



(** ** What [_debloat] does and never does *)

Lemma bind_invariant {S A B} (I : S → Prop) (m : M S A) (k : A → M S B) (s : S) :
  I (m s).2 → (∀ a s', I s' → I (k a s').2) → I ((m ≫= k) s).2.
Proof.
  intros Hm Hk. unfold mbind, M_bind, bind.
  destruct (m s) as [[a|e] s']; [by apply Hk|done].
Qed.

Lemma for_each_invariant {S A} (I : S → Prop) (body : A → M S unit) (xs : list A) :
  (∀ x s, I s → I (body x s).2) → ∀ s, I s → I (for_each xs body s).2.
Proof.
  intros Hbody. induction xs as [|x xs IH]; intros s Hs; [done|].
  simpl. apply bind_invariant; [by apply Hbody|]. intros _ s'. apply IH.
Qed.

(** X7: whatever the glob yields and however the run ends, [_debloat] only
    removes: every entry of the tree it leaves was an entry of the tree it
    was given, with the same content. *)
Theorem debloat_only_removes (G : Globber) (debloat_patterns : list debloat_pattern)
    (prefix : Path) (st : store) :
  files (_debloat G debloat_patterns prefix st).2 ⊆ files st.
Proof.
  unfold _debloat.
  apply (bind_invariant (λ s, files s ⊆ files st)).
  - apply (for_glob_invariant G (λ s, files s ⊆ files st)); [|done].
    intros p s Hs. etrans; [apply remove_path_subseteq|done].
  - intros _ s Hs. apply (for_each_invariant (λ s, files s ⊆ files st)); [|done].
    intros [pats kinds] s' Hs'. unfold debloat_conditional.
    apply (for_glob_invariant G (λ s, files s ⊆ files st)); [|done].
    intros p s'' Hs''. etrans; [apply remove_path_if_subseteq|done].
Qed.

(** A loop whose body does nothing does nothing. *)
Lemma drain_noop (G : Globber) (body : Path → M store unit) (st : store) :
  (∀ p, body p st = (Ok tt, st)) →
  ∀ fuel g, drain G fuel g body st = (Ok tt, st).
Proof.
  intros Hbody. induction fuel as [|fuel IH]; intros g; [done|].
  simpl. destruct (glob_next G g (files st)) as [[p g']|]; [|done].
  rewrite Hbody. apply IH.
Qed.

(** X8: a conditional rule whose delete-set names none of [file], [dir] and
    [symlink] in any letter case removes nothing and logs nothing, whatever
    its pattern matches; such is the empty set, and such is a set given as
    the one string ["file"], which is read as its letters. *)
Theorem debloat_conditional_no_kind (G : Globber) (prefix : Path)
    (raw_pattern rm_if : list string) (st : store) :
  Forall (λ k, str_lower k ∉ ["file"; "dir"; "symlink"]) rm_if →
  debloat_conditional G prefix raw_pattern rm_if st = (Ok tt, st).
Proof.
  intros Hnone. unfold debloat_conditional, for_glob.
  assert (∀ w, w ∈ ["file"; "dir"; "symlink"] → w ∉ (str_lower <$> rm_if)) as Hout.
  { intros w Hw [k [-> Hk]]%list_elem_of_fmap.
    eapply Forall_forall in Hnone; [|exact Hk]. done. }
  rewrite !bool_decide_eq_false_2 by (apply Hout; set_solver).
  apply drain_noop. intros p. rewrite remove_path_if_cases.
  destruct (files st !! p) as [[]|]; try done. by rewrite andb_false_r.
Qed.

Lemma debloat_conditional_no_kind_witness :
  let st := {| files := list_to_map [(["p"], Dir); (["p"; "lib"], Dir);
                                     (["p"; "lib"; "libz.a"], File [x21])];
               logged := [] |} in
  debloat_conditional literal_glob ["p"] ["lib/libz.a"; "lib"] ["f"; "i"; "l"; "e"] st
  = (Ok tt, st).
Proof.
  intros st.
  apply (debloat_conditional_no_kind literal_glob ["p"] ["lib/libz.a"; "lib"]
           ["f"; "i"; "l"; "e"] st).
  repeat constructor;
    match goal with |- ?P => apply (bool_decide_unpack P); vm_compute; exact I end.
Defined.

(** X9: when a loop body of [_debloat] is given a symbolic link it never
    removes anything but the link itself.  The first loop always removes
    it; a conditional rule removes it exactly when its delete-set names
    links, or names files while the link leads to a regular file, so that a
    set that names directories alone keeps every link, also one to a
    directory. *)
Theorem debloat_on_link (prefix p t : Path) (st : store) (rm_file rm_dir rm_symlink : bool) :
  files st !! p = Some (Symlink t) →
  files (remove_path prefix p st).2 = delete p (files st)
  ∧ files (remove_path_if rm_file rm_dir rm_symlink prefix p st).2
    = (if rm_symlink || (is_file (files st) p && rm_file)
       then delete p (files st) else files st)
  ∧ (rm_file = false → rm_symlink = false →
     remove_path_if rm_file rm_dir rm_symlink prefix p st = (Ok tt, st)).
Proof.
  intros Hp. rewrite remove_path_cases, remove_path_if_cases, Hp.
  rewrite log_relative_files. split; [done|]. split.
  - destruct (rm_symlink || _); [by rewrite log_relative_files|done].
  - intros -> ->. by rewrite andb_false_r.
Qed.

Lemma debloat_on_link_witness :
  let st := {| files := list_to_map [(["p"], Dir); (["p"; "lib"], Dir);
                                     (["p"; "lib64"], Symlink ["p"; "lib"])];
               logged := [] |} in
  remove_path_if false true false ["p"] ["p"; "lib64"] st = (Ok tt, st).
Proof.
  intros st.
  refine (proj2 (proj2 (debloat_on_link ["p"] ["p"; "lib64"] ["p"; "lib"] st
                          false true false _)) _ _); reflexivity.
Defined.

(** X10: under the contract of the glob, what [_debloat] leaves is what the
    rules ask for: no entry that is left is selected by the plain patterns,
    and every entry that is left and selected by the pattern of a
    conditional rule is one that this rule does not remove (a directory
    under a set without [dir], a regular file under a set without [file], a
    link under a set without [symlink] that does not lead to a regular file
    while the set names files). *)
Theorem debloat_postcondition (G : Globber)
    (selects : Path → list string → gmap Path node → Path → Prop)
    (tracks : Path → list string → gen G → list Path → gmap Path node → Prop)
    (debloat_patterns : list debloat_pattern) (prefix : Path) (st : store) :
  glob_lawful G selects tracks →
  let patterns :=
    omap (λ p, match p with Pattern s => Some s | _ => None end) debloat_patterns in
  let rules :=
    omap (λ p, match p with Conditional r k => Some (r, k) | _ => None end)
      debloat_patterns in
  ∃ st1,
    _debloat G debloat_patterns prefix st = (Ok tt, st1)
    ∧ (∀ p, is_Some (files st1 !! p) → ¬ selects prefix patterns (files st1) p)
    ∧ ∀ rule p, rule ∈ rules → is_Some (files st1 !! p) →
                selects prefix rule.1 (files st1) p →
                let kinds := str_lower <$> rule.2 in
                match files st1 !! p with
                | Some Dir => "dir" ∉ kinds
                | Some (File _) => "file" ∉ kinds
                | Some (Symlink _) =>
                    ("symlink" ∉ kinds) ∧ ("file" ∉ kinds ∨ is_file (files st1) p = false)
                | None => True
                end.
Proof.
  intros lawful patterns rules.
  destruct (unconditional_first_run G selects tracks lawful prefix patterns st)
    as (st0 & Hu & Hsub0 & Hclean).
  destruct (conditionals_first_run G selects tracks lawful prefix rules st0)
    as (st1 & Hc & Hsub1 & Hset).
  exists st1. split; [|split].
  - unfold _debloat. fold patterns rules. erewrite bind_ok by exact Hu. exact Hc.
  - by apply (clean_weaken G selects tracks lawful prefix patterns (files st0)).
  - intros rule p Hrule Hex Hsel kinds.
    eapply Forall_forall in Hset; [|exact Hrule].
    specialize (Hset p Hex Hsel). unfold quiet in Hset. fold kinds in Hset.
    destruct (files st1 !! p) as [[]|]; try done.
    + by apply bool_decide_eq_false_1 in Hset.
    + by apply bool_decide_eq_false_1 in Hset.
    + apply orb_false_iff in Hset as [Hs Hf]. split.
      * by apply bool_decide_eq_false_1 in Hs.
      * apply andb_false_iff in Hf as [Hf|Hf]; [by right|left].
        by apply bool_decide_eq_false_1 in Hf.
Qed.

Lemma debloat_postcondition_witness :
  let rules := [Pattern "share"; Conditional ["lib/libz.a"; "lib"] ["file"]] in
  let st := {| files := list_to_map [(["p"], Dir); (["p"; "share"], Dir);
                                     (["p"; "share"; "man.1"], File [x2e]);
                                     (["p"; "lib"], Dir);
                                     (["p"; "lib"; "libz.a"], File [x21])];
               logged := [] |} in
  ∃ st1, _debloat literal_glob rules ["p"] st = (Ok tt, st1)
         ∧ ∀ p, is_Some (files st1 !! p) →
                ¬ literal_selects ["p"] ["share"] (files st1) p.
Proof.
  intros rules st.
  destruct (debloat_postcondition literal_glob literal_selects literal_tracks rules ["p"] st
              literal_glob_lawful) as (st1 & Hrun & Hclean & _).
  exists st1. split; [exact Hrun|exact Hclean].
Defined.

(** ** What [parse_module_prop] returns *)

Lemma universal_newlines_no_cr (s : string) : has_char cr (universal_newlines s) = false.
Proof.
  induction s as [|a s IH]; [done|]. simpl.
  destruct (Ascii.eqb a cr) eqn:Ha.
  - destruct s as [|c s]; [done|].
    destruct (Ascii.eqb c nl) eqn:Hc; [|done].
    simpl in IH. destruct (Ascii.eqb c cr) eqn:Hc'.
    + apply Ascii.eqb_eq in Hc, Hc'. subst. done.
    + simpl in IH. by apply orb_false_iff in IH as [_ IH].
  - simpl. by rewrite Ha.
Qed.

(** A newline can only be the last character. *)
Fixpoint nl_only_last (s : string) : bool :=
  match s with
  | "" => true
  | String a s' =>
      match s' with
      | "" => true
      | _ => negb (Ascii.eqb a nl) && nl_only_last s'
      end
  end.

Lemma nl_only_last_tail a s : nl_only_last (String a s) = true → nl_only_last s = true.
Proof. simpl. destruct s; [done|]. by intros [_ ?]%andb_true_iff. Qed.

Lemma readlines_nl_only_last (s : string) :
  Forall (λ l, nl_only_last l = true) (readlines s).
Proof.
  induction s as [|a s IH]; simpl; [constructor|].
  destruct (Ascii.eqb a nl) eqn:Ha; [by constructor|].
  destruct (readlines s) as [|l ls]; [by repeat constructor|].
  apply Forall_cons in IH as [Hl Hls]. constructor; [|done].
  simpl. destruct l; [done|]. by rewrite Ha, Hl.
Qed.

Lemma readlines_has_char (c : ascii) (s : string) :
  has_char c s = false → Forall (λ l, has_char c l = false) (readlines s).
Proof.
  induction s as [|a s IH]; simpl; [constructor|].
  intros [Ha Hs]%orb_false_iff. specialize (IH Hs).
  destruct (Ascii.eqb a nl) eqn:Hnl.
  - constructor; [|done]. simpl. rewrite orb_false_r.
    apply Ascii.eqb_eq in Hnl. by subst a.
  - destruct (readlines s) as [|l ls].
    + repeat constructor. simpl. by rewrite Ha.
    + apply Forall_cons in IH as [Hl Hls]. constructor; [|done]. simpl. by rewrite Ha, Hl.
Qed.

Lemma lstrip_has_char c s : has_char c s = false → has_char c (lstrip s) = false.
Proof.
  induction s as [|a s IH]; [done|]. simpl.
  intros [Ha Hs]%orb_false_iff. destruct (is_space a); [by apply IH|].
  simpl. by rewrite Ha, Hs.
Qed.

Lemma rstrip_has_char c s : has_char c s = false → has_char c (rstrip s) = false.
Proof.
  induction s as [|a s IH]; [done|]. simpl.
  intros [Ha Hs]%orb_false_iff. specialize (IH Hs).
  destruct (rstrip s) as [|b r].
  - destruct (is_space a); [done|]. simpl. by rewrite Ha.
  - simpl in *. by rewrite Ha, IH.
Qed.

Lemma lstrip_nl_only_last s : nl_only_last s = true → nl_only_last (lstrip s) = true.
Proof.
  induction s as [|a s IH]; [done|]. intros H. simpl lstrip.
  destruct (is_space a); [|done]. apply IH. by eapply nl_only_last_tail.
Qed.

Lemma rstrip_no_nl s : nl_only_last s = true → has_char nl (rstrip s) = false.
Proof.
  induction s as [|a s IH]; [done|]. intros H.
  destruct s as [|c s].
  - simpl. destruct (is_space a) eqn:Hsp; [done|]. simpl.
    destruct (Ascii.eqb a nl) eqn:Ha; [|done].
    apply Ascii.eqb_eq in Ha. subst a. done.
  - simpl in H. apply andb_true_iff in H as [Ha Hs]. apply negb_true_iff in Ha.
    specialize (IH Hs). change (rstrip (String a (String c s)))
      with (match rstrip (String c s) with
            | "" => if is_space a then "" else String a ""
            | r => String a r
            end).
    destruct (rstrip (String c s)) as [|b r].
    + destruct (is_space a); [done|]. simpl. by rewrite Ha.
    + simpl in *. by rewrite Ha, IH.
Qed.

Lemma lstrip_first (s : string) :
  lstrip s = "" ∨ ∃ a r, lstrip s = String a r ∧ is_space a = false.
Proof.
  induction s as [|a s IH]; [by left|]. simpl.
  destruct (is_space a) eqn:Ha; [done|]. right. by exists a, s.
Qed.

Lemma rstrip_first (a : ascii) (s : string) :
  is_space a = false → ∃ r, rstrip (String a s) = String a r.
Proof.
  intros Ha. simpl. destruct (rstrip s) as [|b r].
  - rewrite Ha. by exists "".
  - by eexists.
Qed.

Lemma rstrip_rstrip (s : string) : rstrip (rstrip s) = rstrip s.
Proof.
  induction s as [|a s IH]; [done|]. simpl.
  destruct (rstrip s) as [|b r] eqn:E.
  - destruct (is_space a) eqn:Ha; [done|]. simpl. by rewrite Ha.
  - change (rstrip (String a (String b r)))
      with (match rstrip (String b r) with
            | "" => if is_space a then "" else String a ""
            | r' => String a r'
            end).
    by rewrite IH.
Qed.

Lemma rstrip_fixed_suffix (s v : string) :
  rstrip (s +:+ v) = s +:+ v → rstrip v = v.
Proof.
  induction s as [|a s IH]; [done|]. rewrite str_app_cons. simpl.
  destruct (rstrip (s +:+ v)) as [|b r] eqn:E.
  - destruct (is_space a); [done|]. intros [= H]. symmetry in H.
    apply str_app_empty in H. by subst v.
  - intros [= H]. by apply IH.
Qed.

Lemma str_partition_app (sep : ascii) (s : string) :
  let '(k, m, v) := str_partition sep s in
  s = k +:+ m +:+ v ∧ has_char sep k = false
  ∧ (m = String sep "" ∨ (m = "" ∧ v = "")).
Proof.
  induction s as [|a s IH]; simpl; [auto|].
  destruct (Ascii.eqb a sep) eqn:Ha.
  - apply Ascii.eqb_eq in Ha. subst a. auto.
  - destruct (str_partition sep s) as [[k m] v]. destruct IH as (-> & Hk & Hm).
    rewrite str_app_cons. simpl. rewrite Ha. auto.
Qed.

(** The item that a stripped line which is no comment gives is plain. *)
Lemma parsed_item_plain (line : string) :
  nl_only_last line = true → has_char cr line = false →
  startswith "#" (strip line) = false →
  let '(k, _, v) := str_partition "=" (strip line) in plain_item (k, v) = true.
Proof.
  intros Hnl Hcr Hhash.
  assert (has_char nl (strip line) = false) as Hnl'
    by by apply rstrip_no_nl, lstrip_nl_only_last.
  assert (has_char cr (strip line) = false) as Hcr'
    by by apply rstrip_has_char, lstrip_has_char.
  assert (rstrip (strip line) = strip line) as Hr by apply rstrip_rstrip.
  assert (strip line = "" ∨ ∃ a r, strip line = String a r ∧ is_space a = false) as Hfirst.
  { unfold strip. destruct (lstrip_first line) as [->|(a & r & -> & Ha)]; [by left|].
    right. destruct (rstrip_first a r Ha) as [r' ->]. by exists a, r'. }
  pose proof (str_partition_app "=" (strip line)) as Hpart.
  destruct (str_partition "=" (strip line)) as [[k m] v].
  destruct Hpart as (Heq & Hk & Hm).
  rewrite Heq in Hnl', Hcr', Hr, Hhash, Hfirst.
  rewrite !has_char_app in Hnl', Hcr'.
  apply orb_false_iff in Hnl' as [Hnk [_ Hnv]%orb_false_iff].
  apply orb_false_iff in Hcr' as [Hck [_ Hcv]%orb_false_iff].
  unfold plain_item. simpl. rewrite Hk, Hnk, Hck, Hnv, Hcv. simpl.
  assert (startswith "#" k = false ∧ lstrip k = k) as [-> ->].
  { destruct k as [|a k]; [done|]. rewrite str_app_cons in Hhash, Hfirst.
    rewrite startswith_char in *. split; [done|].
    destruct Hfirst as [|(a' & r & [= <- _] & Ha)]; [done|]. simpl. by rewrite Ha. }
  assert (rstrip v = v) as ->.
  { rewrite <- str_app_assoc in Hr. by apply rstrip_fixed_suffix in Hr. }
  by rewrite !String.eqb_refl.
Qed.

Lemma odict_set_keys (k v : string) (d : list (string * string)) :
  (odict_set k v d).*1 = if decide (k ∈ d.*1) then d.*1 else d.*1 ++ [k].
Proof.
  induction d as [|[k' v'] d IH]; [done|]. cbn [odict_set].
  destruct (decide (k = k')) as [->|Hne]; rewrite !fmap_cons; cbn [fst].
  - by rewrite decide_True by left.
  - rewrite IH. destruct (decide (k ∈ d.*1)) as [Hin|Hin].
    + by rewrite decide_True by by right.
    + rewrite decide_False; [done|]. by intros [?|?]%elem_of_cons.
Qed.

Lemma odict_set_Forall (P : string * string → Prop) k v (d : list (string * string)) :
  P (k, v) → Forall P d → Forall P (odict_set k v d).
Proof.
  intros Hkv. induction 1 as [|[k' v'] d Hx Hd IH]; simpl; [by repeat constructor|].
  destruct (decide (k = k')); by constructor.
Qed.

Lemma odict_set_NoDup k v (d : list (string * string)) :
  NoDup d.*1 → NoDup (odict_set k v d).*1.
Proof.
  intros Hnd. rewrite odict_set_keys. destruct (decide (k ∈ d.*1)); [done|].
  apply NoDup_app. repeat split; [done| |apply NoDup_singleton].
  intros x Hx Hk%list_elem_of_singleton. by subst.
Qed.

Lemma parse_module_prop_plain (module_prop : string) :
  NoDup (parse_module_prop module_prop).*1
  ∧ Forall (λ kv, plain_item kv = true) (parse_module_prop module_prop).
Proof.
  unfold parse_module_prop.
  pose proof (readlines_nl_only_last (universal_newlines module_prop)) as Hnl.
  pose proof (readlines_has_char cr _ (universal_newlines_no_cr module_prop)) as Hcr.
  revert Hnl Hcr. generalize (readlines (universal_newlines module_prop)). intros lines.
  assert (NoDup (@nil (string * string)).*1 ∧ Forall (λ kv, plain_item kv = true) [])
    as Hacc by (split; constructor).
  revert Hacc. generalize (@nil (string * string)).
  induction lines as [|line lines IH]; intros acc Hacc Hnl Hcr; [done|].
  apply Forall_cons in Hnl as [Hnl Hnls]. apply Forall_cons in Hcr as [Hcr Hcrs].
  simpl. apply IH; [|done|done].
  destruct (startswith "#" (strip line)) eqn:Hhash; [done|].
  pose proof (parsed_item_plain line Hnl Hcr Hhash) as Hitem.
  destruct (str_partition "=" (strip line)) as [[k m] v]. destruct Hacc as [Hnd Hall].
  split; [by apply odict_set_NoDup|by apply odict_set_Forall].
Qed.

(** X11: whatever the text of the properties file, the dict that
    [parse_module_prop] returns has every key once, and in every item the
    key holds no [=], neither key nor value holds a line break, the key
    does not start with [#] or with whitespace, and the value does not end
    with whitespace. *)
Theorem parse_module_prop_items (module_prop : string) :
  NoDup (parse_module_prop module_prop).*1
  ∧ ∀ k v, (k, v) ∈ parse_module_prop module_prop →
           has_char "=" k = false
           ∧ has_char nl k = false ∧ has_char cr k = false
           ∧ has_char nl v = false ∧ has_char cr v = false
           ∧ startswith "#" k = false
           ∧ lstrip k = k ∧ rstrip v = v.
Proof.
  destruct (parse_module_prop_plain module_prop) as [Hnd Hall].
  split; [done|]. intros k v Hin.
  eapply Forall_forall in Hall; [|exact Hin]. unfold plain_item in Hall. simpl in Hall.
  rewrite !andb_true_iff, !negb_true_iff, !String.eqb_eq in Hall. tauto.
Qed.

Lemma parse_format_plain (props : list (string * string)) :
  Forall (λ kv, plain_item kv = true) props → NoDup props.*1 →
  parse_module_prop (format_module_prop props) = props.
Proof.
  intros Hplain Hnd. unfold parse_module_prop.
  destruct (readlines_format props Hplain) as [Hcr Hlines].
  rewrite universal_newlines_id by done. rewrite Hlines.
  by rewrite parse_lines_plain.
Qed.

(** X12: writing the parsed dict out and parsing it again gives the same
    dict, for every text: one pass through [parse_module_prop] and
    [format_module_prop] brings a properties file into a form that further
    passes leave byte for byte as it is. *)
Theorem module_prop_normal_form (module_prop : string) :
  let written := format_module_prop (parse_module_prop module_prop) in
  parse_module_prop written = parse_module_prop module_prop
  ∧ format_module_prop (parse_module_prop written) = written.
Proof.
  intros written. destruct (parse_module_prop_plain module_prop) as [Hnd Hall].
  assert (parse_module_prop written = parse_module_prop module_prop) as H
    by by apply parse_format_plain.
  split; [done|]. unfold written at 2. by rewrite <- H.
Qed.

(** ** The description line of the packaged [module.prop] *)

Lemma odict_set_present (k v : string) (d : list (string * string)) :
  NoDup d.*1 → k ∈ d.*1 →
  odict_set k v d = (λ kv, if decide (kv.1 = k) then (k, v) else kv) <$> d.
Proof.
  induction d as [|[k' v'] d IH]; [by intros _ ?%elem_of_nil|].
  rewrite fmap_cons. cbn [fst]. intros [Hk' Hnd]%NoDup_cons Hin.
  cbn [odict_set]. rewrite fmap_cons. cbn [fst].
  destruct (decide (k = k')) as [->|Hne].
  - rewrite decide_True by done. f_equal.
    clear IH Hin Hnd. induction d as [|[k v''] d IH]; [done|].
    rewrite fmap_cons in Hk'. cbn [fst] in Hk'. apply not_elem_of_cons in Hk' as [Hne Hk'].
    rewrite fmap_cons. cbn [fst]. rewrite decide_False by done. f_equal. by apply IH.
  - rewrite decide_False by done. f_equal. apply IH; [done|].
    by apply elem_of_cons in Hin as [?|?].
Qed.

Lemma odict_set_absent (k v : string) (d : list (string * string)) :
  k ∉ d.*1 → odict_set k v d = d ++ [(k, v)].
Proof.
  induction d as [|[k' v'] d IH]; [done|].
  rewrite fmap_cons. cbn [fst]. intros [Hne Hk]%not_elem_of_cons.
  cbn [odict_set]. rewrite decide_False by done. simpl. f_equal. by apply IH.
Qed.

(** X13: the [module.prop] that [_package_module] puts into the archive is
    the parsed file written out line by line, with one change: the line of
    the key [description] holds the generated description, at the place the
    key had in the file, and when the file has no such key the line is added
    as the last one.  No other line moves or changes. *)
Theorem package_module_prop_description (module_prop cpython_version : string) :
  let props := parse_module_prop module_prop in
  let line := ("description", "CPython " +:+ cpython_version +:+ " for Android") in
  let props' :=
    if decide ("description" ∈ props.*1)
    then (λ kv, if decide (kv.1 = "description") then line else kv) <$> props
    else props ++ [line] in
  package_props module_prop cpython_version = props'
  ∧ packaged_module_prop module_prop cpython_version
    = foldr (λ kv s, kv.1 +:+ "=" +:+ kv.2 +:+ String nl "" +:+ s) "" props'.
Proof.
  intros props line props'.
  assert (package_props module_prop cpython_version = props') as H.
  { unfold package_props, props'. fold props.
    destruct (parse_module_prop_plain module_prop) as [Hnd _]. fold props in Hnd.
    destruct (decide ("description" ∈ props.*1)).
    - by apply odict_set_present.
    - by apply odict_set_absent. }
  split; [done|]. unfold packaged_module_prop. rewrite H.
  rewrite format_module_prop_lines. unfold prop_line. clear H.
  induction props' as [|kv l IH]; [done|]. simpl. rewrite IH.
  by rewrite !str_app_assoc.
Qed.

(** ** The host loop of [ModuleBuilder.build] *)



(** ** The [--clean] loop *)

(** [p] lies strictly below the directory [d]. *)
Definition below (d p : Path) : Prop := d `prefix_of` p ∧ p ≠ d.

#[global] Instance below_dec d p : Decision (below d p).
Proof. unfold below. apply _. Defined.

#[global] Instance node_eq_dec : EqDecision node.
Proof. solve_decision. Defined.

(** Every entry below [d] has its parent directory: the entries below [d]
    form a tree. *)
Definition in_directories (d : Path) (fs : gmap Path node) : Prop :=
  map_Forall (λ p _, below d p → fs !! removelast p = Some Dir) fs.

#[global] Instance in_directories_dec d fs : Decision (in_directories d fs).
Proof. unfold in_directories. apply _. Defined.

Lemma in_directories_parent (d p : Path) (x : string) (fs : gmap Path node) :
  in_directories d fs → d `prefix_of` p → is_Some (fs !! (p ++ [x])) →
  fs !! p = Some Dir.
Proof.
  intros Htree Hpre [n Hn]. specialize (Htree _ _ Hn). cbv beta in Htree.
  rewrite removelast_last in Htree. apply Htree. split.
  - by apply prefix_app_r.
  - intros <-. apply prefix_length in Hpre. rewrite length_app in Hpre. simpl in Hpre. lia.
Qed.

Lemma in_directories_ancestor (d q suffix : Path) (fs : gmap Path node) :
  in_directories d fs → d `prefix_of` q → is_Some (fs !! (q ++ suffix)) →
  is_Some (fs !! q).
Proof.
  intros Htree Hpre. induction suffix as [|x suffix IH] using rev_ind.
  - by rewrite app_nil_r.
  - rewrite app_assoc. intros Hsome. apply IH.
    rewrite (in_directories_parent d (q ++ suffix) x fs); [done..| |done].
    by apply prefix_app_r.
Qed.

Lemma in_directories_leaf (d c suffix : Path) (fs : gmap Path node) :
  in_directories d fs → d `prefix_of` c → fs !! c ≠ Some Dir → suffix ≠ [] →
  fs !! (c ++ suffix) = None.
Proof.
  intros Htree Hpre Hc. induction suffix as [|x suffix IH] using rev_ind; [done|].
  intros _. destruct (fs !! (c ++ suffix ++ [x])) as [n|] eqn:E; [|done].
  exfalso. rewrite app_assoc in E.
  assert (fs !! (c ++ suffix) = Some Dir) as Hdir.
  { apply (in_directories_parent d _ x); [done| |by eexists]. by apply prefix_app_r. }
  destruct suffix as [|y suffix]; [by rewrite app_nil_r in Hdir|].
  by rewrite IH in Hdir.
Qed.

Lemma clean_path_cases (p : Path) (st : store) :
  clean_path p st =
  match files st !! p with
  | Some Dir => (Ok tt, without_tree p st)
  | Some (File _) | Some (Symlink _) => (Ok tt, without p st)
  | None => (Raise (OSError p), st)
  end.
Proof.
  unfold clean_path. monad_step.
  destruct (files st !! p) as [[data| |t]|] eqn:E.
  - rewrite (is_dir_File _ _ _ E). cbv beta iota zeta delta [andb].
    unfold unlink. monad_step. by rewrite E.
  - rewrite (is_dir_Dir _ _ E). destruct (is_file_Dir _ _ E) as [_ ->].
    cbv beta iota zeta delta [andb negb].
    unfold rmtree. monad_step. by rewrite E.
  - rewrite (is_symlink_Symlink _ _ _ E). rewrite andb_false_r.
    unfold unlink. monad_step. by rewrite E.
  - rewrite (is_dir_None _ _ E). cbv beta iota zeta delta [andb].
    unfold unlink. monad_step. by rewrite E.
Qed.

(** One entry of a tree goes with all that is below it, whatever its kind. *)
Lemma clean_path_tree (d c : Path) (st : store) :
  in_directories d (files st) → d `prefix_of` c → is_Some (files st !! c) →
  ∃ st', clean_path c st = (Ok tt, st') ∧ logged st' = logged st
         ∧ ∀ p, files st' !! p = if decide (c `prefix_of` p) then None else files st !! p.
Proof.
  intros Htree Hpre [n Hn]. rewrite clean_path_cases, Hn.
  assert (n ≠ Dir → ∀ p, files (without c st) !! p
               = if decide (c `prefix_of` p) then None else files st !! p) as Hwithout.
  { intros Hleaf p. unfold without. simpl. destruct (decide (c `prefix_of` p)) as [[k ->]|Hp].
    - destruct k as [|x k].
      + rewrite app_nil_r. apply lookup_delete_eq.
      + rewrite lookup_delete_ne.
        * apply (in_directories_leaf d); [done|done|rewrite Hn; congruence|done].
        * intros H. apply (f_equal length) in H. rewrite length_app in H. simpl in H. lia.
    - apply lookup_delete_ne. by intros ->. }
  destruct n as [data| |t].
  - eexists. split; [done|]. split; [done|]. by apply Hwithout.
  - eexists. split; [done|]. split; [done|]. intros p. apply without_tree_lookup.
  - eexists. split; [done|]. split; [done|]. by apply Hwithout.
Qed.

Lemma clean_children (d : Path) (cs : list Path) (st : store) :
  NoDup cs → in_directories d (files st) →
  (∀ c, c ∈ cs → child_of d c ∧ is_Some (files st !! c)) →
  ∃ st', for_each cs clean_path st = (Ok tt, st') ∧ logged st' = logged st
         ∧ ∀ p, files st' !! p
                = if decide (Exists (λ c, c `prefix_of` p) cs) then None else files st !! p.
Proof.
  revert st. induction cs as [|c cs IH]; intros st Hnd Htree Hcs.
  - exists st. split; [done|]. split; [done|]. intros p.
    rewrite decide_False; [done|]. by intros ?%Exists_nil.
  - apply NoDup_cons in Hnd as [Hc Hnd].
    destruct (Hcs c) as [[Hlen Hpre] Hsome]; [by left|].
    destruct (clean_path_tree d c st Htree Hpre Hsome) as (st1 & Hrun1 & Hlog1 & Hst1).
    destruct (IH st1 Hnd) as (st' & Hrun & Hlog & Hst').
    { intros p n. rewrite Hst1. destruct (decide (c `prefix_of` p)) as [|Hp]; [done|].
      intros Hn Hbelow. rewrite Hst1. rewrite decide_False.
      - by apply (Htree p n).
      - intros Hpar. apply Hp. etrans; [exact Hpar|].
        destruct Hbelow as [_ Hne]. destruct p as [|x p] using rev_ind.
        + done.
        + rewrite removelast_last. by apply prefix_app_r. }
    { intros c' Hin. destruct (Hcs c') as [[Hlen' Hpre'] Hsome']; [by right|].
      split; [done|]. rewrite Hst1, decide_False; [done|].
      intros Hcc. apply Hc. apply prefix_length_eq in Hcc; [by subst|]. lia. }
    exists st'. split.
    + cbn [for_each]. unfold mbind, M_bind, bind. by rewrite Hrun1.
    + split; [congruence|]. intros p. rewrite Hst', Hst1.
      destruct (decide (Exists (λ c0, c0 `prefix_of` p) (c :: cs))) as [He'|He'].
      * destruct (decide (Exists _ cs)); [done|].
        destruct (decide (c `prefix_of` p)); [done|].
        by apply Exists_cons in He' as [?|?].
      * destruct (decide (Exists _ cs)) as [He|He]; [destruct He'; by right|].
        destruct (decide (c `prefix_of` p)) as [Hp|Hp]; [|done].
        destruct He'. by left.
Qed.

(** A complete and duplicate-free list of the entries directly in [d]. *)
Definition lists (d : Path) (fs : gmap Path node) (cs : list Path) : Prop :=
  NoDup cs ∧ ∀ c, c ∈ cs ↔ child_of d c ∧ is_Some (fs !! c).

Lemma iterdir_lists (d : Path) (st : store) :
  files st !! d = Some Dir →
  ∃ cs, iterdir d st = (Ok cs, st) ∧ lists d (files st) cs.
Proof.
  intros Hd. unfold iterdir. monad_step. rewrite Hd. eexists. split; [done|]. split.
  - apply NoDup_filter, NoDup_fst_map_to_list.
  - intros c. rewrite list_elem_of_filter, list_elem_of_fmap. split.
    + intros [Hc [[c' n] [-> Hin%elem_of_map_to_list]]]. split; [done|]. by exists n.
    + intros [Hc [n Hn]]. split; [done|]. exists (c, n). split; [done|].
      by apply elem_of_map_to_list.
Qed.

(** Cleaning one directory whose entries form a tree. *)
Lemma clean_directory (d : Path) (cs : list Path) (st : store) :
  lists d (files st) cs → in_directories d (files st) →
  ∃ st', for_each cs clean_path st = (Ok tt, st') ∧ logged st' = logged st
         ∧ ∀ p, files st' !! p = if decide (below d p) then None else files st !! p.
Proof.
  intros [Hnd Hcs] Htree.
  destruct (clean_children d cs st Hnd Htree) as (st' & Hrun & Hlog & Hst').
  { intros c Hc. by apply Hcs. }
  exists st'. split; [done|]. split; [done|]. intros p. rewrite Hst'.
  destruct (decide (Exists _ cs)) as [He|He].
  - rewrite decide_True; [done|]. apply Exists_exists in He as (c & Hin & Hpre).
    apply Hcs in Hin as [[Hlen Hdc] _]. split; [by etrans|].
    intros ->. apply prefix_length in Hpre. lia.
  - destruct (decide (below d p)) as [[[k ->] Hne]|]; [|done].
    destruct (files st !! (d ++ k)) as [n|] eqn:E; [|done].
    destruct He. destruct k as [|x k]; [by rewrite app_nil_r in Hne|].
    apply Exists_exists. exists (d ++ [x]). split.
    + apply Hcs. split.
      * split; [rewrite length_app; simpl; lia|by apply prefix_app_r].
      * apply (in_directories_ancestor d _ k); [done|by apply prefix_app_r|].
        rewrite <- app_assoc. simpl. by eexists.
    + exists k. by rewrite <- app_assoc.
Qed.

(** X15: when [build] and [dist] are directories whose entries form trees,
    the [--clean] loop of [main] returns normally, whichever way the
    directories are listed; afterwards nothing is left below [build] and
    below [dist], and every other path, the two directories among them,
    holds what it held.  A symbolic link in them is removed as a link: what
    it points to stays. *)
Theorem clean_loop_empties (eager : bool) (st : store) :
  files st !! BUILD_DIR = Some Dir → files st !! DIST_DIR = Some Dir →
  in_directories BUILD_DIR (files st) → in_directories DIST_DIR (files st) →
  ∃ st', clean_loop eager st = (Ok tt, st') ∧ logged st' = logged st
         ∧ ∀ p, files st' !! p
                = if decide (below BUILD_DIR p ∨ below DIST_DIR p) then None
                  else files st !! p.
Proof.
  intros Hbuild Hdist Htb Htd.
  destruct (iterdir_lists BUILD_DIR st Hbuild) as (bs & Hib & Hbs).
  destruct (iterdir_lists DIST_DIR st Hdist) as (ds & Hid & Hds).
  destruct (clean_directory BUILD_DIR bs st Hbs Htb) as (st1 & Hrun1 & Hlog1 & Hst1).
  assert (∀ p, DIST_DIR `prefix_of` p → ¬ below BUILD_DIR p) as Hsep.
  { intros p [k ->] [[k' Hk] _]. discriminate Hk. }
  assert (files st1 !! DIST_DIR = Some Dir) as Hdist1.
  { rewrite Hst1, decide_False; [done|]. by apply Hsep. }
  assert (in_directories DIST_DIR (files st1)) as Htd1.
  { intros p n. rewrite Hst1. destruct (decide (below BUILD_DIR p)); [done|].
    intros Hn Hbelow. rewrite Hst1, decide_False; [by apply (Htd p n)|].
    apply Hsep. destruct Hbelow as [[k ->] Hne].
    destruct k as [|x k] using rev_ind; [by rewrite app_nil_r in Hne|].
    rewrite app_assoc, removelast_last. by apply prefix_app_r. }
  assert (∀ cs, lists DIST_DIR (files st) cs → lists DIST_DIR (files st1) cs) as Hlists.
  { intros cs [Hnd Hcs]. split; [done|]. intros c. rewrite Hcs. split.
    - intros [Hc Hsome]. split; [done|]. rewrite Hst1, decide_False; [done|].
      apply Hsep, Hc.
    - intros [Hc Hsome]. split; [done|]. revert Hsome. rewrite Hst1.
      destruct (decide (below BUILD_DIR c)); [by intros [? [=]]|done]. }
  assert (∀ ds', lists DIST_DIR (files st1) ds' →
          ∃ st', for_each ds' clean_path st1 = (Ok tt, st') ∧ logged st' = logged st
                 ∧ ∀ p, files st' !! p
                        = if decide (below BUILD_DIR p ∨ below DIST_DIR p) then None
                          else files st !! p) as Hsecond.
  { intros ds' Hds'.
    destruct (clean_directory DIST_DIR ds' st1 Hds' Htd1) as (st' & Hrun & Hlog & Hst').
    exists st'. split; [done|]. split; [congruence|]. intros p. rewrite Hst', Hst1.
    destruct (decide (below DIST_DIR p)), (decide (below BUILD_DIR p));
      by (rewrite decide_True by tauto) || (rewrite decide_False by tauto). }
  destruct eager; unfold clean_loop.
  - destruct (Hsecond ds (Hlists ds Hds)) as (st' & Hrun & Hrest).
    exists st'. split; [|done].
    rewrite (bind_ok _ _ _ _ _ Hib), (bind_ok _ _ _ _ _ Hid), for_each_app.
    by rewrite Hrun1.
  - destruct (iterdir_lists DIST_DIR st1 Hdist1) as (ds' & Hid' & Hds').
    destruct (Hsecond ds' Hds') as (st' & Hrun & Hrest).
    exists st'. split; [|done].
    rewrite (bind_ok _ _ _ _ _ Hib). unfold mbind at 1, M_bind, bind at 1.
    rewrite Hrun1. by rewrite (bind_ok _ _ _ _ _ Hid').
Qed.

Lemma clean_loop_empties_witness :
  let fs : gmap Path node :=
    list_to_map [ (["build"], Dir); (["build"; "cacert.pem"], File []);
                  (["build"; "cpython-3.13.0"], Dir);
                  (["build"; "cpython-3.13.0"; "README"], File []);
                  (["build"; "latest"], Symlink ["module"]);
                  (["dist"], Dir); (["dist"; "py2droid.zip"], File []);
                  (["module"], Dir); (["module"; "module.prop"], File []) ] in
  let st := {| files := fs; logged := [] |} in
  ∃ st', clean_loop false st = (Ok tt, st') ∧ logged st' = logged st
         ∧ ∀ p, files st' !! p
                = if decide (below BUILD_DIR p ∨ below DIST_DIR p) then None
                  else files st !! p.
Proof.
  intros fs st. apply (clean_loop_empties false st).
  - reflexivity.
  - reflexivity.
  - apply (bool_decide_unpack _). vm_compute. exact I.
  - apply (bool_decide_unpack _). vm_compute. exact I.
Defined.

(** ** [update_env_path] with several values *)

Lemma split_on_concat (c : ascii) (xs : list string) :
  xs ≠ [] → split_on c (String.concat (String c "") xs) = xs ≫= split_on c.
Proof.
  induction xs as [|x xs IH]; [done|]. intros _.
  destruct xs as [|y xs].
  - simpl. by rewrite app_nil_r.
  - change (String.concat (String c "") (x :: y :: xs))
      with (x +:+ String c (String.concat (String c "") (y :: xs))).
    rewrite split_on_app, IH by done. reflexivity.
Qed.

(** X16: [update_env_path] with one value or more puts the values in front
    of the variable in the order they are given, each with the entries it
    holds itself, and the entries of the old value follow; an absent
    variable is created from the values alone.  With no value at all a
    variable that is present keeps its value and an absent one is created
    empty.  No other variable and no other dict changes. *)
Theorem update_env_path_prepends (pathsep : ascii) (h : heap) (env : positive) (d : dict)
    (key : string) (values : list Path) :
  h !! env = Some d →
  ∃ v, update_env_path pathsep env key values h = (Ok tt, <[env := <[key := v]> d]> h)
       ∧ (values ≠ [] →
          split_on pathsep v
          = (values ≫= (λ p, split_on pathsep (path_str p)))
            ++ from_option (split_on pathsep) [] (d !! key))
       ∧ (values = [] → v = default "" (d !! key)).
Proof.
  intros Hd. unfold update_env_path, dict_get, dict_setitem, modify.
  unfold mbind at 1, M_bind, bind. rewrite Hd. cbn [mbind option_bind].
  assert (∀ v : string, alter (λ d0 : dict, <[key:=v]> d0) env h = <[env := <[key:=v]> d]> h)
    as Halter.
  { intros v. apply map_eq. intros l. rewrite lookup_alter, lookup_insert.
    destruct (decide (env = l)) as [<-|]; [by rewrite Hd|done]. }
  destruct (d !! key) as [old|]; rewrite Halter; eexists; (split; [reflexivity|]); split.
  - intros Hne. rewrite split_on_concat by by destruct values.
    rewrite bind_app. simpl. rewrite app_nil_r. f_equal.
    clear. induction values as [|p values IH]; [done|]. simpl. f_equal. exact IH.
  - by intros ->.
  - intros Hne. rewrite split_on_concat by by destruct values.
    simpl. rewrite app_nil_r.
    clear. induction values as [|p values IH]; [done|]. simpl. f_equal. exact IH.
  - by intros ->.
Qed.

Lemma update_env_path_prepends_witness :
  let d : dict := {[ "PATH" := "/usr/bin:/bin" ]} in
  let h : heap := {[ 2%positive := d ]} in
  ∃ v, update_env_path ":" 2%positive "PATH" [["/"; "ndk"; "bin"]; ["tools"]] h
       = (Ok tt, <[2%positive := <["PATH" := v]> d]> h)
       ∧ split_on ":" v = ["/ndk/bin"; "tools"; "/usr/bin"; "/bin"].
Proof.
  intros d h.
  destruct (update_env_path_prepends ":" h 2%positive d "PATH" [["/"; "ndk"; "bin"]; ["tools"]])
    as (v & Hrun & Hsplit & _); [reflexivity|].
  exists v. split; [exact Hrun|]. by rewrite Hsplit.
Defined.

(** ** [init] *)

Lemma prepare_environment_cases (PROJECT_DIR : Path) (s : process) :
  let s1 := {| proc_environ := proc_environ s; proc_which := proc_which s;
               proc_cwd := PROJECT_DIR; proc_files := proc_files s |} in
  (_prepare_environment PROJECT_DIR s = (Ok tt, s1)
   ∧ "ANDROID_HOME" ∈ dom (proc_environ s)
   ∧ Forall (λ tool, ∃ a found, proc_which s tool = Some (String a found)) REQUIRED_TOOLS)
  ∨ ∃ msg, _prepare_environment PROJECT_DIR s = (Raise (BuilderError msg), s).
Proof.
  intros s1. unfold _prepare_environment. monad_step.
  destruct (bool_decide ("ANDROID_HOME" ∈ dom (proc_environ s))) eqn:Hhome;
    [|right; by eexists].
  apply bool_decide_eq_true_1 in Hhome.
  unfold REQUIRED_TOOLS. cbn [for_each]. monad_step.
  destruct (proc_which s "curl") as [[|a1 f1]|] eqn:Hcurl; try (right; by eexists).
  destruct (proc_which s "patch") as [[|a2 f2]|] eqn:Hpatch; try (right; by eexists).
  left. split; [|split; [done|]].
  - destruct (bool_decide (proc_cwd s ≠ PROJECT_DIR)) eqn:Hcwd; [done|].
    apply bool_decide_eq_false_1 in Hcwd.
    assert (proc_cwd s = PROJECT_DIR) as <- by by destruct (decide (proc_cwd s = PROJECT_DIR)).
    unfold s1. by destruct s.
  - repeat constructor; by eexists _, _.
Qed.

(** The body of the loop over [BUILD_DIR] and [DIST_DIR]. *)
Lemma ensure_directory (s : process) (name : string) :
  let q := path_join (proc_cwd s) [name] in
  let body := (found ← proc_exists [name]; if negb found then mkdir [name] else mret tt) in
  match stat (proc_files s) q, proc_files s !! q with
  | Some _, _ => body s = (Ok tt, s)
  | None, Some _ => body s = (Raise (OSError [name]), s)
  | None, None =>
      body s = (Ok tt, {| proc_environ := proc_environ s; proc_which := proc_which s;
                          proc_cwd := proc_cwd s;
                          proc_files := <[q := Dir]> (proc_files s) |})
  end.
Proof.
  intros q body. unfold body, proc_exists, mkdir. monad_step. fold q.
  destruct (stat (proc_files s) q) as [n|] eqn:Hstat.
  - by rewrite bool_decide_eq_true_2 by by eexists.
  - rewrite bool_decide_eq_false_2 by by intros [? [=]].
    cbv beta iota zeta delta [negb]. fold q. by destruct (proc_files s !! q).
Qed.

Lemma stat_insert_fresh (fs : gmap Path node) (q p : Path) :
  fs !! q = None → is_Some (stat fs p) → is_Some (stat (<[q := Dir]> fs) p).
Proof.
  intros Hq [x Hx]. exists x. unfold stat in *.
  eapply resolve_weaken; [|exact Hx]. by apply insert_subseteq.
Qed.

Lemma stat_insert_dir (fs : gmap Path node) (q : Path) :
  is_Some (stat (<[q := Dir]> fs) q).
Proof. exists Dir. unfold stat. simpl. by rewrite lookup_insert_eq. Qed.

Lemma proc_exists_run (p : Path) (s : process) :
  proc_exists p s
  = (Ok (bool_decide (is_Some (stat (proc_files s) (path_join (proc_cwd s) p)))), s).
Proof. reflexivity. Qed.

Lemma prepare_project_directory_cases (s : process) :
  _prepare_project_directory s
  = if bool_decide (is_Some (stat (proc_files s) (proc_cwd s ++ ["module"]))) then
      if bool_decide (is_Some (stat (proc_files s) (proc_cwd s ++ ["build.toml"]))) then
        for_each [["build"]; ["dist"]]
          (λ path, found ← proc_exists path; if negb found then mkdir path else mret tt) s
      else (Raise (BuilderError "Build configuration file not found: build.toml"), s)
    else (Raise (BuilderError "Module directory not found: module"), s).
Proof.
  unfold _prepare_project_directory.
  rewrite (bind_ok _ _ _ _ _ (proc_exists_run MODULE_DIR s)).
  change (path_join (proc_cwd s) MODULE_DIR) with (proc_cwd s ++ ["module"]).
  destruct (bool_decide (is_Some (stat (proc_files s) (proc_cwd s ++ ["module"]))));
    [|reflexivity].
  cbv beta iota zeta delta [negb].
  rewrite (bind_ok _ _ _ _ _ (proc_exists_run BUILD_CONFIG s)).
  change (path_join (proc_cwd s) BUILD_CONFIG) with (proc_cwd s ++ ["build.toml"]).
  destruct (bool_decide (is_Some (stat (proc_files s) (proc_cwd s ++ ["build.toml"]))));
    reflexivity.
Qed.

(** X17: [init] changes nothing of the environment and never removes or
    overwrites an entry of the filesystem.  It raises a [BuilderError] only
    with the filesystem untouched.  When it returns, [ANDROID_HOME] is set,
    [curl] and [patch] have been found, the working directory is the project
    root, and [module], [build.toml], [build] and [dist] exist there; no
    path but [build] and [dist] has changed.  The one other way it ends is
    the [OSError] of [mkdir] for [build] or [dist], when the name is taken
    by a link that leads nowhere. *)
Theorem init_outcome (PROJECT_DIR : Path) (s : process) :
  let r := (init PROJECT_DIR s).1 in
  let s' := (init PROJECT_DIR s).2 in
  proc_environ s' = proc_environ s
  ∧ proc_files s ⊆ proc_files s'
  ∧ (∀ msg, r = Raise (BuilderError msg) → proc_files s' = proc_files s)
  ∧ (r = Ok tt →
     "ANDROID_HOME" ∈ dom (proc_environ s)
     ∧ Forall (λ tool, is_Some (proc_which s tool)) ["curl"; "patch"]
     ∧ proc_cwd s' = PROJECT_DIR
     ∧ Forall (λ name, is_Some (stat (proc_files s') (PROJECT_DIR ++ [name])))
         ["module"; "build.toml"; "build"; "dist"]
     ∧ ∀ p, p ≠ PROJECT_DIR ++ ["build"] → p ≠ PROJECT_DIR ++ ["dist"] →
            proc_files s' !! p = proc_files s !! p)
  ∧ (∀ e, r = Raise e →
     (∃ msg, e = BuilderError msg)
     ∨ ∃ name, (name = "build" ∨ name = "dist") ∧ e = OSError [name]
               ∧ is_Some (proc_files s !! (PROJECT_DIR ++ [name]))
               ∧ stat (proc_files s) (PROJECT_DIR ++ [name]) = None).
Proof.
  intros r s'. subst r s'.
  assert (Forall (λ tool, ∃ a found, proc_which s tool = Some (String a found)) REQUIRED_TOOLS
          → Forall (λ tool, is_Some (proc_which s tool)) ["curl"; "patch"]) as Hfound.
  { intros H. eapply Forall_impl; [exact H|]. intros tool (a & f & ->). by eexists. }
  destruct (init PROJECT_DIR s) as [r s'] eqn:Hinit. cbn [fst snd].
  unfold init in Hinit.
  destruct (prepare_environment_cases PROJECT_DIR s) as [(Henv & Hhome & Htools)|[msg Henv]].
  2:{ rewrite (bind_raise _ _ _ _ _ Henv) in Hinit. injection Hinit as <- <-.
      split; [done|]. split; [done|]. split; [done|]. split; [done|].
      intros e [= <-]. left. by eexists. }
  rewrite (bind_ok _ _ _ _ _ Henv) in Hinit. clear Henv.
  set (s1 := {| proc_cwd := PROJECT_DIR |}) in Hinit.
  rewrite prepare_project_directory_cases in Hinit.
  change (proc_cwd s1) with PROJECT_DIR in Hinit.
  change (proc_files s1) with (proc_files s) in Hinit.
  destruct (bool_decide (is_Some (stat (proc_files s) (PROJECT_DIR ++ ["module"]))))
    eqn:Hmodule.
  2:{ injection Hinit as <- <-.
      split; [done|]. split; [done|]. split; [done|]. split; [done|].
      intros e [= <-]. left. by eexists. }
  destruct (bool_decide (is_Some (stat (proc_files s) (PROJECT_DIR ++ ["build.toml"]))))
    eqn:Hconfig.
  2:{ injection Hinit as <- <-.
      split; [done|]. split; [done|]. split; [done|]. split; [done|].
      intros e [= <-]. left. by eexists. }
  apply bool_decide_eq_true_1 in Hmodule, Hconfig.
  cbn [for_each] in Hinit. cbv beta in Hinit.
  assert (PROJECT_DIR ++ ["build"] ≠ PROJECT_DIR ++ ["dist"]) as Hne
    by by intros [=]%(inj (app PROJECT_DIR)).
  pose proof (ensure_directory s1 "build") as Hb. cbv zeta in Hb.
  change (path_join (proc_cwd s1) ["build"]) with (PROJECT_DIR ++ ["build"]) in Hb.
  change (proc_files s1) with (proc_files s) in Hb.
  destruct (stat (proc_files s) (PROJECT_DIR ++ ["build"])) as [nb|] eqn:Hsb;
    [|destruct (proc_files s !! (PROJECT_DIR ++ ["build"])) as [lb|] eqn:Hlb].
  - (* build exists *)
    rewrite (bind_ok _ _ _ _ _ Hb) in Hinit. clear Hb.
    pose proof (ensure_directory s1 "dist") as Hd. cbv zeta in Hd.
    change (path_join (proc_cwd s1) ["dist"]) with (PROJECT_DIR ++ ["dist"]) in Hd.
    change (proc_files s1) with (proc_files s) in Hd.
    destruct (stat (proc_files s) (PROJECT_DIR ++ ["dist"])) as [nd|] eqn:Hsd;
      [|destruct (proc_files s !! (PROJECT_DIR ++ ["dist"])) as [ld|] eqn:Hld].
    + rewrite (bind_ok _ _ _ _ _ Hd) in Hinit. injection Hinit as <- <-.
      split; [done|]. split; [done|]. split; [done|]. split; [|done].
      intros _. split; [done|]. split; [by apply Hfound|]. split; [done|]. split; [|done].
      repeat constructor; try done; by eexists.
    + rewrite (bind_raise _ _ _ _ _ Hd) in Hinit. injection Hinit as <- <-.
      split; [done|]. split; [done|]. split; [done|]. split; [done|].
      intros e [= <-]. right. exists "dist".
      split; [by right|]. split; [done|]. split; [by eexists|done].
    + rewrite (bind_ok _ _ _ _ _ Hd) in Hinit. injection Hinit as <- <-.
      cbn [proc_files proc_environ proc_cwd proc_which].
      split; [done|]. split; [by apply insert_subseteq|]. split; [done|]. split; [|done].
      intros _. split; [done|]. split; [by apply Hfound|]. split; [done|]. split.
      * repeat constructor; try (apply stat_insert_fresh; [done|]; first [done|by eexists]).
        apply stat_insert_dir.
      * intros p _ Hp. by rewrite lookup_insert_ne.
  - (* build is a link that leads nowhere *)
    rewrite (bind_raise _ _ _ _ _ Hb) in Hinit. injection Hinit as <- <-.
    split; [done|]. split; [done|]. split; [done|]. split; [done|].
    intros e [= <-]. right. exists "build".
    split; [by left|]. split; [done|]. split; [by eexists|done].
  - (* build is made *)
    rewrite (bind_ok _ _ _ _ _ Hb) in Hinit. clear Hb.
    set (s2 := {| proc_files := <[PROJECT_DIR ++ ["build"] := Dir]> (proc_files s) |})
      in Hinit.
    pose proof (ensure_directory s2 "dist") as Hd. cbv zeta in Hd.
    change (path_join (proc_cwd s2) ["dist"]) with (PROJECT_DIR ++ ["dist"]) in Hd.
    change (proc_files s2) with (<[PROJECT_DIR ++ ["build"] := Dir]> (proc_files s)) in Hd.
    rewrite lookup_insert_ne in Hd by done.
    destruct (stat (<[PROJECT_DIR ++ ["build"] := Dir]> (proc_files s))
                (PROJECT_DIR ++ ["dist"])) as [nd|] eqn:Hsd;
      [|destruct (proc_files s !! (PROJECT_DIR ++ ["dist"])) as [ld|] eqn:Hld].
    + rewrite (bind_ok _ _ _ _ _ Hd) in Hinit. injection Hinit as <- <-. subst s2.
      cbn [proc_files proc_environ proc_cwd proc_which].
      split; [done|]. split; [by apply insert_subseteq|]. split; [done|]. split; [|done].
      intros _. split; [done|]. split; [by apply Hfound|]. split; [done|]. split.
      * repeat constructor; try (apply stat_insert_fresh; [done|]; first [done|by eexists]).
        -- apply stat_insert_dir.
        -- by eexists.
      * intros p Hp _. by rewrite lookup_insert_ne.
    + rewrite (bind_raise _ _ _ _ _ Hd) in Hinit. injection Hinit as <- <-. subst s2.
      cbn [proc_files proc_environ proc_cwd proc_which].
      split; [done|]. split; [by apply insert_subseteq|]. split; [done|]. split; [done|].
      intros e [= <-]. right. exists "dist".
      split; [by right|]. split; [done|]. split; [by eexists|].
      destruct (stat (proc_files s) (PROJECT_DIR ++ ["dist"])) as [x|] eqn:Hx; [|done].
      assert (is_Some (stat (<[PROJECT_DIR ++ ["build"] := Dir]> (proc_files s))
                         (PROJECT_DIR ++ ["dist"]))) as [y Hy]
        by (apply stat_insert_fresh; [done|by eexists]).
      by rewrite Hy in Hsd.
    + rewrite (bind_ok _ _ _ _ _ Hd) in Hinit. injection Hinit as <- <-. subst s2.
      cbn [proc_files proc_environ proc_cwd proc_which].
      assert (<[PROJECT_DIR ++ ["build"] := Dir]> (proc_files s) !! (PROJECT_DIR ++ ["dist"])
              = None) as Hfresh by by rewrite lookup_insert_ne.
      split; [done|].
      split; [etrans; [|by apply insert_subseteq]; by apply insert_subseteq|].
      split; [done|]. split; [|done].
      intros _. split; [done|]. split; [by apply Hfound|]. split; [done|]. split.
      * repeat constructor.
        -- apply stat_insert_fresh; [done|]. by apply stat_insert_fresh.
        -- apply stat_insert_fresh; [done|]. by apply stat_insert_fresh.
        -- apply stat_insert_fresh; [done|]. apply stat_insert_dir.
        -- apply stat_insert_dir.
      * intros p Hp1 Hp2. by rewrite !lookup_insert_ne.
Qed.

(** ** The commands of [_build_hosts] *)

(** The command that has to have succeeded right before a [make] step. *)
Definition prerequisite (configure_args command : list string) : option (list string) :=
  match command with
  | [prog; sub] =>
      if decide (sub = "make-build") then Some [prog; "configure-build"] else None
  | [prog; sub; host] =>
      if decide (sub = "make-host")
      then Some ([prog; "configure-host"; host; "--"] ++ configure_args)
      else None
  | _ => None
  end.

Section Journal.
Context {World : Type}.
Variable exec : list string → option Path → option dict → World → Z * World.
Variable exists_in : World → Path → bool.
(** The commands that have been run so far, each with its exit code. *)
Variable journal : World → list (list string * Z).
Hypothesis exec_journal : ∀ cmd cwd env w,
  journal (exec cmd cwd env w).2 = journal w ++ [(cmd, (exec cmd cwd env w).1)].
Variable configure_args : list string.

Definition paired (new : list (list string * Z)) : Prop :=
  ∀ i cmd rc pre, new !! i = Some (cmd, rc) → prerequisite configure_args cmd = Some pre →
                  ∃ j, i = S j ∧ new !! j = Some (pre, 0%Z).

Definition good (new : list (list string * Z)) : Prop :=
  Forall (λ e, e.2 = 0%Z) new ∧ paired new.

Definition outcome {A} (r : result A) (new : list (list string * Z)) : Prop :=
  match r with
  | Ok _ => good new
  | Raise e =>
      ∃ new0 cmd rc, new = new0 ++ [(cmd, rc)] ∧ good new0 ∧ rc ≠ 0%Z
                     ∧ e = CalledProcessError rc cmd "" "" ∧ paired new
  end.

Lemma paired_snoc_free new cmd rc :
  paired new → prerequisite configure_args cmd = None → paired (new ++ [(cmd, rc)]).
Proof.
  intros Hp Hnone i cmd' rc' pre Hi Hpre.
  destruct (decide (i < length new)) as [Hlt|Hge].
  - rewrite lookup_app_l in Hi by done.
    destruct (Hp _ _ _ _ Hi Hpre) as (j & -> & Hj). exists j. split; [done|].
    rewrite lookup_app_l by lia. done.
  - rewrite lookup_app_r in Hi by lia.
    destruct (i - length new) as [|k] eqn:E; [|by destruct k].
    injection Hi as <- <-. congruence.
Qed.

Lemma paired_snoc_after new pre cmd rc :
  paired (new ++ [(pre, 0%Z)]) → prerequisite configure_args cmd = Some pre →
  paired ((new ++ [(pre, 0%Z)]) ++ [(cmd, rc)]).
Proof.
  intros Hp Hsome i cmd' rc' pre' Hi Hpre.
  destruct (decide (i < length (new ++ [(pre, 0%Z)]))) as [Hlt|Hge].
  - rewrite lookup_app_l in Hi by done.
    destruct (Hp _ _ _ _ Hi Hpre) as (j & -> & Hj). exists j. split; [done|].
    rewrite lookup_app_l by lia. done.
  - rewrite lookup_app_r in Hi by lia.
    destruct (i - length (new ++ [(pre, 0%Z)])) as [|k] eqn:E; [|by destruct k].
    injection Hi as <- <-. rewrite length_app in *. simpl in *.
    exists (length new). split; [lia|].
    rewrite lookup_app_l by (rewrite length_app; simpl; lia).
    rewrite lookup_app_r by lia. rewrite Nat.sub_diag. simpl. congruence.
Qed.

Lemma run_journal (cmd : list string) (cwd : option Path) (env : option dict) (w : World) :
  ∃ rc w', journal w' = journal w ++ [(cmd, rc)]
           ∧ run exec cmd cwd env w
             = if (rc =? 0)%Z
               then (Ok {| args := cmd; returncode := rc; stdout := ""; stderr := "" |}, w')
               else (Raise (CalledProcessError rc cmd "" ""), w').
Proof.
  unfold run. pose proof (exec_journal cmd cwd env w) as H.
  destruct (exec cmd cwd env w) as [rc w']. by exists rc, w'.
Qed.

(** A configure step and the make step after it. *)
Lemma step_pair (base new : list (list string * Z)) (conf make : list string)
    (cwd : option Path) (env : option dict) (w : World) :
  prerequisite configure_args conf = None →
  prerequisite configure_args make = Some conf →
  journal w = base ++ new → good new →
  ∃ (r : result unit) w' new',
    (run exec conf cwd env;; run exec make cwd None;; mret tt) w = (r, w')
    ∧ journal w' = base ++ new' ∧ outcome r new'.
Proof.
  intros Hconf Hmake Hw [Hzero Hpaired].
  destruct (run_journal conf cwd env w) as (rc1 & w1 & Hj1 & Hrun1).
  unfold mbind, M_bind, bind. rewrite Hrun1.
  destruct (rc1 =? 0)%Z eqn:Hrc1.
  - apply Z.eqb_eq in Hrc1. subst rc1.
    destruct (run_journal make cwd None w1) as (rc2 & w2 & Hj2 & Hrun2).
    rewrite Hrun2.
    assert (good (new ++ [(conf, 0%Z)])) as [Hzero1 Hpaired1].
    { split; [apply Forall_app; by repeat constructor|by apply paired_snoc_free]. }
    assert (paired ((new ++ [(conf, 0%Z)]) ++ [(make, rc2)])) as Hpaired2
      by by apply paired_snoc_after.
    destruct (rc2 =? 0)%Z eqn:Hrc2; unfold mret, M_ret, ret;
      eexists _, w2, ((new ++ [(conf, 0%Z)]) ++ [(make, rc2)]);
      (split; [reflexivity|]); (split; [by rewrite Hj2, Hj1, Hw, <- !app_assoc|]).
    + apply Z.eqb_eq in Hrc2. subst rc2.
      split; [apply Forall_app; by repeat constructor|done].
    + apply Z.eqb_neq in Hrc2. exists (new ++ [(conf, 0%Z)]), make, rc2.
      split; [done|]. split; [by split|]. by repeat split.
  - apply Z.eqb_neq in Hrc1. eexists _, w1, (new ++ [(conf, rc1)]).
    split; [reflexivity|]. split; [by rewrite Hj1, Hw, <- app_assoc|].
    exists new, conf, rc1.
    split; [done|]. split; [by split|]. split; [done|]. split; [done|].
    by apply paired_snoc_free.
Qed.

Lemma build_hosts_steps (base : list (list string * Z)) (hosts : list string)
    (source_dir : Path) (env : dict) :
  ∀ new w, journal w = base ++ new → good new →
  ∃ (r : result unit) w' new',
    for_each hosts
      (λ host,
         w ← get;
         if exists_in w (source_dir // "cross-build" // host // "prefix") then mret tt
         else
           run exec (["./android.py"; "configure-host"; host; "--"] ++ configure_args)
             (Some (source_dir // "Android")) (Some env);;
           run exec ["./android.py"; "make-host"; host] (Some (source_dir // "Android")) None;;
           mret tt) w = (r, w')
    ∧ journal w' = base ++ new' ∧ outcome r new'.
Proof.
  induction hosts as [|host hosts IH]; intros new w Hw Hgood.
  - by exists (Ok tt), w, new.
  - cbn [for_each].
    destruct (exists_in w (source_dir // "cross-build" // host // "prefix")) eqn:Hex.
    + erewrite bind_ok; [apply (IH new w Hw Hgood)|].
      unfold mbind, M_bind, bind, get. by rewrite Hex.
    + destruct (step_pair base new
                  (["./android.py"; "configure-host"; host; "--"] ++ configure_args)
                  ["./android.py"; "make-host"; host]
                  (Some (source_dir // "Android")) (Some env) w)
        as (r & w1 & new1 & Hm & Hj1 & Hout1); [done|done|done|done|].
      destruct r as [[]|e].
      * erewrite bind_ok; [apply (IH new1 w1 Hj1 Hout1)|].
        unfold mbind at 1, M_bind, bind at 1, get. rewrite Hex. exact Hm.
      * erewrite bind_raise; [by exists (Raise e), w1, new1|].
        unfold mbind at 1, M_bind, bind at 1, get. rewrite Hex. exact Hm.
Qed.

Lemma build_hosts_outcome (hosts : list string) (source_dir : Path) (env : dict)
    (w : World) :
  ∃ r w' new,
    _build_hosts exec exists_in hosts configure_args source_dir env w = (r, w')
    ∧ journal w' = journal w ++ new ∧ outcome r new.
Proof.
  unfold _build_hosts.
  unfold mbind at 1, M_bind, bind at 1, get. cbv beta iota.
  assert (good []) as Hnil.
  { split; [constructor|]. intros i ? ? ? Hi. by rewrite lookup_nil in Hi. }
  destruct (exists_in w _); cbv beta iota zeta delta [negb].
  - erewrite bind_ok by reflexivity.
    apply (build_hosts_steps (journal w) hosts source_dir env [] w); [|done].
    by rewrite app_nil_r.
  - destruct (step_pair (journal w) []
                ["./android.py"; "configure-build"] ["./android.py"; "make-build"]
                (Some (source_dir // "Android")) None w)
      as (r & w1 & new1 & Hm & Hj1 & Hout1); [done|done|by rewrite app_nil_r|done|].
    destruct r as [[]|e].
    + erewrite bind_ok by exact Hm.
      apply (build_hosts_steps (journal w) hosts source_dir env new1 w1 Hj1 Hout1).
    + erewrite bind_raise by exact Hm. by exists (Raise e), w1, new1.
Qed.

End Journal.

(** X18: in a world that keeps a journal of the commands run, the commands
    that [_build_hosts] adds to it obey three rules.  Nothing runs after a
    command that failed: every command but the last one has exit code zero.
    The function returns normally exactly when all of them have, and when
    it raises, the exception is the [CalledProcessError] of the last
    command, with its exit code.  A [make-build] or [make-host] step only
    ever runs right after the [configure-build] step, or the
    [configure-host] step of the same host with the configured arguments,
    has succeeded. *)
Theorem build_hosts_journal {World : Type}
    (exec : list string → option Path → option dict → World → Z * World)
    (exists_in : World → Path → bool) (journal : World → list (list string * Z))
    (hosts configure_args : list string) (source_dir : Path) (env : dict) (w : World) :
  (∀ cmd cwd e w0,
     journal (exec cmd cwd e w0).2 = journal w0 ++ [(cmd, (exec cmd cwd e w0).1)]) →
  let r := (_build_hosts exec exists_in hosts configure_args source_dir env w).1 in
  let w' := (_build_hosts exec exists_in hosts configure_args source_dir env w).2 in
  ∃ new,
    journal w' = journal w ++ new
    ∧ Forall (λ e, e.2 = 0%Z) (removelast new)
    ∧ (r = Ok tt ↔ Forall (λ e, e.2 = 0%Z) new)
    ∧ (∀ e, r = Raise e →
         ∃ cmd rc, last new = Some (cmd, rc) ∧ rc ≠ 0%Z
                   ∧ e = CalledProcessError rc cmd "" "")
    ∧ ∀ i cmd rc pre,
        new !! i = Some (cmd, rc) → prerequisite configure_args cmd = Some pre →
        ∃ j, i = S j ∧ new !! j = Some (pre, 0%Z).
Proof.
  intros Hjournal r w'.
  destruct (build_hosts_outcome exec exists_in journal Hjournal configure_args
              hosts source_dir env w) as (r0 & w0 & new & Hrun & Hj & Hout).
  subst r w'. rewrite Hrun. cbn [fst snd].
  exists new. split; [done|]. destruct r0 as [[]|e].
  - destruct Hout as [Hzero Hpaired]. split; [|split; [done|split; [done|done]]].
    clear -Hzero. induction Hzero as [|x l Hx Hl IH]; [constructor|].
    destruct l; [constructor|]. simpl. constructor; [done|]. exact IH.
  - destruct Hout as (new0 & cmd & rc & -> & [Hzero _] & Hrc & -> & Hpaired).
    split; [by rewrite removelast_last|]. split; [|split; [|done]].
    + split; [done|]. intros [_ H]%Forall_app. rewrite Forall_singleton in H. destruct Hrc. exact H.
    + intros e' [= <-]. exists cmd, rc. by rewrite last_snoc.
Qed.

Lemma build_hosts_journal_witness :
  let exec : list string → option Path → option dict → list (list string * Z)
             → Z * list (list string * Z) :=
    λ cmd _ _ log, let rc := if decide (cmd = ["./android.py"; "make-host"; "x86_64-linux-android"])
                             then 2%Z else 0%Z in
                   (rc, log ++ [(cmd, rc)]) in
  let run_it := _build_hosts exec (λ _ _, false)
                  ["aarch64-linux-android"; "x86_64-linux-android"; "i686-linux-android"]
                  ["--without-ensurepip"] ["build"; "cpython-3.13.0"] ∅ [] in
  ∃ new,
    run_it.2 = [] ++ new
    ∧ Forall (λ e, e.2 = 0%Z) (removelast new)
    ∧ (run_it.1 = Ok tt ↔ Forall (λ e, e.2 = 0%Z) new)
    ∧ (∀ e, run_it.1 = Raise e →
         ∃ cmd rc, last new = Some (cmd, rc) ∧ rc ≠ 0%Z
                   ∧ e = CalledProcessError rc cmd "" "")
    ∧ ∀ i cmd rc pre,
        new !! i = Some (cmd, rc) → prerequisite ["--without-ensurepip"] cmd = Some pre →
        ∃ j, i = S j ∧ new !! j = Some (pre, 0%Z).
Proof.
  intros exec run_it.
  apply (build_hosts_journal exec (λ _ _, false) (λ log, log)).
  intros cmd cwd e w0. reflexivity.
Defined.

(** ** The members of the archive *)

Lemma relative_to_app (base rel : Path) : relative_to base (base ++ rel) = Some rel.
Proof. induction base as [|x base IH]; simpl; [done|]. by rewrite decide_True. Qed.

Lemma child_of_snoc (d p : Path) : child_of d p ↔ ∃ n, p = d ++ [n].
Proof.
  split.
  - intros [Hlen [k ->]]. rewrite length_app in Hlen.
    destruct k as [|n [|? ?]]; simpl in Hlen; try lia. by exists n.
  - intros [n ->]. split; [rewrite length_app; simpl; lia|by apply prefix_app_r].
Qed.

Lemma omap_last_children (d : Path) (l : list Path) :
  Forall (child_of d) l → NoDup l →
  NoDup (omap last l) ∧ ∀ n, n ∈ omap last l ↔ d ++ [n] ∈ l.
Proof.
  induction l as [|p l IH]; intros Hall Hnd.
  - split; [constructor|]. intros n. split; intros H; by apply elem_of_nil in H.
  - apply Forall_cons in Hall as [Hp Hall]. apply NoDup_cons in Hnd as [Hpl Hnd].
    apply child_of_snoc in Hp as [n ->]. destruct (IH Hall Hnd) as [IHnd IHin].
    cbn [omap list_omap]. rewrite last_snoc. split.
    + apply NoDup_cons. split; [|done]. by rewrite IHin.
    + intros m. rewrite !elem_of_cons, IHin. split; intros [H|H]; auto.
      * left. by rewrite H.
      * left. by apply app_inj_tail in H as [_ ?].
Qed.

Lemma scan_spec (fs : gmap Path node) (d : Path) (dn fn : list string) :
  scan fs d = Some (dn, fn) →
  fs !! d = Some Dir ∧ NoDup dn ∧ NoDup fn
  ∧ (∀ n, n ∈ dn ↔ fs !! (d ++ [n]) = Some Dir)
  ∧ (∀ n, n ∈ fn ↔ is_Some (fs !! (d ++ [n])) ∧ is_dir_nofollow fs (d ++ [n]) = false).
Proof.
  unfold scan. destruct (fs !! d) as [[]|] eqn:Hd; try done. cbv zeta.
  set (children := filter (λ p : Path, length p = S (length d) ∧ d `prefix_of` p)
                     (map_to_list fs).*1).
  intros [= <- <-].
  assert (Forall (child_of d) children) as Hall.
  { apply Forall_forall. by intros p [? _]%list_elem_of_filter. }
  assert (NoDup children) as Hnd by apply NoDup_filter, NoDup_fst_map_to_list.
  destruct (omap_last_children d children Hall Hnd) as [Hnames Hin].
  assert (∀ n, d ++ [n] ∈ children ↔ is_Some (fs !! (d ++ [n]))) as Hch.
  { intros n. unfold children. rewrite list_elem_of_filter, list_elem_of_fmap. split.
    - intros [_ [[p x] [Heq Hin']]]. simpl in Heq. subst p.
      apply elem_of_map_to_list in Hin'. by eexists.
    - intros [x Hx]. split; [apply child_of_snoc; by eexists|].
      exists (d ++ [n], x). split; [done|]. by apply elem_of_map_to_list. }
  split; [done|]. split; [by apply NoDup_filter|]. split; [by apply NoDup_filter|].
  split; intros n; rewrite list_elem_of_filter, Hin, Hch; unfold is_dir_nofollow.
  - destruct (fs !! (d ++ [n])) as [[]|]; split; try (by intros [? ?]); try done;
      try (intros _; split; [done|by eexists]).
  - tauto.
Qed.

Lemma scan_Dir (fs : gmap Path node) (d : Path) :
  fs !! d = Some Dir ↔ is_Some (scan fs d).
Proof.
  unfold scan. destruct (fs !! d) as [[]|]; split; try done; try (by intros [? [=]]);
    try (intros _; by eexists).
Qed.

Lemma in_directories_above (d c rest : Path) (fs : gmap Path node) :
  in_directories d fs → d `prefix_of` c → rest ≠ [] → is_Some (fs !! (c ++ rest)) →
  fs !! c = Some Dir.
Proof.
  intros Htree Hpre. induction rest as [|y rest IH] using rev_ind; [done|].
  intros _ Hsome. rewrite app_assoc in Hsome.
  assert (fs !! (c ++ rest) = Some Dir) as Hdir.
  { apply (in_directories_parent d _ y); [done|by apply prefix_app_r|done]. }
  destruct (decide (rest = [])) as [->|Hne]; [by rewrite app_nil_r in Hdir|].
  apply IH; [done|]. by rewrite Hdir.
Qed.

Lemma max_depth_le (fs : gmap Path node) (p : Path) :
  is_Some (fs !! p) → length p ≤ max_depth fs.
Proof.
  intros [x Hx]. unfold max_depth. apply max_list_elem_of_le.
  apply list_elem_of_fmap. exists p. split; [done|].
  apply list_elem_of_fmap. exists (p, x). split; [done|]. by apply elem_of_map_to_list.
Qed.

(** [walk] comes to every directory at or below its start, once. *)
Lemma walk_spec (fs : gmap Path node) (root : Path) :
  in_directories root fs →
  ∀ depth d, root `prefix_of` d → max_depth fs < depth + length d →
  NoDup (walk depth fs d)
  ∧ ∀ q dn fn, (q, dn, fn) ∈ walk depth fs d ↔ d `prefix_of` q ∧ scan fs q = Some (dn, fn).
Proof.
  intros Htree. induction depth as [|depth IH]; intros d Hroot Hdepth.
  - split; [constructor|]. intros q dn fn. split; [by intros ?%elem_of_nil|].
    intros [Hpre Hs]. apply scan_spec in Hs as [Hq _].
    apply prefix_length in Hpre.
    assert (length q ≤ max_depth fs) by (apply max_depth_le; by eexists). simpl in *. lia.
  - cbn [walk]. destruct (scan fs d) as [[dn0 fn0]|] eqn:Hscan.
    + destruct (scan_spec _ _ _ _ Hscan) as (Hd & Hnd_dn & _ & Hdn & _).
      assert (∀ n, NoDup (walk depth fs (d ++ [n]))
                   ∧ ∀ q dn fn, (q, dn, fn) ∈ walk depth fs (d ++ [n])
                                ↔ (d ++ [n]) `prefix_of` q ∧ scan fs q = Some (dn, fn))
        as IH'.
      { intros n. apply IH; [by apply prefix_app_r|]. rewrite length_app. simpl. lia. }
      split.
      * apply NoDup_cons. split.
        -- intros (n & Hin & _)%list_elem_of_bind. apply IH' in Hin as [Hpre _].
           apply prefix_length in Hpre. rewrite length_app in Hpre. simpl in Hpre. lia.
        -- apply NoDup_bind; [|intros n _; apply IH'|done].
           intros n1 n2 [[q a] b] _ _ [[k1 ->] _]%IH' [[k2 Hk] _]%IH'.
           rewrite <- !app_assoc in Hk. apply app_inv_head in Hk. by injection Hk.
      * intros q dn fn. rewrite elem_of_cons, list_elem_of_bind. split.
        -- intros [[= -> -> ->]|(n & Hin & Hn)]; [done|].
           apply IH' in Hin as [Hpre Hs]. split; [|done].
           etrans; [|exact Hpre]. by apply prefix_app_r.
        -- intros [[k ->] Hs]. destruct k as [|x k].
           { left. rewrite app_nil_r in Hs |- *. congruence. }
           right. exists x.
           assert (fs !! (d ++ [x]) = Some Dir) as Hx.
           { destruct (scan_spec _ _ _ _ Hs) as (Hq & _).
             destruct (decide (k = [])) as [->|Hk]; [done|].
             apply (in_directories_above root _ k); [done|by apply prefix_app_r|done|].
             rewrite <- app_assoc. simpl. by rewrite Hq. }
           split; [|by apply Hdn]. apply IH'. split; [|done].
           exists k. by rewrite <- app_assoc.
    + split; [constructor|]. intros q dn fn. split; [by intros ?%elem_of_nil|].
      intros [[k ->] Hs]. destruct k as [|x k].
      { rewrite app_nil_r in Hs. congruence. }
      destruct (scan_spec _ _ _ _ Hs) as (Hq & _).
      assert (fs !! d = Some Dir) as Hd.
      { apply (in_directories_above root _ (x :: k)); [done|done|done|]. by rewrite Hq. }
      apply scan_Dir in Hd as [? Hd]. congruence.
Qed.

Lemma for_each_appends {A} (f : A → list member) (body : A → M (list member) unit)
    (xs : list A) :
  (∀ x z, x ∈ xs → body x z = (Ok tt, z ++ f x)) →
  ∀ z, for_each xs body z = (Ok tt, z ++ (xs ≫= f)).
Proof.
  induction xs as [|x xs IH]; intros Hbody z.
  - simpl. by rewrite app_nil_r.
  - cbn [for_each]. erewrite bind_ok by (apply Hbody; by left).
    rewrite IH by (intros; apply Hbody; by right). simpl. by rewrite app_assoc.
Qed.

(** What one name of a listing adds to the archive. *)
Definition file_member (entry dirpath : Path) (filename : string) : list member :=
  let filepath := dirpath ++ [filename] in
  if decide (path_name filepath ≠ "module.prop") then
    match relative_to entry filepath with
    | Some arcname => [{| member_name := arcname; written_from := Disk filepath |}]
    | None => []
    end
  else [].

Lemma file_member_elem (entry k : Path) (name : string) (m : member) :
  m ∈ file_member entry (entry ++ k) name
  ↔ path_name ((entry ++ k) ++ [name]) ≠ "module.prop"
    ∧ m = {| member_name := k ++ [name]; written_from := Disk ((entry ++ k) ++ [name]) |}.
Proof.
  unfold file_member. cbv zeta.
  replace (relative_to entry ((entry ++ k) ++ [name])) with (Some (k ++ [name]))
    by by rewrite <- app_assoc, relative_to_app.
  destruct (decide (path_name ((entry ++ k) ++ [name]) ≠ "module.prop")) as [Hn|Hn].
  - rewrite list_elem_of_singleton. tauto.
  - split; [by intros ?%elem_of_nil|tauto].
Qed.

Definition entry_members (fs : gmap Path node) (entry : Path) : list member :=
  path_walk fs entry ≫= λ t, t.2 ≫= file_member entry t.1.1.

Lemma path_walk_spec (fs : gmap Path node) (entry : Path) :
  in_directories entry fs →
  NoDup (path_walk fs entry)
  ∧ ∀ q dn fn, (q, dn, fn) ∈ path_walk fs entry
               ↔ entry `prefix_of` q ∧ scan fs q = Some (dn, fn).
Proof. intros Htree. apply (walk_spec fs entry Htree); [done|lia]. Qed.

Lemma add_entry_directory_run (fs : gmap Path node) (entry : Path) (z : list member) :
  fs !! entry = Some Dir → in_directories entry fs →
  (∀ p t, below entry p → fs !! p = Some (Symlink t) → is_Some (stat fs p)) →
  add_entry fs entry z = (Ok tt, z ++ entry_members fs entry).
Proof.
  intros Hentry Htree Hlinks. unfold add_entry.
  destruct (is_file_Dir _ _ Hentry) as [-> _]. unfold entry_members.
  destruct (path_walk_spec fs entry Htree) as [_ Hwalk].
  apply for_each_appends. intros [[q dn] fn] z1 [[k ->] Hscan]%Hwalk. cbn [fst snd].
  apply for_each_appends. intros name z2 Hname.
  destruct (scan_spec _ _ _ _ Hscan) as (_ & _ & _ & _ & Hfn).
  apply Hfn in Hname as [[x Hx] Hnodir].
  unfold file_member. cbv zeta.
  destruct (decide (path_name ((entry ++ k) ++ [name]) ≠ "module.prop")); [|by rewrite app_nil_r].
  replace (relative_to entry ((entry ++ k) ++ [name])) with (Some (k ++ [name]))
    by by rewrite <- app_assoc, relative_to_app.
  unfold zip_write.
  assert (is_Some (stat fs ((entry ++ k) ++ [name]))) as [y ->]; [|done].
  destruct x as [data| |t].
  - rewrite stat_direct; [by eexists|]. intros t. by rewrite Hx.
  - unfold is_dir_nofollow in Hnodir. by rewrite Hx in Hnodir.
  - apply (Hlinks _ t); [|done]. split.
    + rewrite <- app_assoc. by apply prefix_app_r.
    + intros H. apply (f_equal length) in H. rewrite !length_app in H. simpl in H. lia.
Qed.

(** No entry below [d] is a link that leads nowhere. *)
Definition no_dangling (d : Path) (fs : gmap Path node) : Prop :=
  map_Forall (λ p _, below d p → is_Some (stat fs p)) fs.

#[global] Instance no_dangling_dec d fs : Decision (no_dangling d fs).
Proof. unfold no_dangling. apply _. Defined.

Lemma entry_members_spec (fs : gmap Path node) (entry : Path) :
  in_directories entry fs →
  NoDup (entry_members fs entry)
  ∧ ∀ m, m ∈ entry_members fs entry ↔
         ∃ rel, rel ≠ []
                ∧ m = {| member_name := rel; written_from := Disk (entry ++ rel) |}
                ∧ is_Some (fs !! (entry ++ rel))
                ∧ is_dir_nofollow fs (entry ++ rel) = false
                ∧ path_name (entry ++ rel) ≠ "module.prop".
Proof.
  intros Htree.
  destruct (path_walk_spec fs entry Htree) as [Hnd Hwalk]. unfold entry_members. split.
  - apply NoDup_bind; [| |done].
    + intros [[q1 dn1] fn1] [[q2 dn2] fn2] m [[k1 ->] Hs1]%Hwalk [[k2 ->] Hs2]%Hwalk.
      cbn [fst snd].
      intros (n1 & [_ ->]%file_member_elem & _)%list_elem_of_bind
             (n2 & [_ [= _ Heq]]%file_member_elem & _)%list_elem_of_bind.
      apply app_inj_tail in Heq as [Heq _]. rewrite Heq in Hs1. congruence.
    + intros [[q dn] fn] [[k ->] Hs]%Hwalk. cbn [fst snd].
      destruct (scan_spec _ _ _ _ Hs) as (_ & _ & Hfn & _).
      apply NoDup_bind; [| |done].
      * intros n1 n2 m _ _ [_ ->]%file_member_elem [_ [= _ Heq]]%file_member_elem.
        by apply app_inj_tail in Heq as [_ ?].
      * intros n _. unfold file_member. cbv zeta.
        destruct (decide _); [|constructor].
        destruct (relative_to _ _); [apply NoDup_singleton|constructor].
  - intros m. rewrite list_elem_of_bind. split.
    + intros ([[q dn] fn] & Hm & [[k ->] Hs]%Hwalk). cbn [fst snd] in Hm.
      apply list_elem_of_bind in Hm as (name & [Hname ->]%file_member_elem & Hin).
      destruct (scan_spec _ _ _ _ Hs) as (_ & _ & _ & _ & Hfn).
      apply Hfn in Hin as [Hsome Hnodir].
      exists (k ++ [name]). rewrite !(app_assoc entry k [name]).
      split; [by destruct k|done].
    + intros (rel & Hne & -> & Hsome & Hnodir & Hname).
      destruct rel as [|name k _] using rev_ind; [done|]. rewrite app_assoc in *.
      assert (fs !! (entry ++ k) = Some Dir) as Hq.
      { apply (in_directories_parent entry _ name); [done|by apply prefix_app_r|done]. }
      apply scan_Dir in Hq as [[dn fn] Hs].
      exists (entry ++ k, dn, fn). split; [|apply Hwalk; split; [by apply prefix_app_r|done]].
      cbn [fst snd]. apply list_elem_of_bind. exists name. split.
      * by apply file_member_elem.
      * destruct (scan_spec _ _ _ _ Hs) as (_ & _ & _ & _ & Hfn). by apply Hfn.
Qed.

(** X19: a directory that goes into the archive, its entries forming a tree
    with no link that leads nowhere, is added without an error, and what is
    added is this: every entry below the directory that is not itself a
    directory (a regular file or a link) and is not called [module.prop],
    each exactly once, under its path relative to the directory.  A file
    called [module.prop] is left out at any depth. *)
Theorem add_entry_directory (fs : gmap Path node) (entry : Path) (z : list member) :
  fs !! entry = Some Dir → in_directories entry fs → no_dangling entry fs →
  ∃ new,
    add_entry fs entry z = (Ok tt, z ++ new) ∧ NoDup new
    ∧ ∀ m, m ∈ new ↔
           ∃ rel, rel ≠ []
                  ∧ m = {| member_name := rel; written_from := Disk (entry ++ rel) |}
                  ∧ is_Some (fs !! (entry ++ rel))
                  ∧ is_dir_nofollow fs (entry ++ rel) = false
                  ∧ path_name (entry ++ rel) ≠ "module.prop".
Proof.
  intros Hentry Htree Hlinks. exists (entry_members fs entry). split.
  - apply add_entry_directory_run; [done|done|].
    intros p t Hbelow Hp. by apply (Hlinks p (Symlink t)).
  - by apply entry_members_spec.
Qed.

Lemma add_entry_directory_witness :
  let fs : gmap Path node :=
    list_to_map [ (["module"], Dir); (["module"; "module.prop"], File []);
                  (["module"; "customize.sh"], File []);
                  (["module"; "system"], Dir);
                  (["module"; "system"; "module.prop"], File []);
                  (["module"; "system"; "python3"], Symlink ["module"; "customize.sh"]) ] in
  ∃ new,
    add_entry fs ["module"] [] = (Ok tt, [] ++ new) ∧ NoDup new
    ∧ ∀ m, m ∈ new ↔
           ∃ rel, rel ≠ []
                  ∧ m = {| member_name := rel; written_from := Disk (["module"] ++ rel) |}
                  ∧ is_Some (fs !! (["module"] ++ rel))
                  ∧ is_dir_nofollow fs (["module"] ++ rel) = false
                  ∧ path_name (["module"] ++ rel) ≠ "module.prop".
Proof.
  intros fs. apply (add_entry_directory fs ["module"] []).
  - reflexivity.
  - apply (bool_decide_unpack _). vm_compute. exact I.
  - apply (bool_decide_unpack _). vm_compute. exact I.
Defined.

(** What an entry adds that is a regular file, or is not there. *)
Definition flat_member (fs : gmap Path node) (entry : Path) : list member :=
  if is_file fs entry
  then [{| member_name := [path_name entry]; written_from := Disk entry |}]
  else [].

Lemma add_entry_flat (fs : gmap Path node) (entry : Path) (z : list member) :
  is_file fs entry = true ∨ stat fs entry = None →
  add_entry fs entry z = (Ok tt, z ++ flat_member fs entry).
Proof.
  unfold add_entry, flat_member. intros [Hfile|Hnone].
  - rewrite Hfile. unfold zip_write. unfold is_file in Hfile.
    by destruct (stat fs entry) as [[]|].
  - unfold is_file. rewrite Hnone. rewrite app_nil_r.
    assert (path_walk fs entry = []) as ->; [|done].
    unfold path_walk. cbn [walk].
    destruct (scan fs entry) as [[dn fn]|] eqn:Hs; [|done].
    apply scan_spec in Hs as [Hd _]. rewrite stat_direct in Hnone; [congruence|].
    intros t. by rewrite Hd.
Qed.

(** X20: the archive of [_package_module], when [module] is a directory
    whose entries form a tree without links that lead nowhere and every
    tarball and every included path is a regular file or is not there.  The
    first member is the generated [module.prop].  The members from [module]
    follow, none of them called [module.prop].  Then comes one member for
    each tarball and included file, in their order, at the top level under
    its last path component, whatever directory it lies in; so two files
    with the same name give two members with the same name, as does a
    tarball path that is listed twice.  A path that is not there is passed
    over without an error. *)
Theorem write_archive_layout (fs : gmap Path node) (module_prop cpython_version : string)
    (tarballs include : list Path) :
  fs !! MODULE_DIR = Some Dir → in_directories MODULE_DIR fs → no_dangling MODULE_DIR fs →
  Forall (λ e, is_file fs e = true ∨ stat fs e = None) (tarballs ++ include) →
  ∃ from_module,
    write_archive fs module_prop cpython_version tarballs include []
    = (Ok tt,
       {| member_name := ["module.prop"];
          written_from := Text (packaged_module_prop module_prop cpython_version) |}
       :: from_module
       ++ ((tarballs ++ include) ≫= λ e,
             if is_file fs e
             then [{| member_name := [path_name e]; written_from := Disk e |}]
             else []))
    ∧ Forall (λ m, ∃ rel, m = {| member_name := rel;
                                 written_from := Disk (MODULE_DIR ++ rel) |}
                          ∧ path_name (MODULE_DIR ++ rel) ≠ "module.prop") from_module.
Proof.
  intros Hmodule Htree Hlinks Hrest. exists (entry_members fs MODULE_DIR). split.
  - unfold write_archive, zip_writestr.
    unfold mbind at 1, M_bind, bind at 1, modify. cbv beta iota. cbn [for_each].
    erewrite bind_ok.
    2:{ apply add_entry_directory_run; [done|done|].
        intros p t Hbelow Hp. by apply (Hlinks p (Symlink t)). }
    rewrite (for_each_appends (flat_member fs)).
    + by rewrite <- app_assoc.
    + intros e z He. apply add_entry_flat. by eapply Forall_forall in Hrest.
  - apply Forall_forall. intros m Hm.
    apply (entry_members_spec fs MODULE_DIR Htree) in Hm as (rel & _ & -> & _ & _ & Hname).
    by exists rel.
Qed.

Lemma write_archive_layout_witness :
  let fs : gmap Path node :=
    list_to_map [ (["module"], Dir); (["module"; "module.prop"], File []);
                  (["module"; "customize.sh"], File []);
                  (["build"], Dir); (["build"; "cpython-arm.tar.xz"], File []);
                  (["build"; "cacert.pem"], File []) ] in
  let tarballs := [["build"; "cpython-arm.tar.xz"]; ["build"; "cpython-arm.tar.xz"]] in
  let include := [["LICENSE"]; ["build"; "cacert.pem"]] in
  ∃ from_module,
    write_archive fs "id=py2droid" "3.13.0" tarballs include []
    = (Ok tt,
       {| member_name := ["module.prop"];
          written_from := Text (packaged_module_prop "id=py2droid" "3.13.0") |}
       :: from_module
       ++ [ {| member_name := ["cpython-arm.tar.xz"];
               written_from := Disk ["build"; "cpython-arm.tar.xz"] |};
            {| member_name := ["cpython-arm.tar.xz"];
               written_from := Disk ["build"; "cpython-arm.tar.xz"] |};
            {| member_name := ["cacert.pem"];
               written_from := Disk ["build"; "cacert.pem"] |} ])
    ∧ Forall (λ m, ∃ rel, m = {| member_name := rel;
                                 written_from := Disk (MODULE_DIR ++ rel) |}
                          ∧ path_name (MODULE_DIR ++ rel) ≠ "module.prop") from_module.
Proof.
  intros fs tarballs include.
  apply (write_archive_layout fs "id=py2droid" "3.13.0" tarballs include).
  - reflexivity.
  - apply (bool_decide_unpack _). vm_compute. exact I.
  - apply (bool_decide_unpack _). vm_compute. exact I.
  - repeat constructor; by (left; vm_compute) || (right; vm_compute).
Defined.

(** ** [_strip] *)




